(** * Banking back-office front end: a shallow embedding of [script.js]

    The development follows the two scripts of
    [banking_project/static/js/script.js]: the page helpers (form
    validation, table sorting and filtering, the notification badge) and
    the [ReportSystem] class (fetch-based loaders and the export queue).

    Conventions.
    - Text that the user or the server supplies (field values, cell text)
      is a [jsstring]: a list of UTF-16 code units, as JavaScript has it.
    - Text that the script itself writes (class names, job statuses,
      message literals) is a [string] holding the literal of the source.
    - The DOM is modelled only as far as the script looks at it: an element
      is a record of the properties that are read or written, a query that
      may find nothing returns an [option].
    - JavaScript exceptions are explicit: a call returns a [completion]. *)

From Stdlib Require Import ZArith NArith List String Ascii Lia Bool DecimalString.
From Stdlib Require Import Sorting.Permutation Sorting.Sorted.
From stdpp Require Import base list strings sorting.

Open Scope Z_scope.

(** ** JavaScript values the script manipulates *)

Module Js.

(** A UTF-16 code unit and a JavaScript string. *)
Definition code_unit := N.
Definition jsstring := list code_unit.

(** The code units of a source literal made of ASCII characters. *)
Fixpoint lit (s : string) : jsstring :=
  match s with
  | EmptyString => []
  | String c s' => N_of_ascii c :: lit s'
  end.

(** Outcome of running a piece of script: it returns, or it throws. *)
Inductive completion (A : Type) : Type :=
| Returned (a : A)
| Threw.
Arguments Returned {A} a.
Arguments Threw {A}.

(** [ToString] of an integral Number. *)
Definition ToString (n : Z) : string := NilEmpty.string_of_int (Z.to_int n).

(** White space and line terminators: what [\s] matches and what
    [String.prototype.trim] strips. *)
Definition isWhiteSpace (c : code_unit) : bool :=
  ((9 <=? c) && (c <=? 13) || (c =? 32) || (c =? 160) || (c =? 5760)
   || (8192 <=? c) && (c <=? 8202) || (c =? 8232) || (c =? 8233)
   || (c =? 8239) || (c =? 8287) || (c =? 12288) || (c =? 65279))%N.

Fixpoint trimStart (s : jsstring) : jsstring :=
  match s with
  | c :: s' => if isWhiteSpace c then trimStart s' else s
  | [] => []
  end.

Definition trimEnd (s : jsstring) : jsstring := rev (trimStart (rev s)).

Definition trim (s : jsstring) : jsstring := trimEnd (trimStart s).

(** [s.startsWith(p)] and [s.includes(p)], on code units. *)
Fixpoint startsWith (s p : jsstring) {struct p} : bool :=
  match p with
  | [] => true
  | a :: p' =>
      match s with
      | [] => false
      | b :: s' => (a =? b)%N && startsWith s' p'
      end
  end.

Fixpoint includes (s p : jsstring) : bool :=
  startsWith s p ||
  match s with
  | [] => false
  | _ :: s' => includes s' p
  end.

Lemma startsWith_spec s p : startsWith s p = true ↔ ∃ post, s = p ++ post.
Proof.
  revert s. induction p as [|a p IH]; intros s; simpl.
  - split; [intros _; by exists s | done].
  - destruct s as [|b s]; simpl.
    + split; [done | intros [post H]; discriminate H].
    + rewrite andb_true_iff, N.eqb_eq, IH. split.
      * intros [-> [post ->]]. by exists post.
      * intros [post H]. injection H as -> ->. split; [done | by exists post].
Qed.

Lemma includes_spec s p :
  includes s p = true ↔ ∃ pre post, s = pre ++ p ++ post.
Proof.
  induction s as [|b s IH]; cbn [includes].
  - rewrite orb_false_r, startsWith_spec. split.
    + intros [post H]. by exists [], post.
    + intros (pre & post & H). destruct pre; [by exists post | discriminate H].
  - rewrite orb_true_iff, startsWith_spec, IH. split.
    + intros [[post H] | (pre & post & H)].
      * by exists [], post.
      * exists (b :: pre), post. by rewrite H.
    + intros (pre & post & H). destruct pre as [|c pre]; simpl in H.
      * left. by exists post.
      * right. injection H as _ H. by exists pre, post.
Qed.

Lemma includes_empty s : includes s [] = true.
Proof. destruct s; reflexivity. Qed.

Lemma trimStart_nil_iff s : trimStart s = [] ↔ Forall (λ c, isWhiteSpace c = true) s.
Proof.
  induction s as [|c s IH]; simpl; [by split; [constructor|] |].
  destruct (isWhiteSpace c) eqn:E.
  - rewrite IH. split; [by constructor | by inversion 1].
  - split; [done | inversion 1; congruence].
Qed.

Lemma trimStart_idem s : trimStart (trimStart s) = trimStart s.
Proof.
  induction s as [|c s IH]; simpl; [done |].
  destruct (isWhiteSpace c) eqn:E; [done | simpl; by rewrite E].
Qed.

(** The trimmed string is empty exactly when every code unit is white
    space. *)
Lemma trim_nil_iff s : trim s = [] ↔ Forall (λ c, isWhiteSpace c = true) s.
Proof.
  unfold trim, trimEnd. rewrite <- (trimStart_nil_iff s). split.
  - intros H. apply (f_equal (@rev _)) in H. rewrite rev_involutive in H.
    simpl in H. apply trimStart_nil_iff in H.
    apply Forall_rev in H. rewrite rev_involutive in H.
    apply trimStart_nil_iff in H. by rewrite trimStart_idem in H.
  - intros ->. reflexivity.
Qed.

End Js.

(** ** The part of the DOM API the script uses *)

Module Dom.

(** [element.classList]: an ordered set of tokens. *)
Definition classList := list string.

Definition contains (c : string) (l : classList) : bool := bool_decide (c ∈ l).

Definition add (c : string) (l : classList) : classList :=
  if contains c l then l else l ++ [c].

Definition remove (c : string) (l : classList) : classList :=
  filter (λ x, x ≠ c) l.

(** [classList.toggle(c, force)] with the second argument given. *)
Definition toggle (c : string) (force : bool) (l : classList) : classList :=
  if force then add c l else remove c l.

Lemma contains_true c l : contains c l = true ↔ c ∈ l.
Proof. unfold contains. apply bool_decide_eq_true. Qed.

Lemma contains_false c l : contains c l = false ↔ c ∉ l.
Proof. unfold contains. apply bool_decide_eq_false. Qed.

Lemma elem_of_add c d l : d ∈ add c l ↔ d = c ∨ d ∈ l.
Proof.
  unfold add. destruct (contains c l) eqn:E.
  - apply contains_true in E. split; [tauto|]. intros [->|]; done.
  - rewrite elem_of_app, list_elem_of_singleton. tauto.
Qed.

Lemma elem_of_remove c d l : d ∈ remove c l ↔ d ≠ c ∧ d ∈ l.
Proof. unfold remove. by rewrite list_elem_of_filter. Qed.

Lemma add_in c l : c ∈ add c l.
Proof. apply elem_of_add. by left. Qed.

Lemma remove_not_in c l : c ∉ remove c l.
Proof. rewrite elem_of_remove. tauto. Qed.

End Dom.

(** ** [updateNotificationCount] *)

Module Badge.
Import Js Dom.

(** The element matched by [.notification-badge]. *)
Record badge := { textContent : string; classes : classList }.

(** [updateNotificationCount(count)], on the result of
    [document.querySelector('.notification-badge')]. *)
Definition updateNotificationCount (count : Z) (found : option badge)
  : option badge :=
  match found with
  | Some b =>
      if 0 <? count then
        Some {| textContent := if 99 <? count then "99+"%string else ToString count;
                classes := remove "d-none" (classes b) |}
      else
        Some {| textContent := textContent b;
                classes := add "d-none" (classes b) |}
  | None => None
  end.

Definition visible (b : badge) : Prop := "d-none"%string ∉ classes b.

Example badge_7 :
  updateNotificationCount 7 (Some {| textContent := ""; classes := ["badge"; "d-none"]%string |})
  = Some {| textContent := "7"; classes := ["badge"%string] |}.
Proof. reflexivity. Qed.

(** C9. With a badge element present, a count above 99 is shown as "99+",
    a count from 1 to 99 is shown as its own decimal text, in both cases
    with the class d-none taken away; a count of 0 or less adds d-none and
    leaves the text as it was. *)
Theorem updateNotificationCount_caps (count : Z) (b : badge) :
  ∃ b', updateNotificationCount count (Some b) = Some b' ∧
    (99 < count → textContent b' = "99+"%string ∧ visible b') ∧
    (1 ≤ count ≤ 99 → textContent b' = ToString count ∧ visible b') ∧
    (count ≤ 0 → "d-none"%string ∈ classes b' ∧ textContent b' = textContent b).
Proof.
  unfold updateNotificationCount, visible.
  destruct (0 <? count) eqn:Hpos; eexists; (split; [reflexivity|]); simpl.
  - apply Z.ltb_lt in Hpos. split_and!.
    + intros Hc. apply Z.ltb_lt in Hc. rewrite Hc. split; [done | apply remove_not_in].
    + intros Hc. destruct (99 <? count) eqn:H99; [apply Z.ltb_lt in H99; lia |].
      split; [done | apply remove_not_in].
    + lia.
  - apply Z.ltb_ge in Hpos. split_and!; [lia | lia |].
    intros _. split; [apply add_in | done].
Qed.

Lemma updateNotificationCount_caps_witness :
  ∃ b', updateNotificationCount 120 (Some {| textContent := "7"; classes := ["d-none"%string] |})
        = Some b' ∧ textContent b' = "99+"%string ∧ visible b'.
Proof.
  destruct (updateNotificationCount_caps 120
              {| textContent := "7"; classes := ["d-none"%string] |})
    as (b' & E & Hbig & _).
  exists b'. split; [exact E | apply Hbig; lia].
Defined.

End Badge.

(** ** Table helpers: [filterTable] and [sortTable] *)

Module Tables.
Import Js Dom.

(** A [tr] of the table body: the text of each child cell, the text of the
    whole row and the inline [style.display]. *)
Record row := {
  cells : list jsstring;
  textContent : jsstring;
  display : string
}.

(** The search box: its value and what
    [closest('.table-container').querySelector('table')] leads to, the
    [tbody tr] rows of that table, or nothing when either lookup is
    [null]. *)
Record searchInput := {
  value : jsstring;
  closestTable : option (list row)
}.

(** The table around a clicked header: the [th] elements before and after
    the clicked one, the clicked one, its position among the children of
    its parent, and the [tbody tr] rows. *)
Record table := {
  thsBefore : list classList;
  header : classList;
  thsAfter : list classList;
  columnIndex : nat;
  rows : list row
}.

(** A row is shown unless its inline style hides it. *)
Definition visible (r : row) : Prop := display r ≠ "none"%string.

(** [th.classList.remove('sort-asc', 'sort-desc')] *)
Definition clearSort (cl : classList) : classList :=
  remove "sort-desc" (remove "sort-asc" cl).

(** [Array.prototype.sort] with a consistent comparator: the sorted
    permutation that keeps equal elements in their order, computed here by
    insertion from the right. *)
Section Sort.
Context {A : Type} (compareFn : A → A → Z).

Fixpoint insert (x : A) (l : list A) : list A :=
  match l with
  | [] => [x]
  | y :: l' => if compareFn x y <=? 0 then x :: l else y :: insert x l'
  end.

Fixpoint sort (l : list A) : list A :=
  match l with
  | [] => []
  | x :: l' => insert x (sort l')
  end.

End Sort.

Section WithLocale.

(** [String.prototype.toLowerCase] and
    [a.localeCompare(b, undefined, { numeric: true })] are the engine's. *)
Variable toLowerCase : jsstring → jsstring.
Variable localeCompare : jsstring → jsstring → Z.

(** [filterTable(searchInput)] *)
Definition filterTable (searchInput : searchInput) : completion (list row) :=
  let searchTerm := toLowerCase (value searchInput) in
  match closestTable searchInput with
  | None => Threw
  | Some rows =>
      Returned
        (map (λ row,
                let text := toLowerCase (textContent row) in
                {| cells := cells row;
                   textContent := textContent row;
                   display := if includes text searchTerm then "" else "none" |})
             rows)
  end.

(** [row.children[columnIndex].textContent.trim()], where the cell is
    there. *)
Definition cellValue (columnIndex : nat) (r : row) : jsstring :=
  trim (default [] (cells r !! columnIndex)).

Definition hasCell (columnIndex : nat) (r : row) : bool :=
  bool_decide (is_Some (cells r !! columnIndex)).

(** The comparator handed to [rows.sort]. *)
Definition rowCompare (isAsc : bool) (columnIndex : nat) (a b : row) : Z :=
  let aValue := cellValue columnIndex a in
  let bValue := cellValue columnIndex b in
  if negb isAsc then localeCompare aValue bValue
  else localeCompare bValue aValue.

(** [rows.sort(...)]: with fewer than two rows the comparator is never
    called; otherwise every row is compared at least once, and reading a
    cell that is not there throws. *)
Definition sortRows (isAsc : bool) (columnIndex : nat) (rows : list row)
  : completion (list row) :=
  if (length rows <? 2)%nat || forallb (hasCell columnIndex) rows
  then Returned (sort (rowCompare isAsc columnIndex) rows)
  else Threw.

(** [sortTable(header)]: the table as the call leaves it, and how the call
    ended. A throw happens inside [rows.sort], after the headers have been
    reset. *)
Definition sortTable (t : table) : table * completion unit :=
  let isAsc := contains "sort-asc" (header t) in
  let before := map clearSort (thsBefore t) in
  let after := map clearSort (thsAfter t) in
  let cleared := clearSort (header t) in
  match sortRows isAsc (columnIndex t) (rows t) with
  | Threw =>
      ({| thsBefore := before; header := cleared; thsAfter := after;
          columnIndex := columnIndex t; rows := rows t |}, Threw)
  | Returned sorted =>
      ({| thsBefore := before;
          header := toggle "sort-desc" isAsc
                      (toggle "sort-asc" (negb isAsc) cleared);
          thsAfter := after;
          columnIndex := columnIndex t;
          rows := sorted |}, Returned tt)
  end.

(** Rows in ascending, or descending, order of the column's trimmed text. *)
Definition inOrder (ascending : bool) (columnIndex : nat) (a b : row) : Prop :=
  if ascending
  then localeCompare (cellValue columnIndex a) (cellValue columnIndex b) ≤ 0
  else localeCompare (cellValue columnIndex b) (cellValue columnIndex a) ≤ 0.

Definition sortedBy (ascending : bool) (columnIndex : nat) (l : list row) : Prop :=
  StronglySorted (inOrder ascending columnIndex) l.

(** *** Facts about the sort *)

Section SortFacts.
Context {A : Type} (compareFn : A → A → Z).
Hypothesis compareFn_total : ∀ a b, compareFn a b ≤ 0 ∨ compareFn b a ≤ 0.
Hypothesis compareFn_trans :
  ∀ a b c, compareFn a b ≤ 0 → compareFn b c ≤ 0 → compareFn a c ≤ 0.

Lemma insert_Permutation x (l : list A) : Permutation (x :: l) (insert compareFn x l).
Proof using Type.
  induction l as [|y l IH]; simpl; [done |].
  destruct (compareFn x y <=? 0); [done |].
  rewrite Permutation_swap. by constructor.
Qed.

Lemma sort_Permutation (l : list A) : Permutation l (sort compareFn l).
Proof using Type.
  induction l as [|x l IH]; simpl; [done |].
  rewrite <- insert_Permutation. by constructor.
Qed.

Lemma insert_StronglySorted x (l : list A) :
  StronglySorted (λ a b, compareFn a b ≤ 0) l →
  StronglySorted (λ a b, compareFn a b ≤ 0) (insert compareFn x l).
Proof using compareFn_total compareFn_trans.
  induction 1 as [|y l Hl IH Hy]; simpl.
  - repeat constructor.
  - destruct (compareFn x y <=? 0) eqn:E.
    + apply Z.leb_le in E. constructor; [by constructor |].
      constructor; [done |].
      eapply Forall_impl; [exact Hy |]. intros z Hz. simpl in Hz. eauto.
    + apply Z.leb_gt in E. constructor; [done |].
      rewrite <- insert_Permutation. constructor; [| done].
      destruct (compareFn_total x y); lia.
Qed.

Lemma sort_StronglySorted (l : list A) :
  StronglySorted (λ a b, compareFn a b ≤ 0) (sort compareFn l).
Proof using compareFn_total compareFn_trans.
  induction l as [|x l IH]; simpl; [constructor |].
  by apply insert_StronglySorted.
Qed.

End SortFacts.

(** *** Filtering *)

Hypothesis toLowerCase_empty : toLowerCase [] = [].

(** C6. When the search box leads to a table, [filterTable] returns and
    leaves every body row in place with its text; a row is visible exactly
    when its lowercased text contains the lowercased search term, and with
    an empty search term every row is visible. *)
Theorem filterTable_substring (input : searchInput) (rs : list row) :
  closestTable input = Some rs →
  ∃ rs', filterTable input = Returned rs' ∧
    length rs' = length rs ∧
    (∀ i r', rs' !! i = Some r' →
       ∃ r, rs !! i = Some r ∧ textContent r' = textContent r ∧
         (visible r' ↔
          ∃ pre post, toLowerCase (textContent r)
                      = pre ++ toLowerCase (value input) ++ post)) ∧
    (value input = [] → Forall visible rs').
Proof using toLowerCase_empty.
  intros Htable. unfold filterTable. rewrite Htable.
  eexists. split; [reflexivity |]. split_and!.
  - by rewrite length_map.
  - intros i r' Hi. rewrite list_lookup_fmap in Hi.
    destruct (rs !! i) as [r|] eqn:Hr; [| done].
    injection Hi as <-. exists r. split_and!; [done | done |].
    unfold visible. simpl. rewrite <- includes_spec.
    destruct (includes _ _); split; done.
  - intros Hempty. rewrite Hempty, toLowerCase_empty.
    apply Forall_fmap, Forall_true. intros r. unfold visible. simpl.
    by rewrite includes_empty.
Qed.

(** *** Sorting *)

(** [localeCompare] is a consistent comparison. *)
Hypothesis localeCompare_flip :
  ∀ a b, Z.sgn (localeCompare b a) = - Z.sgn (localeCompare a b).
Hypothesis localeCompare_trans :
  ∀ a b c, localeCompare a b ≤ 0 → localeCompare b c ≤ 0 → localeCompare a c ≤ 0.

Lemma rowCompare_total isAsc col a b :
  rowCompare isAsc col a b ≤ 0 ∨ rowCompare isAsc col b a ≤ 0.
Proof using localeCompare_flip.
  unfold rowCompare.
  pose proof (localeCompare_flip (cellValue col a) (cellValue col b)).
  destruct isAsc; simpl; lia.
Qed.

Lemma rowCompare_trans isAsc col a b c :
  rowCompare isAsc col a b ≤ 0 → rowCompare isAsc col b c ≤ 0 →
  rowCompare isAsc col a c ≤ 0.
Proof using localeCompare_trans.
  unfold rowCompare. destruct isAsc; simpl; eauto.
Qed.

Lemma sortRows_sorted isAsc col rs :
  sortedBy (negb isAsc) col (sort (rowCompare isAsc col) rs).
Proof using localeCompare_flip localeCompare_trans.
  unfold sortedBy.
  assert (H : StronglySorted (λ a b, rowCompare isAsc col a b ≤ 0)
                (sort (rowCompare isAsc col) rs)).
  { apply sort_StronglySorted; [apply rowCompare_total | apply rowCompare_trans]. }
  induction H as [|r l Hl IH Hr]; constructor; [done |].
  eapply Forall_impl; [exact Hr |].
  intros b. unfold rowCompare, inOrder. by destruct isAsc.
Qed.

Lemma sortRows_returns isAsc col rs :
  Forall (λ r, is_Some (cells r !! col)) rs →
  sortRows isAsc col rs = Returned (sort (rowCompare isAsc col) rs).
Proof using Type.
  intros H. unfold sortRows.
  replace (forallb (hasCell col) rs) with true; [by rewrite orb_true_r |].
  symmetry. apply forallb_forall. intros r Hr.
  unfold hasCell. apply bool_decide_eq_true.
  rewrite Forall_forall in H. apply H. by apply list_elem_of_In.
Qed.

Lemma header_after_toggle isAsc cl :
  let cl' := toggle "sort-desc" isAsc (toggle "sort-asc" (negb isAsc) (clearSort cl)) in
  contains "sort-asc" cl' = negb isAsc ∧ contains "sort-desc" cl' = isAsc.
Proof using Type.
  assert (Ha : "sort-asc"%string ∉ clearSort cl).
  { unfold clearSort. rewrite !elem_of_remove. tauto. }
  assert (Hd : "sort-desc"%string ∉ clearSort cl).
  { unfold clearSort. rewrite !elem_of_remove. tauto. }
  destruct isAsc; simpl; unfold toggle; split.
  - apply contains_false. rewrite elem_of_add, elem_of_remove. intros [|]; [done | tauto].
  - apply contains_true, add_in.
  - apply contains_true. rewrite elem_of_remove, elem_of_add. split; [done | by left].
  - apply contains_false. apply remove_not_in.
Qed.

Lemma sortTable_returns (t : table) :
  Forall (λ r, is_Some (cells r !! columnIndex t)) (rows t) →
  ∃ t', sortTable t = (t', Returned tt) ∧
    columnIndex t' = columnIndex t ∧
    rows t' = sort (rowCompare (contains "sort-asc" (header t)) (columnIndex t)) (rows t) ∧
    contains "sort-asc" (header t') = negb (contains "sort-asc" (header t)) ∧
    contains "sort-desc" (header t') = contains "sort-asc" (header t).
Proof using Type.
  intros Hcells. unfold sortTable. rewrite sortRows_returns by done.
  eexists. split; [reflexivity |]. simpl. split_and!; try done.
  all: apply header_after_toggle.
Qed.

(** One call: the rows are permuted into the order the header asked for,
    and the header then asks for the other one. *)
Lemma sortTable_sorts (t : table) :
  Forall (λ r, is_Some (cells r !! columnIndex t)) (rows t) →
  ∃ t', sortTable t = (t', Returned tt) ∧
    columnIndex t' = columnIndex t ∧
    rows t ≡ₚ rows t' ∧
    Forall (λ r, is_Some (cells r !! columnIndex t')) (rows t') ∧
    sortedBy (negb (contains "sort-asc" (header t))) (columnIndex t) (rows t') ∧
    contains "sort-asc" (header t') = negb (contains "sort-asc" (header t)) ∧
    contains "sort-desc" (header t') = contains "sort-asc" (header t).
Proof using localeCompare_flip localeCompare_trans.
  intros Hcells.
  destruct (sortTable_returns t Hcells) as (t' & E & Hcol & Hrows & Hasc & Hdesc).
  assert (Hperm : rows t ≡ₚ rows t').
  { rewrite Hrows. apply sort_Permutation. }
  exists t'. split_and!; try done.
  - rewrite Hcol, <- Hperm. exact Hcells.
  - rewrite Hrows. apply sortRows_sorted.
Qed.


Lemma StronglySorted_rev_flip {A} (R : A → A → Prop) (l : list A) :
  StronglySorted R l → StronglySorted (λ a b, R b a) (rev l).
Proof using Type.
  induction 1 as [|x l Hl IH Hx]; simpl; [constructor |].
  apply StronglySorted_app. split_and!; [| done | repeat constructor].
  intros a b Ha Hb. apply list_elem_of_singleton in Hb as ->.
  rewrite Forall_forall in Hx. apply Hx.
  by rewrite (Permutation_rev l).
Qed.

(** When no two rows tie in the clicked column, the second of two
    consecutive calls leaves the rows in exactly the reverse of the order
    the first call produced. Rows that tie keep their relative order in
    both calls (the sort is stable), so the reversal is of the keys only. *)
Lemma sortTable_twice_reverses (t t1 t2 : table) :
  Forall (λ r, is_Some (cells r !! columnIndex t)) (rows t) →
  (∀ a b, a ∈ rows t → b ∈ rows t →
     localeCompare (cellValue (columnIndex t) a) (cellValue (columnIndex t) b) = 0 →
     a = b) →
  sortTable t = (t1, Returned tt) →
  sortTable t1 = (t2, Returned tt) →
  rows t2 = rev (rows t1).
Proof using localeCompare_flip localeCompare_trans.
  intros Hcells Hties E1 E2.
  destruct (sortTable_sorts t Hcells)
    as (t1' & E1' & Hcol1 & Hp1 & Hcells1 & Hs1 & Hasc1 & _).
  rewrite E1 in E1'. injection E1' as <-.
  destruct (sortTable_sorts t1 Hcells1) as (t2' & E2' & _ & Hp2 & _ & Hs2 & _).
  rewrite E2 in E2'. injection E2' as <-.
  rewrite Hcol1, Hasc1 in Hs2.
  unfold sortedBy in *.
  apply (StronglySorted_unique_strong
           (inOrder (negb (negb (contains "sort-asc" (header t))))
              (columnIndex t))).
  - intros a b Ha Hb Hab Hba. apply Hties.
    + by rewrite Hp1, Hp2.
    + by rewrite Hp1, (Permutation_rev (rows t1)).
    + pose proof (localeCompare_flip (cellValue (columnIndex t) a)
                    (cellValue (columnIndex t) b)) as Hflip.
      unfold inOrder in Hab, Hba.
      destruct (negb (negb _)); lia.
  - exact Hs2.
  - apply StronglySorted_rev_flip in Hs1.
    induction Hs1 as [|r l Hl IH Hr]; constructor; [done |].
    eapply Forall_impl; [exact Hr |]. intros b. unfold inOrder.
    by destruct (contains "sort-asc" (header t)).
  - rewrite <- Hp2. symmetry. rewrite <- (Permutation_rev (rows t1)). done.
Qed.

End WithLocale.

(** *** The table helpers on a concrete engine

    For running the model: lowercasing of the ASCII letters, and a
    comparison by the first code unit. *)

Definition toLowerAscii (s : jsstring) : jsstring :=
  map (λ c, if (65 <=? c) && (c <=? 90) then c + 32 else c)%N s.

Definition compareFirstUnit (a b : jsstring) : Z :=
  Z.of_N (hd 0%N a) - Z.of_N (hd 0%N b).

Definition sampleRow (name amount : string) : row :=
  {| cells := [lit name; lit amount];
     textContent := lit name ++ lit amount;
     display := "" |}.

Definition sampleRows : list row :=
  [sampleRow "Ivanov" " 3 "; sampleRow "Petrov" "1"; sampleRow "Sidorov" "2"].

Definition sampleTable : table :=
  {| thsBefore := [["sortable"%string]];
     header := [];
     thsAfter := [];
     columnIndex := 1;
     rows := sampleRows |}.

Example filterTable_sample :
  filterTable toLowerAscii {| value := lit "ROV"; closestTable := Some sampleRows |}
  = Returned [ {| cells := [lit "Ivanov"; lit " 3 "];
                  textContent := lit "Ivanov 3 "; display := "none" |};
               sampleRow "Petrov" "1"; sampleRow "Sidorov" "2" ].
Proof. reflexivity. Qed.

Example filterTable_without_table :
  filterTable toLowerAscii {| value := lit "x"; closestTable := None |} = Threw.
Proof. reflexivity. Qed.

Example sortTable_sample_first :
  map cells (rows (sortTable compareFirstUnit sampleTable).1)
  = [[lit "Petrov"; lit "1"]; [lit "Sidorov"; lit "2"]; [lit "Ivanov"; lit " 3 "]]
  ∧ header (sortTable compareFirstUnit sampleTable).1 = ["sort-asc"%string].
Proof. split; reflexivity. Qed.

Example sortTable_sample_second :
  map cells (rows (sortTable compareFirstUnit (sortTable compareFirstUnit sampleTable).1).1)
  = [[lit "Ivanov"; lit " 3 "]; [lit "Sidorov"; lit "2"]; [lit "Petrov"; lit "1"]]
  ∧ header (sortTable compareFirstUnit (sortTable compareFirstUnit sampleTable).1).1
    = ["sort-desc"%string].
Proof. split; reflexivity. Qed.

(** Rows that tie keep their order in both directions. *)
Example sortTable_ties_keep_order :
  let t := {| thsBefore := []; header := []; thsAfter := []; columnIndex := 1;
              rows := [sampleRow "Ivanov" "1"; sampleRow "Petrov" "1"] |} in
  rows (sortTable compareFirstUnit t).1 = rows t ∧
  rows (sortTable compareFirstUnit (sortTable compareFirstUnit t).1).1 = rows t.
Proof. split; reflexivity. Qed.

(** A row without the clicked column makes the comparator throw. *)
Example sortTable_missing_cell :
  sortTable compareFirstUnit
    {| thsBefore := []; header := ["sort-asc"%string]; thsAfter := []; columnIndex := 1;
       rows := [sampleRow "Ivanov" "1"; {| cells := [lit "Petrov"];
                                           textContent := lit "Petrov"; display := "" |}] |}
  = ({| thsBefore := []; header := []; thsAfter := []; columnIndex := 1;
        rows := [sampleRow "Ivanov" "1"; {| cells := [lit "Petrov"];
                                            textContent := lit "Petrov"; display := "" |}] |},
     Threw).
Proof. reflexivity. Qed.




Lemma filterTable_substring_witness :
  ∃ rs', filterTable toLowerAscii {| value := lit "ROV"; closestTable := Some sampleRows |}
         = Returned rs' ∧ length rs' = 3%nat.
Proof.
  destruct (filterTable_substring toLowerAscii eq_refl
              {| value := lit "ROV"; closestTable := Some sampleRows |}
              sampleRows eq_refl) as (rs' & E & Hlen & _).
  exists rs'. split; [exact E | exact Hlen].
Defined.



End Tables.

(** ** Regular expressions, as far as [isValidEmail] needs them *)

Module RegExp.
Import Js.

(** Patterns over code units. [Class p] is a character class, [Empty]
    matches nothing (it only arises from derivatives). *)
Inductive regex : Type :=
| Empty
| Eps
| Class (p : code_unit → bool)
| Cat (r1 r2 : regex)
| Alt (r1 r2 : regex)
| Star (r : regex).

(** [r+] *)
Definition Plus (r : regex) : regex := Cat r (Star r).

(** A single literal character. *)
Definition Char (c : code_unit) : regex := Class (N.eqb c).

(** The strings a pattern matches from its first to its last code unit. *)
Inductive Matches : regex → jsstring → Prop :=
| MEps : Matches Eps []
| MClass p c : p c = true → Matches (Class p) [c]
| MCat r1 r2 s1 s2 : Matches r1 s1 → Matches r2 s2 → Matches (Cat r1 r2) (s1 ++ s2)
| MAltL r1 r2 s : Matches r1 s → Matches (Alt r1 r2) s
| MAltR r1 r2 s : Matches r2 s → Matches (Alt r1 r2) s
| MStarNil r : Matches (Star r) []
| MStarCons r s1 s2 : Matches r s1 → Matches (Star r) s2 → Matches (Star r) (s1 ++ s2).

Fixpoint nullable (r : regex) : bool :=
  match r with
  | Empty => false
  | Eps => true
  | Class _ => false
  | Cat r1 r2 => nullable r1 && nullable r2
  | Alt r1 r2 => nullable r1 || nullable r2
  | Star _ => true
  end.

(** The derivative of a pattern by a code unit. *)
Fixpoint deriv (c : code_unit) (r : regex) : regex :=
  match r with
  | Empty => Empty
  | Eps => Empty
  | Class p => if p c then Eps else Empty
  | Cat r1 r2 =>
      Alt (Cat (deriv c r1) r2) (if nullable r1 then deriv c r2 else Empty)
  | Alt r1 r2 => Alt (deriv c r1) (deriv c r2)
  | Star r' => Cat (deriv c r') (Star r')
  end.

(** [/^r$/.test(s)]: the pattern, anchored at both ends and without flags,
    against the whole string. *)
Fixpoint test (r : regex) (s : jsstring) : bool :=
  match s with
  | [] => nullable r
  | c :: s' => test (deriv c r) s'
  end.

Lemma Matches_inv_Cat r1 r2 s :
  Matches (Cat r1 r2) s ↔ ∃ s1 s2, s = s1 ++ s2 ∧ Matches r1 s1 ∧ Matches r2 s2.
Proof.
  split.
  - inversion 1; subst. eauto.
  - intros (s1 & s2 & -> & H1 & H2). by constructor.
Qed.

Lemma Matches_inv_Alt r1 r2 s :
  Matches (Alt r1 r2) s ↔ Matches r1 s ∨ Matches r2 s.
Proof.
  split.
  - inversion 1; subst; tauto.
  - intros [H|H]; [by apply MAltL | by apply MAltR].
Qed.

Lemma nullable_spec r : nullable r = true ↔ Matches r [].
Proof.
  induction r as [| |p|r1 IH1 r2 IH2|r1 IH1 r2 IH2|r IH]; simpl.
  - split; [done | inversion 1].
  - split; [constructor | done].
  - split; [done | inversion 1].
  - rewrite andb_true_iff, IH1, IH2. split.
    + intros [H1 H2]. apply (MCat _ _ [] [] H1 H2).
    + intros (s1 & s2 & E & H1 & H2)%Matches_inv_Cat.
      symmetry in E. apply app_eq_nil in E as [-> ->]. done.
  - rewrite orb_true_iff, IH1, IH2. split.
    + intros [H|H]; [by apply MAltL | by apply MAltR].
    + inversion 1; subst; tauto.
  - split; [constructor | done].
Qed.

(** A non-empty match of [r*] starts with a non-empty match of [r]. *)
Lemma Matches_Star_cons r c s :
  Matches (Star r) (c :: s) →
  ∃ s1 s2, s = s1 ++ s2 ∧ Matches r (c :: s1) ∧ Matches (Star r) s2.
Proof.
  intros H. remember (Star r) as r' eqn:Er. remember (c :: s) as cs eqn:Es.
  revert s Es.
  induction H as [| | | | | |r0 s1 s2 H1 _ H2 IH2]; try discriminate; intros s Es.
  injection Er as ->.
  destruct s1 as [|d s1]; simpl in Es.
  - apply IH2; done.
  - injection Es as -> <-. eauto.
Qed.

Lemma deriv_spec c r s : Matches (deriv c r) s ↔ Matches r (c :: s).
Proof.
  revert s. induction r as [| |p|r1 IH1 r2 IH2|r1 IH1 r2 IH2|r IH]; intros s; simpl.
  - split; inversion 1.
  - split; inversion 1.
  - destruct (p c) eqn:E; split; inversion 1; subst.
    + by constructor.
    + constructor.
    + congruence.
  - rewrite Matches_inv_Alt, !Matches_inv_Cat. split.
    + intros [(s1 & s2 & -> & H1 & H2) | H].
      * exists (c :: s1), s2. by rewrite <- IH1.
      * destruct (nullable r1) eqn:N; [| inversion H].
        exists [], (c :: s). rewrite <- IH2, <- nullable_spec. done.
    + intros (s1 & s2 & E & H1 & H2). destruct s1 as [|d s1]; simpl in E.
      * right. subst s2. apply nullable_spec in H1. rewrite H1. by apply IH2.
      * left. injection E as <- ->. exists s1, s2. by rewrite IH1.
  - rewrite !Matches_inv_Alt, IH1, IH2. done.
  - rewrite Matches_inv_Cat. split.
    + intros (s1 & s2 & -> & H1 & H2). apply IH in H1.
      apply (MStarCons r (c :: s1) s2 H1 H2).
    + intros H. apply Matches_Star_cons in H as (s1 & s2 & -> & H1 & H2).
      exists s1, s2. by rewrite IH.
Qed.

Lemma test_spec r s : test r s = true ↔ Matches r s.
Proof.
  revert r. induction s as [|c s IH]; intros r; simpl.
  - apply nullable_spec.
  - by rewrite IH, deriv_spec.
Qed.




End RegExp.

(** ** Form validation: [validateForm], [isValidEmail], [showFieldError] *)

Module Forms.
Import Js Dom RegExp.

Inductive tagName := INPUT | SELECT | TEXTAREA | OTHER.

(** A form control, as far as the validation looks at it: tag, [type]
    attribute, [required] attribute, current value, class list, and which
    element is its parent. *)
Record field := {
  tag : tagName;
  type : string;
  required : bool;
  value : jsstring;
  classes : classList;
  parentElement : nat
}.

Definition withClasses (f : field) (cl : classList) : field :=
  {| tag := tag f; type := type f; required := required f; value := value f;
     classes := cl; parentElement := parentElement f |}.

(** What the validation does to the tree around the fields:
    [parent.querySelector('.invalid-feedback')] removed if there is one, and
    [showFieldError] appending a [div.invalid-feedback] with a message. *)
Inductive domOp :=
| RemoveFeedback (parent : nat)
| AppendFeedback (parent : nat) (message : string).

Definition msgRequired : string := "Это поле обязательно для заполнения".
Definition msgEmail : string := "Введите корректный email адрес".
Definition msgPassword : string := "Пароль должен содержать не менее 6 символов".




(** In an HTML document an attribute selector compares the value of
    [type] without regard to the case of the ASCII letters. *)
Definition asciiLowerChar (c : ascii) : ascii :=
  let n := N_of_ascii c in
  if (65 <=? n)%N && (n <=? 90)%N then ascii_of_N (n + 32) else c.

Fixpoint asciiLower (s : string) : string :=
  match s with
  | EmptyString => EmptyString
  | String c rest => String (asciiLowerChar c) (asciiLower rest)
  end.

(** The selectors [input[required], select[required], textarea[required]],
    [input[type="email"]] and [input[type="password"]]. *)
Definition matchesRequired (f : field) : bool :=
  match tag f with
  | INPUT | SELECT | TEXTAREA => required f
  | OTHER => false
  end.

Definition matchesEmail (f : field) : bool :=
  match tag f with
  | INPUT => bool_decide (asciiLower (type f) = "email"%string)
  | _ => false
  end.

Definition matchesPassword (f : field) : bool :=
  match tag f with
  | INPUT => bool_decide (asciiLower (type f) = "password"%string)
  | _ => false
  end.

(** The code units of [@] and of the full stop. *)
Definition atSign : code_unit := 64%N.
Definition dot : code_unit := 46%N.

(** [[^\s@]] *)
Definition notSpaceNorAt (c : code_unit) : bool :=
  negb (isWhiteSpace c || (c =? atSign)%N).

(** [/^[^\s@]+@[^\s@]+\.[^\s@]+$/] *)
Definition re : regex :=
  Cat (Plus (Class notSpaceNorAt))
    (Cat (Char atSign)
       (Cat (Plus (Class notSpaceNorAt))
          (Cat (Char dot)
             (Plus (Class notSpaceNorAt))))).

(** [isValidEmail(email)] *)
Definition isValidEmail (email : jsstring) : bool := test re email.

(** A non-empty string is truthy. *)
Definition truthy (s : jsstring) : bool :=
  match s with [] => false | _ :: _ => true end.

(** The body of each of the three [forEach] callbacks: the field as it is
    left, the tree operations, and whether [isValid] survives. *)
Definition checkRequired (f : field) : field * list domOp * bool :=
  let f1 := withClasses f (remove "is-invalid" (classes f)) in
  if negb (truthy (trim (value f))) then
    (withClasses f1 (add "is-invalid" (classes f1)),
     [RemoveFeedback (parentElement f); AppendFeedback (parentElement f) msgRequired],
     false)
  else (f1, [RemoveFeedback (parentElement f)], true).

Definition checkEmail (f : field) : field * list domOp * bool :=
  if truthy (value f) && negb (isValidEmail (value f)) then
    (withClasses f (add "is-invalid" (classes f)),
     [AppendFeedback (parentElement f) msgEmail], false)
  else (f, [], true).

Definition checkPassword (f : field) : field * list domOp * bool :=
  if truthy (value f) && (length (value f) <? 6)%nat then
    (withClasses f (add "is-invalid" (classes f)),
     [AppendFeedback (parentElement f) msgPassword], false)
  else (f, [], true).

(** [form.querySelectorAll(selector).forEach(body)] over the elements of
    the form in document order. *)
Fixpoint forEach (selector : field → bool)
    (body : field → field * list domOp * bool) (elements : list field)
  : list field * list domOp * bool :=
  match elements with
  | [] => ([], [], true)
  | f :: rest =>
      if selector f then
        let '(f', ops, ok) := body f in
        let '(rest', ops', ok') := forEach selector body rest in
        (f' :: rest', ops ++ ops', ok && ok')
      else
        let '(rest', ops', ok') := forEach selector body rest in
        (f :: rest', ops', ok')
  end.

(** [validateForm(form)]: the return value, the elements of the form
    afterwards and the tree operations performed. *)
Definition validateForm (form : list field) : bool * list field * list domOp :=
  let '(form1, ops1, ok1) := forEach matchesRequired checkRequired form in
  let '(form2, ops2, ok2) := forEach matchesEmail checkEmail form1 in
  let '(form3, ops3, ok3) := forEach matchesPassword checkPassword form2 in
  (ok1 && ok2 && ok3, form3, ops1 ++ ops2 ++ ops3).

(** The three ways a field can fail. *)
Definition missingRequired (f : field) : Prop :=
  matchesRequired f = true ∧ trim (value f) = [].

Definition badEmail (f : field) : Prop :=
  matchesEmail f = true ∧ value f ≠ [] ∧ ¬ Matches re (value f).

Definition shortPassword (f : field) : Prop :=
  matchesPassword f = true ∧ value f ≠ [] ∧ (length (value f) < 6)%nat.

Definition violates (f : field) : Prop :=
  missingRequired f ∨ badEmail f ∨ shortPassword f.

Definition textInput (ty : string) (req : bool) (v : string) (parent : nat) : field :=
  {| tag := INPUT; type := ty; required := req; value := lit v;
     classes := ["form-control"%string]; parentElement := parent |}.

Example isValidEmail_samples :
  isValidEmail (lit "ivan@bank.ru") = true ∧
  isValidEmail (lit "ivan@bank") = false ∧
  isValidEmail (lit "ivan@@bank.ru") = false ∧
  isValidEmail (lit "ivan petrov@bank.ru") = false ∧
  isValidEmail (lit "ivan@.ru") = false ∧
  isValidEmail (lit "a@b.c.d") = true.
Proof. repeat split; reflexivity. Qed.

Example validateForm_sample :
  validateForm [textInput "text" true "  " 0; textInput "email" true "ivan@bank" 1;
                textInput "password" false "12345" 2; textInput "text" false "" 3]
  = (false,
     [ withClasses (textInput "text" true "  " 0) ["form-control"; "is-invalid"]%string;
       withClasses (textInput "email" true "ivan@bank" 1) ["form-control"; "is-invalid"]%string;
       withClasses (textInput "password" false "12345" 2) ["form-control"; "is-invalid"]%string;
       textInput "text" false "" 3 ],
     [ RemoveFeedback 0; AppendFeedback 0 msgRequired; RemoveFeedback 1;
       AppendFeedback 1 msgEmail; AppendFeedback 2 msgPassword ]).
Proof. reflexivity. Qed.

(** *** The email pattern *)

Lemma isValidEmail_Matches email : isValidEmail email = true ↔ Matches re email.
Proof. apply test_spec. Qed.




(** *** The three passes *)

(** One element under one pass. *)
Definition step (selector : field → bool)
    (body : field → field * list domOp * bool) (f : field)
  : field * list domOp * bool :=
  if selector f then body f else (f, [], true).

Lemma forEach_unfold selector body elements :
  forEach selector body elements
  = (map (λ f, (step selector body f).1.1) elements,
     concat (map (λ f, (step selector body f).1.2) elements),
     forallb (λ f, (step selector body f).2) elements).
Proof.
  induction elements as [|f rest IH]; simpl; [done |].
  rewrite IH. unfold step. destruct (selector f); [| done].
  by destruct (body f) as [[f' ops] ok].
Qed.

(** The passes change nothing but the class list. *)
Definition sameControl (f f' : field) : Prop :=
  tag f' = tag f ∧ type f' = type f ∧ required f' = required f ∧
  value f' = value f ∧ parentElement f' = parentElement f.

Lemma sameControl_refl f : sameControl f f.
Proof. by repeat split. Qed.

Lemma sameControl_trans f g h : sameControl f g → sameControl g h → sameControl f h.
Proof. unfold sameControl. intros (?&?&?&?&?) (?&?&?&?&?). split_and!; congruence. Qed.

Lemma step_required_same f : sameControl f (step matchesRequired checkRequired f).1.1.
Proof.
  unfold step, checkRequired. destruct (matchesRequired f); [| apply sameControl_refl].
  destruct (negb _); by repeat split.
Qed.

Lemma step_email_same f : sameControl f (step matchesEmail checkEmail f).1.1.
Proof.
  unfold step, checkEmail. destruct (matchesEmail f); [| apply sameControl_refl].
  destruct (_ && _); by repeat split.
Qed.

Lemma step_password_same f : sameControl f (step matchesPassword checkPassword f).1.1.
Proof.
  unfold step, checkPassword. destruct (matchesPassword f); [| apply sameControl_refl].
  destruct (_ && _); by repeat split.
Qed.

Lemma sameControl_selectors f f' :
  sameControl f f' →
  matchesRequired f' = matchesRequired f ∧ matchesEmail f' = matchesEmail f ∧
  matchesPassword f' = matchesPassword f.
Proof.
  intros (Ht & Hty & Hr & _ & _).
  unfold matchesRequired, matchesEmail, matchesPassword. by rewrite Ht, Hty, Hr.
Qed.

Lemma truthy_true s : truthy s = true ↔ s ≠ [].
Proof. by destruct s. Qed.

Lemma truthy_false s : truthy s = false ↔ s = [].
Proof. by destruct s. Qed.

Lemma step_required_ok f :
  (step matchesRequired checkRequired f).2 = true ↔
  (matchesRequired f = true → trim (value f) ≠ []).
Proof.
  unfold step, checkRequired. destruct (matchesRequired f); [| done].
  destruct (truthy (trim (value f))) eqn:E; simpl.
  - apply truthy_true in E. tauto.
  - apply truthy_false in E. split; [done | tauto].
Qed.

Lemma step_email_ok f :
  (step matchesEmail checkEmail f).2 = true ↔
  (matchesEmail f = true → value f ≠ [] → isValidEmail (value f) = true).
Proof.
  unfold step, checkEmail. destruct (matchesEmail f); [| done].
  destruct (truthy (value f)) eqn:E; simpl.
  - apply truthy_true in E. destruct (isValidEmail (value f)); simpl; [done |].
    split; [done | intros H; by apply H].
  - apply truthy_false in E. split; [done | done].
Qed.

Lemma step_password_ok f :
  (step matchesPassword checkPassword f).2 = true ↔
  (matchesPassword f = true → value f ≠ [] → (6 ≤ length (value f))%nat).
Proof.
  unfold step, checkPassword. destruct (matchesPassword f); [| done].
  destruct (truthy (value f)) eqn:E; simpl.
  - apply truthy_true in E. destruct (length (value f) <? 6)%nat eqn:L; simpl.
    + apply Nat.ltb_lt in L. split; [done | intros H; specialize (H eq_refl E); lia].
    + apply Nat.ltb_ge in L. done.
  - apply truthy_false in E. split; [done | done].
Qed.







Lemma forallb_elem_of {A} (p : A → bool) (l : list A) :
  forallb p l = true ↔ ∀ a, a ∈ l → p a = true.
Proof.
  rewrite forallb_forall. split; intros H a Ha; apply H; by apply list_elem_of_In.
Qed.

Lemma validateForm_unfold form :
  let g1 := λ f, (step matchesRequired checkRequired f).1.1 in
  let g2 := λ f, (step matchesEmail checkEmail f).1.1 in
  let g3 := λ f, (step matchesPassword checkPassword f).1.1 in
  validateForm form
  = (forallb (λ f, (step matchesRequired checkRequired f).2) form
     && forallb (λ f, (step matchesEmail checkEmail f).2) (map g1 form)
     && forallb (λ f, (step matchesPassword checkPassword f).2) (map g2 (map g1 form)),
     map g3 (map g2 (map g1 form)),
     concat (map (λ f, (step matchesRequired checkRequired f).1.2) form)
     ++ concat (map (λ f, (step matchesEmail checkEmail f).1.2) (map g1 form))
     ++ concat (map (λ f, (step matchesPassword checkPassword f).1.2) (map g2 (map g1 form)))).
Proof.
  intros g1 g2 g3. unfold validateForm.
  rewrite forEach_unfold. cbv beta iota.
  rewrite forEach_unfold. cbv beta iota.
  rewrite forEach_unfold. reflexivity.
Qed.

Lemma validateForm_result form ok form' ops :
  validateForm form = (ok, form', ops) →
  (ok = true ↔
     (∀ f, f ∈ form → matchesRequired f = true → trim (value f) ≠ []) ∧
     (∀ f, f ∈ form → matchesEmail f = true → value f ≠ [] →
           isValidEmail (value f) = true) ∧
     (∀ f, f ∈ form → matchesPassword f = true → value f ≠ [] →
           (6 ≤ length (value f))%nat)).
Proof.
  rewrite validateForm_unfold. intros [= <- _ _].
  rewrite !andb_true_iff, !forallb_elem_of.
  split.
  - intros [[H1 H2] H3]. split_and!; intros f Hf.
    + by apply step_required_ok, H1.
    + pose proof (step_required_same f) as Hs.
      destruct (sameControl_selectors _ _ Hs) as (_ & Hsel & _).
      destruct Hs as (_ & _ & _ & Hv & _).
      specialize (H2 _ (list_elem_of_fmap_2 _ _ _ Hf)).
      pose proof (proj1 (step_email_ok _) H2) as H2'. cbv beta in H2'. by rewrite Hsel, Hv in H2'.
    + pose proof (sameControl_trans _ _ _ (step_required_same f)
                    (step_email_same _)) as Hs.
      destruct (sameControl_selectors _ _ Hs) as (_ & _ & Hsel).
      destruct Hs as (_ & _ & _ & Hv & _).
      specialize (H3 _ (list_elem_of_fmap_2 _ _ _ (list_elem_of_fmap_2 _ _ _ Hf))).
      pose proof (proj1 (step_password_ok _) H3) as H3'. cbv beta in H3'. by rewrite Hsel, Hv in H3'.
  - intros (H1 & H2 & H3). split_and!.
    + intros f Hf. apply step_required_ok. by apply H1.
    + intros f1 (f & -> & Hf)%list_elem_of_fmap.
      pose proof (step_required_same f) as Hs.
      destruct (sameControl_selectors _ _ Hs) as (_ & Hsel & _).
      destruct Hs as (_ & _ & _ & Hv & _).
      apply step_email_ok. rewrite Hsel, Hv. by apply H2.
    + intros f2 (f1 & -> & (f & -> & Hf)%list_elem_of_fmap)%list_elem_of_fmap.
      pose proof (sameControl_trans _ _ _ (step_required_same f)
                    (step_email_same _)) as Hs.
      destruct (sameControl_selectors _ _ Hs) as (_ & _ & Hsel).
      destruct Hs as (_ & _ & _ & Hv & _).
      apply step_password_ok. rewrite Hsel, Hv. by apply H3.
Qed.


(** *** The error messages on the page *)

Example matchesEmail_any_case :
  matchesEmail (textInput "EMAIL" false "ivan@bank" 0) = true ∧
  matchesPassword (textInput "PassWord" false "12345" 0) = true ∧
  matchesEmail (textInput "e-mail" false "ivan@bank" 0) = false.
Proof. repeat split; reflexivity. Qed.














End Forms.

(** ** [ReportSystem]: the fetch-based loaders *)

Module Reports.
Import Js Dom.

Inductive alertKind := Danger | Success.

(** The page as the loaders see it: the children that [showError] and
    [showSuccess] have prepended to [main] (if the page has a [main]), the
    number of [.loading-overlay] elements, the class list of
    [#analytics-dashboard] (if present), whether the CSRF input and the
    report form are there, and what has been requested, rendered and
    written to the console so far. [rendered] lists the renderers that ran
    to their end, [interrupted] those that threw after they had begun to
    change the page. *)
Record page := {
  main : option (list (alertKind * string));
  overlays : nat;
  dashboard : option classList;
  csrfField : bool;
  reportForm : bool;
  requests : list string;
  rendered : list string;
  console : list string;
  interrupted : list string
}.

(** What the network and the data do: whether [fetch] resolves, whether
    [response.json()] resolves, whether rendering the data goes through,
    and, when it does not, whether the renderer has changed the page
    before it throws. *)
Record env := {
  fetchResolves : bool;
  jsonParses : bool;
  renderSucceeds : bool;
  leavesPart : bool
}.

(** Script that reads and writes the page and may throw. *)
Definition M := page → page * completion unit.

Definition ok (p : page) : page * completion unit := (p, Returned tt).

(** Statements in sequence: the first throw ends the block. *)
Fixpoint block (stmts : list M) : M :=
  λ p,
    match stmts with
    | [] => ok p
    | stmt :: rest =>
        match stmt p with
        | (p', Returned _) => block rest p'
        | (p', Threw) => (p', Threw)
        end
    end.

(** [try { body } catch (error) { handler }] *)
Definition tryCatch (body handler : M) : M :=
  λ p,
    match body p with
    | (p', Threw) => handler p'
    | done => done
    end.

Definition setMain (p : page) (m : option (list (alertKind * string))) : page :=
  {| main := m; overlays := overlays p; dashboard := dashboard p;
     csrfField := csrfField p; reportForm := reportForm p;
     requests := requests p; rendered := rendered p; console := console p;
     interrupted := interrupted p |}.

Definition setOverlays (p : page) (n : nat) : page :=
  {| main := main p; overlays := n; dashboard := dashboard p;
     csrfField := csrfField p; reportForm := reportForm p;
     requests := requests p; rendered := rendered p; console := console p;
     interrupted := interrupted p |}.

Definition setDashboard (p : page) (d : option classList) : page :=
  {| main := main p; overlays := overlays p; dashboard := d;
     csrfField := csrfField p; reportForm := reportForm p;
     requests := requests p; rendered := rendered p; console := console p;
     interrupted := interrupted p |}.

Definition addRequest (p : page) (url : string) : page :=
  {| main := main p; overlays := overlays p; dashboard := dashboard p;
     csrfField := csrfField p; reportForm := reportForm p;
     requests := requests p ++ [url]; rendered := rendered p; console := console p;
     interrupted := interrupted p |}.

Definition addRendered (p : page) (what : string) : page :=
  {| main := main p; overlays := overlays p; dashboard := dashboard p;
     csrfField := csrfField p; reportForm := reportForm p;
     requests := requests p; rendered := rendered p ++ [what]; console := console p;
     interrupted := interrupted p |}.

Definition addConsole (p : page) (line : string) : page :=
  {| main := main p; overlays := overlays p; dashboard := dashboard p;
     csrfField := csrfField p; reportForm := reportForm p;
     requests := requests p; rendered := rendered p; console := console p ++ [line];
     interrupted := interrupted p |}.

Definition addInterrupted (p : page) (what : string) : page :=
  {| main := main p; overlays := overlays p; dashboard := dashboard p;
     csrfField := csrfField p; reportForm := reportForm p;
     requests := requests p; rendered := rendered p; console := console p;
     interrupted := interrupted p ++ [what] |}.

(** [showLoading(message)] appends one overlay to the body. *)
Definition showLoading (message : string) : M :=
  λ p, ok (setOverlays p (S (overlays p))).

(** [hideLoading()] removes the first overlay, if there is one. *)
Definition hideLoading : M :=
  λ p, ok (setOverlays p (Nat.pred (overlays p))).

(** [showError(message)]: [document.querySelector('main').prepend(alert)]
    throws when the page has no [main]. [showSuccess] likewise. *)
Definition showError (message : string) : M :=
  λ p,
    match main p with
    | Some children => ok (setMain p (Some ((Danger, message) :: children)))
    | None => (p, Threw)
    end.

Definition showSuccess (message : string) : M :=
  λ p,
    match main p with
    | Some children => ok (setMain p (Some ((Success, message) :: children)))
    | None => (p, Threw)
    end.

Definition showDashboardLoading : M :=
  λ p, ok (setDashboard p (add "loading" <$> dashboard p)).

Definition hideDashboardLoading : M :=
  λ p, ok (setDashboard p (remove "loading" <$> dashboard p)).

Definition consoleError (line : string) : M :=
  λ p, ok (addConsole p line).

(** [getCsrfToken()] reads [.value] of the CSRF input and throws without
    one. *)
Definition getCsrfToken : M :=
  λ p, if csrfField p then ok p else (p, Threw).

(** [getFormData('report-form')]: [new FormData(form)] throws when the
    form is not on the page. *)
Definition getFormData_reportForm : M :=
  λ p, if reportForm p then ok p else (p, Threw).

Section WithServer.
Variable server : env.

(** [await fetch(url, ...)] *)
Definition fetch (url : string) : M :=
  λ p, if fetchResolves server then ok (addRequest p url)
       else (addRequest p url, Threw).

(** [await response.json()] *)
Definition json : M :=
  λ p, if jsonParses server then ok p else (p, Threw).

(** [renderParameters], [renderPreview], [renderDashboard],
    [renderTemplates], [fillFormWithTemplate]: each is recorded by name.
    A renderer that throws may have changed the page by then
    ([renderParameters] has emptied its container, [renderPreview] has
    attached the modal, [renderDashboard] has updated the KPI cards,
    [fillFormWithTemplate] has filled some fields); an [atomic] one, whose
    only write to the page is its last statement, has not. *)
Definition render (what : string) (atomic : bool) : M :=
  λ p, if renderSucceeds server then ok (addRendered p what)
       else if leavesPart server && negb atomic then (addInterrupted p what, Threw)
       else (p, Threw).

Definition loadReportParameters (reportType : string) : M :=
  tryCatch
    (block [ showLoading "Загрузка параметров...";
             fetch ("/reports/api/parameters/" ++ reportType ++ "/");
             json;
             render "renderParameters" false;
             hideLoading ])
    (block [ consoleError "Ошибка загрузки параметров:";
             showError "Не удалось загрузить параметры отчета";
             hideLoading ]).

Definition previewReport : M :=
  block [ getFormData_reportForm;
          tryCatch
            (block [ showLoading "Формирование предпросмотра...";
                     getCsrfToken;
                     fetch "/reports/api/preview/";
                     json;
                     render "renderPreview" false;
                     hideLoading ])
            (block [ consoleError "Ошибка предпросмотра:";
                     showError "Не удалось сформировать предпросмотр";
                     hideLoading ]) ].

Definition loadDashboardData : M :=
  tryCatch
    (block [ showDashboardLoading;
             getCsrfToken;
             fetch "/reports/api/dashboard/";
             json;
             render "renderDashboard" false;
             hideDashboardLoading ])
    (block [ consoleError "Ошибка загрузки дашборда:";
             showError "Не удалось загрузить данные дашборда";
             hideDashboardLoading ]).

Definition loadTemplate (templateId : string) : M :=
  tryCatch
    (block [ fetch ("/reports/api/templates/" ++ templateId ++ "/");
             json;
             render "fillFormWithTemplate" false;
             showSuccess "Шаблон успешно загружен" ])
    (block [ consoleError "Ошибка загрузки шаблона:";
             showError "Не удалось загрузить шаблон" ]).

(** [loadReportTemplates] only logs a failure. [renderTemplates] assigns
    [innerHTML] as its last statement. *)
Definition loadReportTemplates : M :=
  tryCatch
    (block [ fetch "/reports/api/templates/";
             json;
             render "renderTemplates" true ])
    (consoleError "Ошибка загрузки шаблонов:").

End WithServer.

(** The four loaders that report a failure to the user. *)
Inductive operation :=
| LoadReportParameters (reportType : string)
| PreviewReport
| LoadDashboardData
| LoadTemplate (templateId : string).

Definition run (server : env) (op : operation) : M :=
  match op with
  | LoadReportParameters reportType => loadReportParameters server reportType
  | PreviewReport => previewReport server
  | LoadDashboardData => loadDashboardData server
  | LoadTemplate templateId => loadTemplate server templateId
  end.

Definition url (op : operation) : string :=
  match op with
  | LoadReportParameters reportType => "/reports/api/parameters/" ++ reportType ++ "/"
  | PreviewReport => "/reports/api/preview/"
  | LoadDashboardData => "/reports/api/dashboard/"
  | LoadTemplate templateId => "/reports/api/templates/" ++ templateId ++ "/"
  end.

Definition errorMessage (op : operation) : string :=
  match op with
  | LoadReportParameters _ => "Не удалось загрузить параметры отчета"
  | PreviewReport => "Не удалось сформировать предпросмотр"
  | LoadDashboardData => "Не удалось загрузить данные дашборда"
  | LoadTemplate _ => "Не удалось загрузить шаблон"
  end.

(** What the operation needs on the page to get as far as its [fetch]. *)
Definition reachesFetch (op : operation) (p : page) : Prop :=
  match op with
  | LoadReportParameters _ => True
  | PreviewReport => reportForm p = true ∧ csrfField p = true
  | LoadDashboardData => csrfField p = true
  | LoadTemplate _ => True
  end.

Definition dashboardLoading (p : page) : Prop :=
  ∃ cl, dashboard p = Some cl ∧ "loading"%string ∈ cl.

Definition samplePage : page :=
  {| main := Some []; overlays := 0; dashboard := Some ["row"%string];
     csrfField := true; reportForm := true;
     requests := []; rendered := []; console := []; interrupted := [] |}.

Definition offline : env :=
  {| fetchResolves := false; jsonParses := true; renderSucceeds := true;
     leavesPart := false |}.

Definition badJson : env :=
  {| fetchResolves := true; jsonParses := false; renderSucceeds := true;
     leavesPart := false |}.

Example loadDashboardData_offline :
  loadDashboardData offline samplePage
  = ({| main := Some [(Danger, "Не удалось загрузить данные дашборда"%string)];
        overlays := 0; dashboard := Some ["row"%string];
        csrfField := true; reportForm := true;
        requests := ["/reports/api/dashboard/"%string]; rendered := [];
        console := ["Ошибка загрузки дашборда:"%string]; interrupted := [] |},
     Returned tt).
Proof. reflexivity. Qed.

(** [loadReportTemplates] shows nothing to the user when it fails. *)
Example loadReportTemplates_offline :
  loadReportTemplates offline samplePage
  = ({| main := Some []; overlays := 0; dashboard := Some ["row"%string];
        csrfField := true; reportForm := true;
        requests := ["/reports/api/templates/"%string]; rendered := [];
        console := ["Ошибка загрузки шаблонов:"%string]; interrupted := [] |},
     Returned tt).
Proof. reflexivity. Qed.

(** On a page without [main] the handler itself throws: the overlay stays
    and the call ends in a throw. *)
Example loadReportParameters_no_main :
  loadReportParameters offline "clients" (setMain samplePage None)
  = ({| main := None; overlays := 1; dashboard := Some ["row"%string];
        csrfField := true; reportForm := true;
        requests := ["/reports/api/parameters/clients/"%string]; rendered := [];
        console := ["Ошибка загрузки параметров:"%string]; interrupted := [] |},
     Threw).
Proof. reflexivity. Qed.

Lemma remove_add_loading (cl : classList) :
  "loading"%string ∉ remove "loading" (add "loading" cl).
Proof. apply remove_not_in. Qed.

Lemma not_dashboardLoading_after (p : page) (d : option classList) :
  dashboard p = (remove "loading" <$> (add "loading" <$> d)) →
  ¬ dashboardLoading p.
Proof.
  intros E (cl & Hcl & Hin). rewrite E in Hcl.
  destruct d as [d|]; [| done]. injection Hcl as <-.
  by apply remove_add_loading in Hin.
Qed.

(** C5, as the code has it. On a page that has a [main] element, each of
    [loadReportParameters], [previewReport], [loadDashboardData] and
    [loadTemplate], once it has got as far as its [fetch], handles a
    rejected [fetch] or a rejected [response.json()] inside the method: the
    call returns normally, the error alert with the operation's message has
    been prepended to [main], the overlay count is what it was before the
    call and the dashboard no longer carries loading, and exactly one
    request was sent. *)
Theorem fetch_failure_is_caught (server : env) (op : operation) (p : page) :
  is_Some (main p) →
  reachesFetch op p →
  fetchResolves server = false ∨ jsonParses server = false →
  ∃ p',
    run server op p = (p', Returned tt) ∧
    main p' = (λ children, (Danger, errorMessage op) :: children) <$> main p ∧
    overlays p' = overlays p ∧
    (op = LoadDashboardData → ¬ dashboardLoading p') ∧
    (op ≠ LoadDashboardData → dashboard p' = dashboard p) ∧
    requests p' = requests p ++ [url op].
Proof.
  intros [children Hmain] Hreach Hfail.
  destruct p as [m o d csrf form rq rd co it]. simpl in Hmain. subst m.
  destruct server as [f j r part].
  destruct op as [reportType| | |templateId]; simpl in Hreach, Hfail |- *.
  - unfold loadReportParameters, tryCatch, block, fetch, json, render; simpl.
    destruct f; simpl.
    + destruct Hfail as [? | ->]; [done |]. simpl.
      eexists. split; [reflexivity |]. by split_and!.
    + eexists. split; [reflexivity |]. by split_and!.
  - destruct Hreach as [-> ->].
    unfold previewReport, tryCatch, block, fetch, json, render; simpl.
    destruct f; simpl.
    + destruct Hfail as [? | ->]; [done |]. simpl.
      eexists. split; [reflexivity |]. by split_and!.
    + eexists. split; [reflexivity |]. by split_and!.
  - subst csrf.
    unfold loadDashboardData, tryCatch, block, fetch, json, render; simpl.
    destruct f; simpl.
    + destruct Hfail as [? | ->]; [done |]. simpl.
      eexists. split; [reflexivity |]. split_and!; try done.
      intros _. by eapply not_dashboardLoading_after.
    + eexists. split; [reflexivity |]. split_and!; try done.
      intros _. by eapply not_dashboardLoading_after.
  - unfold loadTemplate, tryCatch, block, fetch, json, render; simpl.
    destruct f; simpl.
    + destruct Hfail as [? | ->]; [done |]. simpl.
      eexists. split; [reflexivity |]. by split_and!.
    + eexists. split; [reflexivity |]. by split_and!.
Qed.

Lemma fetch_failure_is_caught_witness :
  ∃ p', run badJson PreviewReport (setOverlays samplePage 2) = (p', Returned tt) ∧
        overlays p' = 2%nat ∧
        requests p' = ["/reports/api/preview/"%string].
Proof.
  destruct (fetch_failure_is_caught badJson PreviewReport (setOverlays samplePage 2))
    as (p' & E & _ & Ho & _ & _ & Hr).
  - by eexists.
  - by split.
  - by right.
  - exists p'. split_and!; [exact E | exact Ho | exact Hr].
Defined.

(** C5 speaks of every page. On a page without [main], [showError] throws
    inside the [catch] block: the call ends in a throw, and the overlay
    that was shown stays. *)
Lemma catch_block_needs_main :
  ¬ (∀ server op p,
       reachesFetch op p →
       fetchResolves server = false ∨ jsonParses server = false →
       ∃ p',
         run server op p = (p', Returned tt) ∧
         main p' = (λ children, (Danger, errorMessage op) :: children) <$> main p ∧
         overlays p' = overlays p ∧
         (op = LoadDashboardData → ¬ dashboardLoading p') ∧
         (op ≠ LoadDashboardData → dashboard p' = dashboard p) ∧
         requests p' = requests p ++ [url op]).
Proof.
  intros H.
  destruct (H offline (LoadReportParameters "clients") (setMain samplePage None) I
              (or_introl eq_refl)) as (p' & E & _).
  discriminate E.
Qed.

End Reports.

(** ** [ReportSystem]: the export queue *)

Module ExportQueue.
Import Js.

(** A value read from the form data: a missing key, a string, or a file. *)
Inductive jsValue := Undefined | Str (s : jsstring) | File.

Definition isString (v : jsValue) : bool :=
  match v with Str _ => true | _ => false end.

(** The object literal built by [handleExport]. *)
Record exportJob := {
  id : string;
  type : jsValue;
  format : jsValue;
  status : string;
  progress : Z
}.

Definition withStatus (v : string) (j : exportJob) : exportJob :=
  {| id := id j; type := type j; format := format j; status := v;
     progress := progress j |}.

Definition withProgress (v : Z) (j : exportJob) : exportJob :=
  {| id := id j; type := type j; format := format j; status := status j;
     progress := v |}.

(** What the queue code does, in the order it does it. Jobs are named by
    their reference. *)
Inductive event :=
| Created (job : nat) (status : string) (progress : Z)
| SetStatus (job : nat) (value : string)
| SetProgress (job : nat) (value : Z)
| Render
| Delay (ms : Z)
| ConsoleLog (job : nat)
| ConsoleError.

(** The [ReportSystem] instance with the part of the world it touches.
    Job objects live in [heap] and are referred to by index, so that the
    queue and a suspended [processExportJob] share the object they both
    hold. [waiting] lists the calls of [processExportQueue] that are
    suspended in [await this.delay(500)], each with the job it is
    processing and the value of the loop variable. [queueContainer] says
    whether the page has [#export-queue]. [trace] and [views] record what
    happened: the events, and the status and progress of the queued jobs at
    each call of [renderExportQueue]. *)
Record system := {
  heap : list exportJob;
  exportQueue : list nat;
  isProcessing : bool;
  queueContainer : bool;
  waiting : list (nat * Z);
  trace : list event;
  views : list (list (string * Z))
}.

Definition setHeap (h : list exportJob) (s : system) : system :=
  {| heap := h; exportQueue := exportQueue s; isProcessing := isProcessing s;
     queueContainer := queueContainer s; waiting := waiting s;
     trace := trace s; views := views s |}.

Definition setExportQueue (q : list nat) (s : system) : system :=
  {| heap := heap s; exportQueue := q; isProcessing := isProcessing s;
     queueContainer := queueContainer s; waiting := waiting s;
     trace := trace s; views := views s |}.

Definition setIsProcessing (b : bool) (s : system) : system :=
  {| heap := heap s; exportQueue := exportQueue s; isProcessing := b;
     queueContainer := queueContainer s; waiting := waiting s;
     trace := trace s; views := views s |}.

Definition setQueueContainer (b : bool) (s : system) : system :=
  {| heap := heap s; exportQueue := exportQueue s; isProcessing := isProcessing s;
     queueContainer := b; waiting := waiting s;
     trace := trace s; views := views s |}.

Definition setWaiting (w : list (nat * Z)) (s : system) : system :=
  {| heap := heap s; exportQueue := exportQueue s; isProcessing := isProcessing s;
     queueContainer := queueContainer s; waiting := w;
     trace := trace s; views := views s |}.

Definition emit (e : event) (s : system) : system :=
  {| heap := heap s; exportQueue := exportQueue s; isProcessing := isProcessing s;
     queueContainer := queueContainer s; waiting := waiting s;
     trace := trace s ++ [e]; views := views s |}.

Definition addView (v : list (string * Z)) (s : system) : system :=
  {| heap := heap s; exportQueue := exportQueue s; isProcessing := isProcessing s;
     queueContainer := queueContainer s; waiting := waiting s;
     trace := trace s; views := views s ++ [v] |}.

(** [job.status = value] and [job.progress = value], through the
    reference. References come from [handleExport] only and always point
    into the heap. *)
Definition setStatus (job : nat) (value : string) (s : system) : system :=
  emit (SetStatus job value) (setHeap (alter (withStatus value) job (heap s)) s).

Definition setProgress (job : nat) (value : Z) (s : system) : system :=
  emit (SetProgress job value) (setHeap (alter (withProgress value) job (heap s)) s).

(** Status and progress of the queued jobs, in queue order. *)
Definition snapshot (s : system) : list (string * Z) :=
  omap (λ job, (λ j, (status j, progress j)) <$> heap s !! job) (exportQueue s).

(** The template of [renderExportQueue] evaluates
    [job.format.toUpperCase()], which throws unless the format is a
    string. *)
Definition renders (s : system) (job : nat) : bool :=
  match heap s !! job with
  | Some j => isString (format j)
  | None => false
  end.

(** [renderExportQueue()]: nothing to do without the container; otherwise
    the markup of every queued job is built. *)
Definition renderExportQueue (s : system) : system * completion unit :=
  let s := addView (snapshot s) (emit Render s) in
  if negb (queueContainer s) then (s, Returned tt)
  else if forallb (renders s) (exportQueue s) then (s, Returned tt)
  else (s, Threw).

(** [downloadExportResult(job)] only writes to the console. *)
Definition downloadExportResult (job : nat) (s : system) : system :=
  emit (ConsoleLog job) s.

(** One round of the [for] loop of [processExportJob], up to its
    [await this.delay(500)]: it gets there, or a throw ends it. *)
Definition iteration (job : nat) (progress : Z) (s : system)
  : system * completion unit :=
  let s := setProgress job progress s in
  match renderExportQueue s with
  | (s, Threw) => (s, Threw)
  | (s, Returned _) => (emit (Delay 500) s, Returned tt)
  end.

(** [processExportJob(job)], from the call to the first [await]. The loop
    starts with [progress = 0], for which the test [progress <= 100]
    holds. *)
Definition processExportJob (job : nat) (s : system) : system * completion unit :=
  let s := setStatus job "processing" s in
  match renderExportQueue s with
  | (s, Threw) => (s, Threw)
  | (s, Returned _) => iteration job 0 s
  end.

(** How far a resumed call of [processExportJob] got. *)
Inductive jobStep :=
| Awaiting (progress : Z)
| Finished
| Failed.

(** [processExportJob(job)], from the end of a delay to the next [await]
    or to the end: [progress += 10], the loop test, and either one more
    round or what follows the loop. *)
Definition processExportJob_resume (job : nat) (progress : Z) (s : system)
  : system * jobStep :=
  let progress := progress + 10 in
  if progress <=? 100 then
    match iteration job progress s with
    | (s, Threw) => (s, Failed)
    | (s, Returned _) => (s, Awaiting progress)
    end
  else
    let s := setStatus job "completed" s in
    match renderExportQueue s with
    | (s, Threw) => (s, Failed)
    | (s, Returned _) => (downloadExportResult job s, Finished)
    end.

(** How far a call of [processExportQueue] got: suspended inside the job
    it is processing, or ended. *)
Inductive runState :=
| Running (job : nat) (progress : Z)
| Ended (c : completion unit).

(** The [catch] block of [processExportQueue], and what follows the
    [break]. *)
Definition catchBlock (job : nat) (s : system) : system * runState :=
  let s := emit ConsoleError s in
  let s := setStatus job "failed" s in
  match renderExportQueue s with
  | (s, Threw) => (s, Ended Threw)
  | (s, Returned _) => (setIsProcessing false s, Ended (Returned tt))
  end.

(** [this.exportQueue.shift()] *)
Definition shift (s : system) : system := setExportQueue (tail (exportQueue s)) s.

(** The [while] loop of [processExportQueue], from its test to the first
    [await] of the next job, or to the end of the call. *)
Definition whileLoop (s : system) : system * runState :=
  match exportQueue s with
  | [] => (setIsProcessing false s, Ended (Returned tt))
  | job :: _ =>
      match processExportJob job s with
      | (s, Returned _) => (s, Running job 0)
      | (s, Threw) => catchBlock job s
      end
  end.

(** [processExportQueue()], from the call to the first [await]. *)
Definition processExportQueue (s : system) : system * runState :=
  if isProcessing s || (length (exportQueue s) =? 0)%nat then (s, Ended (Returned tt))
  else whileLoop (setIsProcessing true s).

(** [processExportQueue()], from the end of a delay to the next
    [await]. *)
Definition processExportQueue_resume (job : nat) (progress : Z) (s : system)
  : system * runState :=
  match processExportJob_resume job progress s with
  | (s, Awaiting progress) => (s, Running job progress)
  | (s, Finished) => whileLoop (shift s)
  | (s, Failed) => catchBlock job s
  end.

(** A call that is suspended joins [waiting]. *)
Definition park (r : system * runState) : system :=
  match r with
  | (s, Running job progress) => setWaiting (waiting s ++ [(job, progress)]) s
  | (s, Ended _) => s
  end.

(** [addToExportQueue(exportJob)] *)
Definition addToExportQueue (job : nat) (s : system) : system * completion unit :=
  renderExportQueue (setExportQueue (exportQueue s ++ [job]) s).

(** [handleExport(event)] with the time and the form data it reads. *)
Definition handleExport (now : Z) (data_type fmt : jsValue) (s : system) : system :=
  let exportJob :=
    {| id := "export-" ++ ToString now; type := data_type; format := fmt;
       status := "queued"; progress := 0 |} in
  let job := length (heap s) in
  let s := emit (Created job "queued" 0) (setHeap (heap s ++ [exportJob]) s) in
  match addToExportQueue job s with
  | (s, Threw) => s
  | (s, Returned _) => park (processExportQueue s)
  end.

(** What can happen to the page, one task at a time: the export form is
    submitted; the delay of a suspended call elapses; the page gains or
    loses [#export-queue]; other script calls [processExportQueue]. *)
Inductive task :=
| Submit (now : Z) (data_type fmt : jsValue)
| TimerFires (k : nat)
| ContainerChange (present : bool)
| CallProcessExportQueue.

Definition step (s : system) (t : task) : system :=
  match t with
  | Submit now data_type fmt => handleExport now data_type fmt s
  | TimerFires k =>
      match waiting s !! k with
      | Some (job, progress) =>
          park (processExportQueue_resume job progress
                  (setWaiting (delete k (waiting s)) s))
      | None => s
      end
  | ContainerChange present => setQueueContainer present s
  | CallProcessExportQueue => park (processExportQueue s)
  end.

Definition run (s : system) (tasks : list task) : system := fold_left step tasks s.

(** The state the constructor leaves, on a page with or without the
    container. *)
Definition init (container : bool) : system :=
  {| heap := []; exportQueue := []; isProcessing := false;
     queueContainer := container; waiting := []; trace := []; views := [] |}.

(** *** Reading the state *)

(** Whether a call of [renderExportQueue] in this state throws. *)
Definition renderThrows (s : system) : bool :=
  queueContainer s && negb (forallb (renders s) (exportQueue s)).

(** An assignment to some of the two mutable fields of a job. *)
Definition patch : Type := option string * option Z.

Definition patchJob (p : patch) (j : exportJob) : exportJob :=
  {| id := id j; type := type j; format := format j;
     status := default (status j) p.1;
     progress := default (progress j) p.2 |}.

(** [after q p]: first [p], then [q]. *)
Definition after (q p : patch) : patch :=
  (match q.1 with Some v => Some v | None => p.1 end,
   match q.2 with Some v => Some v | None => p.2 end).

(** [s'] is [s] after script that wrote to no job but [job], left the
    queue, the flag, the page and the suspended calls alone, and
    produced the events [evs]. Each call of [renderExportQueue] on the way
    saw the queue of [s] with only [job] possibly changed. *)
Record evolves (s s' : system) (job : nat) (p : patch) (evs : list event) : Prop := {
  ev_heap : heap s' = alter (patchJob p) job (heap s);
  ev_queue : exportQueue s' = exportQueue s;
  ev_flag : isProcessing s' = isProcessing s;
  ev_page : queueContainer s' = queueContainer s;
  ev_waiting : waiting s' = waiting s;
  ev_trace : trace s' = trace s ++ evs;
  ev_views : ∃ vs, views s' = views s ++ vs ∧
      Forall (λ v, ∃ q, v = snapshot (setHeap (alter (patchJob q) job (heap s)) s)) vs
}.

Lemma patchJob_after q p j : patchJob q (patchJob p j) = patchJob (after q p) j.
Proof. destruct q as [[?|] [?|]], p as [[?|] [?|]]; reflexivity. Qed.

Lemma patchJob_none j : patchJob (None, None) j = j.
Proof. by destruct j. Qed.

Lemma alter_patch_after q p job (h : list exportJob) :
  alter (patchJob q) job (alter (patchJob p) job h) = alter (patchJob (after q p)) job h.
Proof.
  rewrite list_alter_alter_eq. apply list_alter_ext; [| done].
  intros j _. apply patchJob_after.
Qed.

Lemma alter_patch_none job (h : list exportJob) : alter (patchJob (None, None)) job h = h.
Proof. apply list_alter_id. intros j. apply patchJob_none. Qed.

Lemma evolves_refl s job : evolves s s job (None, None) [].
Proof.
  split; try done.
  - by rewrite alter_patch_none.
  - by rewrite app_nil_r.
  - exists []. by rewrite app_nil_r.
Qed.

Lemma evolves_trans s1 s2 s3 job p q evs1 evs2 :
  evolves s1 s2 job p evs1 → evolves s2 s3 job q evs2 →
  evolves s1 s3 job (after q p) (evs1 ++ evs2).
Proof.
  intros [H1 Q1 F1 P1 W1 T1 (vs1 & V1 & A1)] [H2 Q2 F2 P2 W2 T2 (vs2 & V2 & A2)].
  split.
  - by rewrite H2, H1, alter_patch_after.
  - congruence.
  - congruence.
  - congruence.
  - congruence.
  - by rewrite T2, T1, app_assoc.
  - exists (vs1 ++ vs2). split; [by rewrite V2, V1, app_assoc |].
    apply Forall_app. split; [done |].
    eapply Forall_impl; [exact A2 |]. intros v [r ->].
    exists (after r p). unfold snapshot. simpl.
    by rewrite H1, alter_patch_after, Q1.
Qed.

Lemma evolves_emit s job e : evolves s (emit e s) job (None, None) [e].
Proof.
  split; try done.
  - simpl. by rewrite alter_patch_none.
  - exists []. split; [by rewrite app_nil_r | constructor].
Qed.

Lemma evolves_setStatus s job v :
  evolves s (setStatus job v s) job (Some v, None) [SetStatus job v].
Proof.
  split; try done.
  exists []. split; [by rewrite app_nil_r | constructor].
Qed.

Lemma evolves_setProgress s job v :
  evolves s (setProgress job v s) job (None, Some v) [SetProgress job v].
Proof.
  split; try done.
  exists []. split; [by rewrite app_nil_r | constructor].
Qed.

Lemma renderExportQueue_eq s :
  renderExportQueue s
  = (addView (snapshot s) (emit Render s),
     if renderThrows s then Threw else Returned tt).
Proof.
  unfold renderExportQueue, renderThrows. simpl.
  destruct (queueContainer s); simpl; [| done].
  replace (forallb (renders (addView (snapshot s) (emit Render s))) (exportQueue s))
    with (forallb (renders s) (exportQueue s)) by done.
  by destruct (forallb _ _).
Qed.

Lemma evolves_render s job :
  evolves s (addView (snapshot s) (emit Render s)) job (None, None) [Render].
Proof.
  split; try done.
  - simpl. by rewrite alter_patch_none.
  - exists [snapshot s]. split; [done |]. constructor; [| constructor].
    exists (None, None). unfold snapshot. simpl. by rewrite alter_patch_none.
Qed.

(** Neither assignment touches a format, so whether rendering throws is
    not changed by them. *)
Lemma renders_patch s s' job p b :
  heap s' = alter (patchJob p) job (heap s) → renders s' b = renders s b.
Proof.
  intros H. unfold renders. rewrite H.
  destruct (decide (b = job)) as [-> | Hne].
  - rewrite list_lookup_alter_eq. by destruct (heap s !! job).
  - by rewrite list_lookup_alter_ne.
Qed.

Lemma renderThrows_evolves s s' job p evs :
  evolves s s' job p evs → renderThrows s' = renderThrows s.
Proof.
  intros E. unfold renderThrows. rewrite (ev_page _ _ _ _ _ E), (ev_queue _ _ _ _ _ E).
  do 2 f_equal. induction (exportQueue s) as [|b l IH]; simpl; [done |].
  rewrite IH. f_equal. eapply renders_patch, ev_heap, E.
Qed.

(** *** The segments of [processExportJob] and [processExportQueue] *)

Lemma render_evolves s job :
  ∃ s', renderExportQueue s = (s', if renderThrows s then Threw else Returned tt) ∧
        evolves s s' job (None, None) [Render].
Proof. eexists. split; [apply renderExportQueue_eq | apply evolves_render]. Qed.

Lemma iteration_returns job p s :
  renderThrows s = false →
  ∃ s', iteration job p s = (s', Returned tt) ∧
        evolves s s' job (None, Some p) [SetProgress job p; Render; Delay 500].
Proof.
  intros Hr. unfold iteration.
  pose proof (evolves_setProgress s job p) as E1.
  destruct (render_evolves (setProgress job p s) job) as (s2 & R2 & E2).
  rewrite (renderThrows_evolves _ _ _ _ _ E1), Hr in R2. rewrite R2.
  eexists. split; [reflexivity |].
  pose proof (evolves_trans _ _ _ _ _ _ _ _ E1 E2) as E12.
  exact (evolves_trans _ _ _ _ _ _ _ _ E12 (evolves_emit s2 job (Delay 500))).
Qed.

Lemma iteration_throws job p s :
  renderThrows s = true →
  ∃ s', iteration job p s = (s', Threw) ∧
        evolves s s' job (None, Some p) [SetProgress job p; Render].
Proof.
  intros Hr. unfold iteration.
  pose proof (evolves_setProgress s job p) as E1.
  destruct (render_evolves (setProgress job p s) job) as (s2 & R2 & E2).
  rewrite (renderThrows_evolves _ _ _ _ _ E1), Hr in R2. rewrite R2.
  eexists. split; [reflexivity |].
  exact (evolves_trans _ _ _ _ _ _ _ _ E1 E2).
Qed.

Lemma processExportJob_returns job s :
  renderThrows s = false →
  ∃ s', processExportJob job s = (s', Returned tt) ∧
        evolves s s' job (Some "processing"%string, Some 0)
          [SetStatus job "processing"; Render; SetProgress job 0; Render; Delay 500].
Proof.
  intros Hr. unfold processExportJob.
  pose proof (evolves_setStatus s job "processing") as E1.
  destruct (render_evolves (setStatus job "processing" s) job) as (s2 & R2 & E2).
  rewrite (renderThrows_evolves _ _ _ _ _ E1), Hr in R2. rewrite R2.
  pose proof (evolves_trans _ _ _ _ _ _ _ _ E1 E2) as E12.
  destruct (iteration_returns job 0 s2) as (s3 & R3 & E3).
  { by rewrite (renderThrows_evolves _ _ _ _ _ E12). }
  rewrite R3. eexists. split; [reflexivity |].
  exact (evolves_trans _ _ _ _ _ _ _ _ E12 E3).
Qed.

Lemma processExportJob_throws job s :
  renderThrows s = true →
  ∃ s', processExportJob job s = (s', Threw) ∧
        evolves s s' job (Some "processing"%string, None)
          [SetStatus job "processing"; Render].
Proof.
  intros Hr. unfold processExportJob.
  pose proof (evolves_setStatus s job "processing") as E1.
  destruct (render_evolves (setStatus job "processing" s) job) as (s2 & R2 & E2).
  rewrite (renderThrows_evolves _ _ _ _ _ E1), Hr in R2. rewrite R2.
  eexists. split; [reflexivity |].
  exact (evolves_trans _ _ _ _ _ _ _ _ E1 E2).
Qed.

Lemma resume_next_round job p s :
  renderThrows s = false → p + 10 ≤ 100 →
  ∃ s', processExportJob_resume job p s = (s', Awaiting (p + 10)) ∧
        evolves s s' job (None, Some (p + 10))
          [SetProgress job (p + 10); Render; Delay 500].
Proof.
  intros Hr Hp. unfold processExportJob_resume.
  apply Z.leb_le in Hp. rewrite Hp.
  destruct (iteration_returns job (p + 10) s Hr) as (s' & R & E).
  rewrite R. by exists s'.
Qed.

Lemma resume_finishes job p s :
  renderThrows s = false → 100 < p + 10 →
  ∃ s', processExportJob_resume job p s = (s', Finished) ∧
        evolves s s' job (Some "completed"%string, None)
          [SetStatus job "completed"; Render; ConsoleLog job].
Proof.
  intros Hr Hp. unfold processExportJob_resume.
  apply Z.leb_gt in Hp. rewrite Hp.
  pose proof (evolves_setStatus s job "completed") as E1.
  destruct (render_evolves (setStatus job "completed" s) job) as (s2 & R2 & E2).
  rewrite (renderThrows_evolves _ _ _ _ _ E1), Hr in R2. rewrite R2.
  eexists. split; [reflexivity |].
  pose proof (evolves_trans _ _ _ _ _ _ _ _ E1 E2) as E12.
  exact (evolves_trans _ _ _ _ _ _ _ _ E12 (evolves_emit s2 job (ConsoleLog job))).
Qed.

(** A resumed job whose rendering throws: during a round of the loop, or
    right after the job has been marked completed. *)
Lemma resume_throws job p s :
  renderThrows s = true →
  ∃ s' q evs, processExportJob_resume job p s = (s', Failed) ∧
        evolves s s' job q evs ∧
        ((p + 10 ≤ 100 ∧ q = (None, Some (p + 10)) ∧
          evs = [SetProgress job (p + 10); Render]) ∨
         (100 < p + 10 ∧ q = (Some "completed"%string, None) ∧
          evs = [SetStatus job "completed"; Render])).
Proof.
  intros Hr. unfold processExportJob_resume.
  destruct (p + 10 <=? 100) eqn:Hp.
  - apply Z.leb_le in Hp.
    destruct (iteration_throws job (p + 10) s Hr) as (s' & R & E).
    rewrite R. exists s', (None, Some (p + 10)), [SetProgress job (p + 10); Render].
    split_and!; [done | done |]. left. done.
  - apply Z.leb_gt in Hp.
    pose proof (evolves_setStatus s job "completed") as E1.
    destruct (render_evolves (setStatus job "completed" s) job) as (s2 & R2 & E2).
    rewrite (renderThrows_evolves _ _ _ _ _ E1), Hr in R2. rewrite R2.
    exists s2, (Some "completed"%string, None), [SetStatus job "completed"; Render].
    split_and!; [done | exact (evolves_trans _ _ _ _ _ _ _ _ E1 E2) |]. right. done.
Qed.

(** The handler renders the queue again, so it throws whenever the throw
    it handles came from rendering; the flag is then never reset. *)
Lemma catchBlock_throws job s :
  renderThrows s = true →
  ∃ s', catchBlock job s = (s', Ended Threw) ∧
        evolves s s' job (Some "failed"%string, None)
          [ConsoleError; SetStatus job "failed"; Render].
Proof.
  intros Hr. unfold catchBlock.
  pose proof (evolves_emit s job ConsoleError) as E0.
  pose proof (evolves_setStatus (emit ConsoleError s) job "failed") as E1.
  pose proof (evolves_trans _ _ _ _ _ _ _ _ E0 E1) as E01.
  destruct (render_evolves (setStatus job "failed" (emit ConsoleError s)) job)
    as (s2 & R2 & E2).
  rewrite (renderThrows_evolves _ _ _ _ _ E01), Hr in R2. rewrite R2.
  eexists. split; [reflexivity |].
  exact (evolves_trans _ _ _ _ _ _ _ _ E01 E2).
Qed.

Lemma whileLoop_empty s :
  exportQueue s = [] → whileLoop s = (setIsProcessing false s, Ended (Returned tt)).
Proof. intros H. unfold whileLoop. by rewrite H. Qed.

Lemma whileLoop_returns s job rest :
  exportQueue s = job :: rest → renderThrows s = false →
  ∃ s', whileLoop s = (s', Running job 0) ∧
        evolves s s' job (Some "processing"%string, Some 0)
          [SetStatus job "processing"; Render; SetProgress job 0; Render; Delay 500].
Proof.
  intros Hq Hr. unfold whileLoop. rewrite Hq.
  destruct (processExportJob_returns job s Hr) as (s' & R & E).
  rewrite R. by exists s'.
Qed.

Lemma whileLoop_throws s job rest :
  exportQueue s = job :: rest → renderThrows s = true →
  ∃ s', whileLoop s = (s', Ended Threw) ∧
        evolves s s' job (Some "failed"%string, None)
          [SetStatus job "processing"; Render; ConsoleError;
           SetStatus job "failed"; Render].
Proof.
  intros Hq Hr. unfold whileLoop. rewrite Hq.
  destruct (processExportJob_throws job s Hr) as (s1 & R1 & E1). rewrite R1.
  destruct (catchBlock_throws job s1) as (s2 & R2 & E2).
  { by rewrite (renderThrows_evolves _ _ _ _ _ E1). }
  rewrite R2. exists s2. split; [done |].
  exact (evolves_trans _ _ _ _ _ _ _ _ E1 E2).
Qed.

Lemma resume_queue_next_round job p s :
  renderThrows s = false → p + 10 ≤ 100 →
  ∃ s', processExportQueue_resume job p s = (s', Running job (p + 10)) ∧
        evolves s s' job (None, Some (p + 10))
          [SetProgress job (p + 10); Render; Delay 500].
Proof.
  intros Hr Hp. unfold processExportQueue_resume.
  destruct (resume_next_round job p s Hr Hp) as (s' & R & E).
  rewrite R. by exists s'.
Qed.

Lemma resume_queue_finishes job p s :
  renderThrows s = false → 100 < p + 10 →
  ∃ s1, processExportQueue_resume job p s = whileLoop (shift s1) ∧
        evolves s s1 job (Some "completed"%string, None)
          [SetStatus job "completed"; Render; ConsoleLog job].
Proof.
  intros Hr Hp. unfold processExportQueue_resume.
  destruct (resume_finishes job p s Hr Hp) as (s' & R & E).
  rewrite R. by exists s'.
Qed.

Lemma resume_queue_throws job p s :
  renderThrows s = true →
  ∃ s' q evs, processExportQueue_resume job p s = (s', Ended Threw) ∧
        evolves s s' job (Some "failed"%string, q) evs ∧
        ((p + 10 ≤ 100 ∧ q = Some (p + 10) ∧
          evs = [SetProgress job (p + 10); Render; ConsoleError;
                 SetStatus job "failed"; Render]) ∨
         (100 < p + 10 ∧ q = None ∧
          evs = [SetStatus job "completed"; Render; ConsoleError;
                 SetStatus job "failed"; Render])).
Proof.
  intros Hr. unfold processExportQueue_resume.
  destruct (resume_throws job p s Hr) as (s1 & q1 & evs1 & R1 & E1 & Hcase).
  rewrite R1.
  destruct (catchBlock_throws job s1) as (s2 & R2 & E2).
  { by rewrite (renderThrows_evolves _ _ _ _ _ E1). }
  rewrite R2.
  pose proof (evolves_trans _ _ _ _ _ _ _ _ E1 E2) as E12.
  destruct Hcase as [(Hp & -> & ->) | (Hp & -> & ->)].
  - eexists s2, (Some (p + 10)), _. split_and!; [done | exact E12 |]. left. done.
  - eexists s2, None, _. split_and!; [done | exact E12 |]. right. done.
Qed.

(** [renderExportQueue] returns or throws; which of the two is read off
    the state. *)
Lemma processExportJob_outcome job s :
  (processExportJob job s).2 = if renderThrows s then Threw else Returned tt.
Proof.
  destruct (renderThrows s) eqn:Hr.
  - destruct (processExportJob_throws job s Hr) as (s' & R & _). by rewrite R.
  - destruct (processExportJob_returns job s Hr) as (s' & R & _). by rewrite R.
Qed.

Lemma processExportJob_resume_outcome job p s :
  (processExportJob_resume job p s).2 = Failed ↔ renderThrows s = true.
Proof.
  destruct (renderThrows s) eqn:Hr.
  - destruct (resume_throws job p s Hr) as (s' & q & evs & R & _). by rewrite R.
  - destruct (Z_le_gt_dec (p + 10) 100) as [Hp | Hp].
    + destruct (resume_next_round job p s Hr Hp) as (s' & R & _). by rewrite R.
    + destruct (resume_finishes job p s Hr) as (s' & R & _); [lia |]. by rewrite R.
Qed.

(** *** One job on its own *)

(** [processExportJob] resumed [rounds] times with nothing else happening
    in between. *)
Fixpoint continueJob (rounds : nat) (job : nat) (progress : Z) (s : system)
  : system * jobStep :=
  match rounds with
  | O => (s, Awaiting progress)
  | S rounds' =>
      match processExportJob_resume job progress s with
      | (s', Awaiting progress') => continueJob rounds' job progress' s'
      | done => done
      end
  end.

Definition runJob (rounds : nat) (job : nat) (s : system) : system * jobStep :=
  match processExportJob job s with
  | (s', Returned _) => continueJob rounds job 0 s'
  | (s', Threw) => (s', Failed)
  end.

(** The rounds of the loop after the first delay: progress
    [from + 10], [from + 20], ... *)
Definition roundEvents (job : nat) (from : Z) (rounds : nat) : list event :=
  flat_map (λ k, [SetProgress job (from + 10 * Z.of_nat (S k)); Render; Delay 500])
    (seq 0 rounds).

(** Everything a job that runs to completion does. *)
Definition jobEvents (job : nat) : list event :=
  [SetStatus job "processing"; Render; SetProgress job 0; Render; Delay 500]
  ++ roundEvents job 0 10
  ++ [SetStatus job "completed"; Render; ConsoleLog job].

Example jobEvents_unfolded :
  jobEvents 0
  = [ SetStatus 0 "processing"; Render;
      SetProgress 0 0; Render; Delay 500;
      SetProgress 0 10; Render; Delay 500;
      SetProgress 0 20; Render; Delay 500;
      SetProgress 0 30; Render; Delay 500;
      SetProgress 0 40; Render; Delay 500;
      SetProgress 0 50; Render; Delay 500;
      SetProgress 0 60; Render; Delay 500;
      SetProgress 0 70; Render; Delay 500;
      SetProgress 0 80; Render; Delay 500;
      SetProgress 0 90; Render; Delay 500;
      SetProgress 0 100; Render; Delay 500;
      SetStatus 0 "completed"; Render; ConsoleLog 0 ].
Proof. reflexivity. Qed.

Lemma roundEvents_S job from rounds :
  roundEvents job from (S rounds)
  = [SetProgress job (from + 10); Render; Delay 500]
    ++ roundEvents job (from + 10) rounds.
Proof.
  unfold roundEvents. simpl seq. rewrite <- seq_shift. simpl.
  replace (from + 10 * 1) with (from + 10) by lia. do 3 f_equal.
  rewrite flat_map_concat_map, map_map, <- flat_map_concat_map.
  apply flat_map_ext. intros k. do 2 f_equal. lia.
Qed.

(** The progress written by [rounds] rounds that start after [from]. *)
Definition roundsPatch (from : Z) (rounds : nat) : patch :=
  (None, match rounds with O => None | S _ => Some (from + 10 * Z.of_nat rounds) end).

Lemma roundsPatch_S from rounds :
  after (roundsPatch (from + 10) rounds) (None, Some (from + 10))
  = roundsPatch from (S rounds).
Proof.
  unfold roundsPatch, after. simpl fst. simpl snd. f_equal.
  destruct rounds; f_equal; lia.
Qed.

Lemma continueJob_rounds rounds job p s :
  renderThrows s = false → p + 10 * Z.of_nat rounds ≤ 100 →
  ∃ s', continueJob rounds job p s = (s', Awaiting (p + 10 * Z.of_nat rounds)) ∧
        evolves s s' job (roundsPatch p rounds) (roundEvents job p rounds).
Proof.
  revert p s. induction rounds as [|n IH]; intros p s Hr Hp.
  - exists s. split; [simpl; do 2 f_equal; lia | apply evolves_refl].
  - destruct (resume_next_round job p s Hr) as (s1 & R1 & E1); [lia |].
    destruct (IH (p + 10) s1) as (s' & R' & E').
    { by rewrite (renderThrows_evolves _ _ _ _ _ E1). }
    { lia. }
    exists s'. split.
    + simpl continueJob. rewrite R1, R'. do 2 f_equal. lia.
    + rewrite roundEvents_S, <- roundsPatch_S.
      exact (evolves_trans _ _ _ _ _ _ _ _ E1 E').
Qed.

Lemma continueJob_more n m job p s s' p' :
  continueJob n job p s = (s', Awaiting p') →
  continueJob (n + m) job p s = continueJob m job p' s'.
Proof.
  revert p s. induction n as [|n IH]; intros p s H; simpl in *.
  - by injection H as -> ->.
  - destruct (processExportJob_resume job p s) as [s1 [p1| |]]; [by apply IH | done | done].
Qed.

(** C2, as the code has it. With rendering not throwing (the page has no
    [#export-queue], or every queued job has a string for its format),
    [processExportJob] sets the status
    to processing, then sets the progress to 0, 10, ..., 100, each time
    followed by a render and a delay of 500 ms, so that after ten
    resumptions it is still waiting and the eleventh ends it; it then sets
    the status to completed, renders, and calls [downloadExportResult],
    which adds one console line and nothing else. The job ends up
    completed with progress 100. *)
Theorem processExportJob_progress (s : system) (job : nat) :
  renderThrows s = false →
  ∃ s10 s',
    runJob 10 job s = (s10, Awaiting 100) ∧
    runJob 11 job s = (s', Finished) ∧
    evolves s s' job (Some "completed"%string, Some 100) (jobEvents job) ∧
    ∀ s0, evolves s0 (downloadExportResult job s0) job (None, None) [ConsoleLog job].
Proof.
  intros Hr.
  destruct (processExportJob_returns job s Hr) as (s1 & R1 & E1).
  assert (Hr1 : renderThrows s1 = false) by by rewrite (renderThrows_evolves _ _ _ _ _ E1).
  destruct (continueJob_rounds 10 job 0 s1 Hr1) as (s10 & R10 & E10); [lia |].
  assert (Hr10 : renderThrows s10 = false) by by rewrite (renderThrows_evolves _ _ _ _ _ E10).
  destruct (resume_finishes job 100 s10 Hr10) as (s' & R' & E'); [lia |].
  exists s10, s'. split_and!.
  - unfold runJob. by rewrite R1.
  - unfold runJob. rewrite R1.
    change 11%nat with (10 + 1)%nat.
    rewrite (continueJob_more 10 1 job 0 s1 s10 100 R10). simpl. by rewrite R'.
  - pose proof (evolves_trans _ _ _ _ _ _ _ _ E1 E10) as E110.
    exact (evolves_trans _ _ _ _ _ _ _ _ E110 E').
  - intros s0. apply evolves_emit.
Qed.

Lemma processExportJob_progress_witness :
  ∃ s', runJob 11 0 (setHeap [ {| id := "export-1"; type := Str (lit "clients");
                                  format := Str (lit "csv"); status := "queued";
                                  progress := 0 |} ]
                       (setExportQueue [0%nat] (init true)))
        = (s', Finished) ∧
        map status (heap s') = ["completed"%string] ∧
        trace s' = jobEvents 0.
Proof.
  destruct (processExportJob_progress
              (setHeap [ {| id := "export-1"; type := Str (lit "clients");
                            format := Str (lit "csv"); status := "queued";
                            progress := 0 |} ]
                 (setExportQueue [0%nat] (init true))) 0%nat eq_refl)
    as (s10 & s' & _ & R & E & _).
  exists s'. split; [exact R |]. split.
  - by rewrite (ev_heap _ _ _ _ _ E).
  - by rewrite (ev_trace _ _ _ _ _ E).
Defined.

(** C2 speaks of any job. On a page with [#export-queue], the export form
    is submitted without a format: the job is queued and the render in
    [addToExportQueue] throws. When [processExportQueue] is then called,
    [processExportJob] runs for that job and the render that follows
    [job.status = 'processing'] throws: no progress is set, no delay is
    awaited, and the job is never completed. *)
Lemma unrenderable_job_makes_no_progress :
  ¬ (∀ s job, ∃ s10 s',
       runJob 10 job s = (s10, Awaiting 100) ∧
       runJob 11 job s = (s', Finished) ∧
       evolves s s' job (Some "completed"%string, Some 100) (jobEvents job) ∧
       ∀ s0, evolves s0 (downloadExportResult job s0) job (None, None) [ConsoleLog job]).
Proof.
  intros H.
  destruct (H (run (init true) [Submit 1 (Str (lit "clients")) Undefined]) 0%nat)
    as (s10 & s' & _ & R & _).
  assert (E : ∀ x, x = (s', Finished) → x.2 = Finished) by by intros ? ->.
  apply E in R. vm_compute in R. discriminate R.
Qed.

Example unrenderable_job_trace :
  let s := run (init true) [Submit 1 (Str (lit "clients")) Undefined] in
  exportQueue s = [0%nat] ∧ isProcessing s = false ∧
  (runJob 11 0 s).2 = Failed ∧
  trace (runJob 11 0 s).1 = trace s ++ [SetStatus 0 "processing"; Render].
Proof. repeat split; reflexivity. Qed.

(** The same happens to a job that has a format, in the middle of its
    run: a second export is submitted without a format while the first is
    waiting, and the first stops at progress 10. *)
Example job_interrupted_by_later_submission :
  let s := run (init true) [Submit 1 (Str (lit "clients")) (Str (lit "csv"));
                            Submit 2 (Str (lit "clients")) Undefined;
                            TimerFires 0] in
  (λ j, (status j, progress j)) <$> heap s !! 0%nat = Some ("failed"%string, 10).
Proof. reflexivity. Qed.

(** *** Draining the queue *)

Lemma evolves_setWaiting s w s' job q evs :
  evolves (setWaiting w s) s' job q evs → waiting s' = waiting s →
  evolves s s' job q evs.
Proof. intros [H Q F P W T V] Hw. by split. Qed.

Lemma renderThrows_shift s : renderThrows s = false → renderThrows (shift s) = false.
Proof.
  unfold renderThrows. simpl. destruct (queueContainer s); [| done]. simpl.
  rewrite !negb_false_iff. destruct (exportQueue s) as [|a q]; [done |]. simpl.
  replace (forallb (renders (shift s)) q) with (forallb (renders s) q) by done.
  rewrite andb_true_iff. tauto.
Qed.

(** The events of a job from its call to its first delay, and from there
    to its end. *)
Definition enterEvents (job : nat) : list event :=
  [SetStatus job "processing"; Render; SetProgress job 0; Render; Delay 500].

Definition restEvents (job : nat) : list event :=
  roundEvents job 0 10 ++ [SetStatus job "completed"; Render; ConsoleLog job].

Lemma jobEvents_split job : jobEvents job = enterEvents job ++ restEvents job.
Proof. reflexivity. Qed.

(** A single suspended call, in the middle of the job at the front. *)
Record processingFront (s : system) (job : nat) (p : Z) (rest : list nat) : Prop := {
  pf_waiting : waiting s = [(job, p)];
  pf_queue : exportQueue s = job :: rest;
  pf_flag : isProcessing s = true;
  pf_renders : renderThrows s = false
}.

Lemma timer_round s job p rest :
  processingFront s job p rest → p + 10 ≤ 100 →
  processingFront (step s (TimerFires 0)) job (p + 10) rest ∧
  trace (step s (TimerFires 0))
  = trace s ++ [SetProgress job (p + 10); Render; Delay 500].
Proof.
  intros [Hw Hq Hf Hr] Hp. unfold step. rewrite Hw. simpl.
  destruct (resume_queue_next_round job p (setWaiting [] s)) as (s1 & R & E);
    [done | done |].
  rewrite R. simpl.
  pose proof (renderThrows_evolves _ _ _ _ _ E) as Hr1.
  destruct E as [EH EQ EF EP EW ET EV]. simpl in EQ, EF, EW, ET.
  rewrite EW. simpl. split; [split; simpl |].
  - done.
  - by rewrite EQ.
  - by rewrite EF.
  - change (renderThrows s1 = false). by rewrite Hr1.
  - by rewrite ET.
Qed.

Lemma run_app s l1 l2 : run s (l1 ++ l2) = run (run s l1) l2.
Proof. apply fold_left_app. Qed.

Lemma run_cons s t l : run s (t :: l) = run (step s t) l.
Proof. reflexivity. Qed.

Lemma timer_rounds n s job p rest :
  processingFront s job p rest → p + 10 * Z.of_nat n ≤ 100 →
  processingFront (run s (repeat (TimerFires 0) n)) job (p + 10 * Z.of_nat n) rest ∧
  trace (run s (repeat (TimerFires 0) n)) = trace s ++ roundEvents job p n.
Proof.
  revert s p. induction n as [|n IH]; intros s p Hs Hp.
  - replace (p + 10 * Z.of_nat 0) with p by lia.
    split; [done | simpl; by rewrite app_nil_r].
  - simpl repeat. rewrite run_cons.
    destruct (timer_round s job p rest Hs) as [Hs1 T1]; [lia |].
    destruct (IH _ (p + 10) Hs1) as [Hs' T']; [lia |].
    replace (p + 10 * Z.of_nat (S n)) with (p + 10 + 10 * Z.of_nat n) by lia.
    split; [done |].
    by rewrite T', T1, roundEvents_S, <- app_assoc.
Qed.

(** The state of the queue object between two jobs, or at rest. *)
Definition atFront (s : system) (q : list nat) : Prop :=
  exportQueue s = q ∧ renderThrows s = false ∧
  match q with
  | [] => waiting s = [] ∧ isProcessing s = false
  | job :: _ => waiting s = [(job, 0)] ∧ isProcessing s = true
  end.

Lemma whileLoop_atFront s q :
  exportQueue s = q → renderThrows s = false →
  waiting s = [] → isProcessing s = true →
  atFront (park (whileLoop s)) q ∧
  trace (park (whileLoop s))
  = trace s ++ match q with job :: _ => enterEvents job | [] => [] end.
Proof.
  intros Hq Hr Hw Hf. destruct q as [|job rest].
  - rewrite whileLoop_empty by done. simpl.
    split; [by split_and! | by rewrite app_nil_r].
  - destruct (whileLoop_returns s job rest Hq Hr) as (s' & R & E).
    rewrite R. simpl. rewrite (ev_waiting _ _ _ _ _ E), Hw. simpl.
    split; [split_and!; simpl |].
    + by rewrite (ev_queue _ _ _ _ _ E).
    + change (renderThrows s' = false). by rewrite (renderThrows_evolves _ _ _ _ _ E).
    + done.
    + by rewrite (ev_flag _ _ _ _ _ E).
    + by rewrite (ev_trace _ _ _ _ _ E).
Qed.

Lemma timer_finishes s job rest :
  processingFront s job 100 rest →
  atFront (step s (TimerFires 0)) rest ∧
  trace (step s (TimerFires 0))
  = trace s ++ [SetStatus job "completed"; Render; ConsoleLog job]
    ++ match rest with next :: _ => enterEvents next | [] => [] end.
Proof.
  intros [Hw Hq Hf Hr]. unfold step. rewrite Hw. simpl.
  destruct (resume_queue_finishes job 100 (setWaiting [] s)) as (s1 & R & E);
    [done | lia |].
  rewrite R.
  destruct E as [EH EQ EF EP EW ET EV]. simpl in EQ, EF, EW, ET.
  destruct (whileLoop_atFront (shift s1) rest) as [Hfront Htrace].
  - simpl. by rewrite EQ, Hq.
  - apply renderThrows_shift.
    by rewrite (renderThrows_evolves _ _ _ _ _ (Build_evolves _ _ _ _ _ EH EQ EF EP EW ET EV)).
  - done.
  - simpl. by rewrite EF.
  - split; [done |]. rewrite Htrace. simpl.
    rewrite ET. by rewrite <- app_assoc.
Qed.

(** Eleven delays take the queue from one job to the next. *)
Lemma eleven_timers s job rest :
  atFront s (job :: rest) →
  atFront (run s (repeat (TimerFires 0) 11)) rest ∧
  trace (run s (repeat (TimerFires 0) 11))
  = trace s ++ restEvents job
    ++ match rest with next :: _ => enterEvents next | [] => [] end.
Proof.
  intros (Hq & Hr & Hw & Hf).
  change 11%nat with (10 + 1)%nat. rewrite repeat_app, run_app.
  change (repeat (TimerFires 0) 1) with [TimerFires 0].
  change (run (run s (repeat (TimerFires 0) 10)) [TimerFires 0])
    with (step (run s (repeat (TimerFires 0) 10)) (TimerFires 0)).
  destruct (timer_rounds 10 s job 0 rest) as [Hs10 T10]; [by split | lia |].
  simpl Z.add in Hs10.
  destruct (timer_finishes _ job rest Hs10) as [Hfront T11].
  split; [exact Hfront |].
  rewrite T11, T10. unfold restEvents. by rewrite <- !app_assoc.
Qed.

(** What has happened once the first [k] jobs are done. *)
Definition drainedEvents (q : list nat) (k : nat) : list event :=
  flat_map jobEvents (take k q)
  ++ match drop k q with next :: _ => enterEvents next | [] => [] end.

Lemma drainedEvents_S q k job rest :
  drop k q = job :: rest →
  drainedEvents q (S k)
  = flat_map jobEvents (take k q) ++ enterEvents job ++ restEvents job
    ++ match rest with next :: _ => enterEvents next | [] => [] end.
Proof.
  intros Hd. unfold drainedEvents.
  assert (Hk : q !! k = Some job).
  { rewrite <- (Nat.add_0_r k), <- lookup_drop, Hd. done. }
  assert (Hrest : drop (S k) q = rest).
  { replace (S k) with (k + 1)%nat by lia. by rewrite <- drop_drop, Hd. }
  rewrite (take_S_r _ _ _ Hk), flat_map_app, Hrest. cbn [flat_map].
  by rewrite app_nil_r, jobEvents_split, <- !app_assoc.
Qed.

(** Started on a queue that renders, with nothing else going on, the call
    and [11 * k] delays finish the first [k] jobs, in queue order. *)
Lemma drain_prefix k s :
  isProcessing s = false → waiting s = [] → renderThrows s = false →
  (k ≤ length (exportQueue s))%nat →
  let s' := run s (CallProcessExportQueue :: repeat (TimerFires 0) (11 * k)) in
  atFront s' (drop k (exportQueue s)) ∧
  trace s' = trace s ++ drainedEvents (exportQueue s) k.
Proof.
  intros Hf Hw Hr. induction k as [|k IH]; intros Hk s'; subst s'.
  - simpl repeat. rewrite run_cons. simpl run. unfold step, processExportQueue.
    rewrite Hf. simpl. rewrite drop_0.
    destruct (exportQueue s) as [|job rest] eqn:Hq; simpl.
    + split; [by split_and! | by rewrite app_nil_r].
    + destruct (whileLoop_atFront (setIsProcessing true s) (job :: rest))
        as [Hfront Htrace]; try done.
  - replace (11 * S k)%nat with (11 * k + 11)%nat by lia.
    rewrite repeat_app, app_comm_cons, run_app.
    destruct IH as [Hfront Htrace]; [lia |].
    destruct (drop k (exportQueue s)) as [|job rest] eqn:Hd.
    { apply (f_equal length) in Hd. rewrite length_drop in Hd. simpl in Hd. lia. }
    destruct (eleven_timers _ job rest Hfront) as [Hfront' Htrace'].
    split.
    + replace (drop (S k) (exportQueue s)) with rest; [done |].
      replace (S k) with (k + 1)%nat by lia. by rewrite <- drop_drop, Hd.
    + rewrite Htrace', Htrace, (drainedEvents_S _ _ _ _ Hd).
      unfold drainedEvents. rewrite Hd. by rewrite <- !app_assoc.
Qed.

(** C4. When [processExportQueue] is called with no call of it in
    progress, on a queue whose rendering does not throw, and only its own
    delays elapse afterwards, then after the delays of [k] jobs exactly
    the first [k] jobs have left the queue, each having run from start to
    end in queue order; after the delays of all jobs the queue is empty,
    [isProcessing] is false and no call is left suspended. *)
Theorem processExportQueue_drains (s : system) :
  isProcessing s = false → waiting s = [] → renderThrows s = false →
  (∀ k, (k ≤ length (exportQueue s))%nat →
     let s' := run s (CallProcessExportQueue :: repeat (TimerFires 0) (11 * k)) in
     exportQueue s' = drop k (exportQueue s) ∧
     trace s' = trace s ++ drainedEvents (exportQueue s) k) ∧
  let s' := run s (CallProcessExportQueue
                     :: repeat (TimerFires 0) (11 * length (exportQueue s))) in
  exportQueue s' = [] ∧ isProcessing s' = false ∧ waiting s' = [] ∧
  trace s' = trace s ++ flat_map jobEvents (exportQueue s).
Proof.
  intros Hf Hw Hr. split.
  - intros k Hk. destruct (drain_prefix k s Hf Hw Hr Hk) as [(Hq & _) Ht]. done.
  - destruct (drain_prefix (length (exportQueue s)) s Hf Hw Hr) as [Hfront Ht]; [done |].
    rewrite drop_all in Hfront. destruct Hfront as (Hq & _ & Hw' & Hf').
    split_and!; try done.
    rewrite Ht. unfold drainedEvents. by rewrite drop_all, firstn_all, app_nil_r.
Qed.

Definition sampleJob (fmt : jsValue) : exportJob :=
  {| id := "export-1"; type := Str (lit "clients"); format := fmt;
     status := "queued"; progress := 0 |}.

Lemma processExportQueue_drains_witness :
  let s := setHeap [sampleJob (Str (lit "csv")); sampleJob File]
             (setExportQueue [0; 1]%nat (init false)) in
  let s' := run s (CallProcessExportQueue :: repeat (TimerFires 0) 22) in
  exportQueue s' = [] ∧ isProcessing s' = false ∧ waiting s' = [] ∧
  trace s' = jobEvents 0 ++ jobEvents 1.
Proof.
  intros s. exact (proj2 (processExportQueue_drains s eq_refl eq_refl eq_refl)).
Defined.

(** *** A job that fails *)

(** Whenever [processExportJob] throws for the job at the front, the call
    of [processExportQueue] ends in a throw of its own: the job is marked
    failed and stays at the front, and [isProcessing] is still true. *)
Lemma processExportQueue_failure (s : system) (job : nat) (rest : list nat) :
  exportQueue s = job :: rest → isProcessing s = false →
  (processExportJob job (setIsProcessing true s)).2 = Threw →
  ∃ s', processExportQueue s = (s', Ended Threw) ∧
        isProcessing s' = true ∧ exportQueue s' = job :: rest ∧
        waiting s' = waiting s ∧
        heap s' = alter (patchJob (Some "failed"%string, None)) job (heap s).
Proof.
  intros Hq Hf Hthrow. rewrite processExportJob_outcome in Hthrow.
  destruct (renderThrows (setIsProcessing true s)) eqn:Hr; [| done].
  unfold processExportQueue. rewrite Hf, Hq. simpl.
  destruct (whileLoop_throws (setIsProcessing true s) job rest Hq Hr) as (s' & R & E).
  exists s'. destruct E as [EH EQ EF EP EW ET EV]. simpl in *.
  split_and!; try done; congruence.
Qed.

Lemma processExportQueue_resume_failure (s : system) (job : nat) (p : Z) :
  (processExportJob_resume job p s).2 = Failed →
  ∃ s' q, processExportQueue_resume job p s = (s', Ended Threw) ∧
        isProcessing s' = isProcessing s ∧ exportQueue s' = exportQueue s ∧
        waiting s' = waiting s ∧
        heap s' = alter (patchJob (Some "failed"%string, q)) job (heap s).
Proof.
  intros Hthrow. apply processExportJob_resume_outcome in Hthrow.
  destruct (resume_queue_throws job p s Hthrow) as (s' & q & evs & R & E & _).
  exists s', q. destruct E as [EH EQ EF EP EW ET EV]. by split_and!.
Qed.

(** With the flag left set and no call suspended, no task processes
    anything any more: submissions only join the queue. *)
Lemma stuck_forever (s : system) (t : task) :
  isProcessing s = true → waiting s = [] →
  let s' := step s t in
  isProcessing s' = true ∧ waiting s' = [] ∧
  (∀ job j, heap s !! job = Some j → heap s' !! job = Some j) ∧
  ∃ new, exportQueue s' = exportQueue s ++ new.
Proof.
  intros Hf Hw. destruct t as [now ty fmt|k|present|]; simpl.
  - unfold handleExport, addToExportQueue. rewrite renderExportQueue_eq.
    match goal with |- context [if ?b then Threw else _] => destruct b end; simpl.
    + split_and!; try done.
      * intros job j Hj. by apply lookup_app_l_Some.
      * by eexists.
    + unfold processExportQueue. simpl. rewrite Hf. simpl. split_and!; try done.
      * intros job j Hj. by apply lookup_app_l_Some.
      * by eexists.
  - rewrite Hw. simpl. split_and!; try done. exists []. by rewrite app_nil_r.
  - split_and!; try done. exists []. by rewrite app_nil_r.
  - unfold processExportQueue. rewrite Hf. simpl.
    split_and!; try done. exists []. by rewrite app_nil_r.
Qed.

Definition goodSubmit (now : Z) : task :=
  Submit now (Str (lit "clients")) (Str (lit "csv")).

Definition badSubmit (now : Z) : task :=
  Submit now (Str (lit "clients")) Undefined.

(** On a page with the container: one export is submitted with a format,
    a second one without; at the next delay the render throws. The first
    job is marked failed and stays at the front, the call ends with
    [isProcessing] still true, and a later export is never started. *)
Theorem failure_leaves_isProcessing_set :
  let s := run (init true) [goodSubmit 1; badSubmit 2; TimerFires 0] in
  let s' := run s [goodSubmit 3; CallProcessExportQueue; TimerFires 0] in
  map status (heap s) = ["failed"; "queued"]%string ∧
  exportQueue s = [0; 1]%nat ∧ waiting s = [] ∧ isProcessing s = true ∧
  map status (heap s') = ["failed"; "queued"; "queued"]%string ∧
  exportQueue s' = [0; 1; 2]%nat ∧ waiting s' = [] ∧ isProcessing s' = true.
Proof. vm_compute. by repeat split. Qed.

(** The same on a direct call with a job at the front that cannot be
    rendered. *)
Example processExportQueue_unrenderable_front :
  let s := setHeap [sampleJob Undefined] (setExportQueue [0%nat] (init true)) in
  (processExportQueue s).2 = Ended Threw ∧
  isProcessing (processExportQueue s).1 = true ∧
  map status (heap (processExportQueue s).1) = ["failed"%string].
Proof. vm_compute. by repeat split. Qed.

(** *** What holds in every reachable state *)

Definition statusAt (s : system) (job : nat) : option string :=
  status <$> heap s !! job.

Definition progressAt (s : system) (job : nat) : option Z :=
  progress <$> heap s !! job.

Definition allQueued (s : system) (l : list nat) : Prop :=
  Forall (λ b, statusAt s b = Some "queued"%string) l.

(** The status a job was created with and the values assigned to its
    status since, oldest first. *)
Definition statusEvent (job : nat) (e : event) : option string :=
  match e with
  | Created b v _ => if decide (b = job) then Some v else None
  | SetStatus b v => if decide (b = job) then Some v else None
  | _ => None
  end.

Definition statusHistory (job : nat) (tr : list event) : list string :=
  omap (statusEvent job) tr.

(** A multiple of 10 between 0 and 100. *)
Definition decade (v : Z) : Prop := ∃ k, v = 10 * k ∧ 0 ≤ k ≤ 10.

(** The histories that occur, with the status they end in. *)
Definition lifecycle (h : list string) (now : string) : Prop :=
  (now = "queued" ∧ h = ["queued"])%string ∨
  (now = "processing" ∧ h = ["queued"; "processing"])%string ∨
  (now = "completed" ∧ h = ["queued"; "processing"; "completed"])%string ∨
  (now = "failed" ∧
     (h = ["queued"; "processing"; "failed"] ∨
      h = ["queued"; "processing"; "completed"; "failed"]))%string.

Definition eventOk (e : event) : Prop :=
  match e with
  | Created _ v p => v = "queued"%string ∧ p = 0
  | SetStatus _ v => (v = "processing" ∨ v = "completed" ∨ v = "failed")%string
  | SetProgress _ p => decade p
  | _ => True
  end.

(** How many entries of a rendered queue are being processed. *)
Definition processingCount (v : list (string * Z)) : nat :=
  length (filter (λ x, x.1 = "processing"%string) v).

(** The three situations the queue object can be in between two tasks:
    no call in progress; one call suspended in the job at the front; or
    the flag left set by a call that ended in a throw. *)
Inductive shape (s : system) : Prop :=
| Idle :
    waiting s = [] → isProcessing s = false →
    allQueued s (exportQueue s) → shape s
| Busy job p rest :
    waiting s = [(job, p)] → isProcessing s = true →
    exportQueue s = job :: rest →
    statusAt s job = Some "processing"%string → progressAt s job = Some p →
    decade p → allQueued s rest → shape s
| Stuck job rest :
    waiting s = [] → isProcessing s = true →
    exportQueue s = job :: rest →
    statusAt s job = Some "failed"%string →
    allQueued s rest → shape s.

Record sound (s : system) : Prop := {
  snd_refs : Forall (λ b, (b < length (heap s))%nat) (exportQueue s);
  snd_nodup : NoDup (exportQueue s);
  snd_jobs : ∀ job j, heap s !! job = Some j →
      lifecycle (statusHistory job (trace s)) (status j) ∧ decade (progress j);
  snd_fresh : ∀ job, (length (heap s) ≤ job)%nat → statusHistory job (trace s) = [];
  snd_events : Forall eventOk (trace s);
  snd_views : Forall (λ v, (processingCount v ≤ 1)%nat) (views s)
}.

Definition consistent (s : system) : Prop := sound s ∧ shape s.

Lemma statusHistory_app job tr1 tr2 :
  statusHistory job (tr1 ++ tr2) = statusHistory job tr1 ++ statusHistory job tr2.
Proof. apply omap_app. Qed.

Lemma decade_0 : decade 0.
Proof. exists 0. lia. Qed.

Lemma decade_next p : decade p → p + 10 ≤ 100 → decade (p + 10).
Proof. intros (k & -> & Hk) Hp. exists (k + 1). lia. Qed.

Lemma decade_last p : decade p → 100 < p + 10 → p = 100.
Proof. intros (k & -> & Hk) Hp. lia. Qed.

Lemma decade_spec v : decade v ↔ 0 ≤ v ≤ 100 ∧ (10 | v).
Proof.
  split.
  - intros (k & -> & Hk). split; [lia |]. exists k. lia.
  - intros [Hv [k ->]]. exists k. lia.
Qed.

(** Entries of queued jobs do not count. *)
Lemma processingCount_queued (h : list exportJob) (l : list nat) :
  Forall (λ b, status <$> h !! b = Some "queued"%string) l →
  filter (λ x : string * Z, x.1 = "processing"%string)
    (omap (λ job, (λ j, (status j, progress j)) <$> h !! job) l) = [].
Proof.
  induction 1 as [|b l Hb _ IH]; [done |].
  simpl. destruct (h !! b) as [j|]; simpl in *; [| done].
  injection Hb as Hb. rewrite filter_cons_False; [done |]. simpl. by rewrite Hb.
Qed.

Lemma processingCount_front (h : list exportJob) (job : nat) (rest : list nat) :
  Forall (λ b, status <$> h !! b = Some "queued"%string) rest →
  (processingCount
     (omap (λ job, (λ j, (status j, progress j)) <$> h !! job) (job :: rest)) ≤ 1)%nat.
Proof.
  intros Hrest. unfold processingCount. simpl.
  destruct (h !! job) as [j|]; simpl.
  - destruct (decide (status j = "processing"%string)).
    + rewrite filter_cons_True by done. simpl.
      rewrite processingCount_queued by done. simpl. lia.
    + rewrite filter_cons_False by done.
      rewrite processingCount_queued by done. simpl. lia.
  - rewrite processingCount_queued by done. simpl. lia.
Qed.

Lemma allQueued_alter (s s' : system) (job : nat) (f : exportJob → exportJob)
    (l : list nat) :
  heap s' = alter f job (heap s) → job ∉ l → allQueued s l → allQueued s' l.
Proof.
  intros Hh Hnot Hall. unfold allQueued, statusAt in *. rewrite Hh.
  induction Hall as [|b l Hb _ IH]; constructor.
  - rewrite list_lookup_alter_ne; [done |]. intros ->. apply Hnot. by left.
  - apply IH. intros Hin. apply Hnot. by right.
Qed.

(** In each of the three situations at most one queued job is being
    processed. *)
Lemma shape_snapshot (s : system) :
  shape s → (processingCount (snapshot s) ≤ 1)%nat.
Proof.
  unfold snapshot. intros [Hw Hf Hall | job p rest Hw Hf Hq Hs Hp Hd Hall
                          | job rest Hw Hf Hq Hs Hall].
  - unfold processingCount. rewrite processingCount_queued by done. simpl. lia.
  - rewrite Hq. by apply processingCount_front.
  - rewrite Hq. by apply processingCount_front.
Qed.

Lemma sound_setIsProcessing b s : sound s → sound (setIsProcessing b s).
Proof. intros []. by split. Qed.

Lemma sound_setWaiting w s : sound s → sound (setWaiting w s).
Proof. intros []. by split. Qed.

Lemma sound_setQueueContainer b s : sound s → sound (setQueueContainer b s).
Proof. intros []. by split. Qed.

Lemma sound_shift s : sound s → sound (shift s).
Proof.
  intros [Hrefs Hnodup Hjobs Hfresh Hev Hviews]. split; simpl; try done.
  - destruct (exportQueue s); [done | by inversion Hrefs].
  - destruct (exportQueue s); [done | by inversion Hnodup].
Qed.

(** Script that only writes to the job at the front keeps the state
    sound, provided the history it gives that job is one of the
    lifecycle. *)
Lemma sound_evolves s s' job rest q evs :
  sound s → exportQueue s = job :: rest → allQueued s rest →
  evolves s s' job q evs →
  Forall eventOk evs →
  (∀ b, b ≠ job → statusHistory b evs = []) →
  (∀ j, heap s !! job = Some j →
     lifecycle (statusHistory job (trace s) ++ statusHistory job evs)
       (status (patchJob q j)) ∧
     decade (progress (patchJob q j))) →
  sound s' ∧ allQueued s' rest ∧
  ∃ j, heap s !! job = Some j ∧ heap s' !! job = Some (patchJob q j).
Proof.
  intros [Hrefs Hnodup Hjobs Hfresh Hev Hviews] Hq Hrest
         [EH EQ EF EP EW ET (vs & EV & Hvs)] Hevs Hothers Hjob.
  assert (Hnot : job ∉ rest).
  { rewrite Hq in Hnodup. by inversion Hnodup. }
  assert (Hlt : (job < length (heap s))%nat).
  { rewrite Hq in Hrefs. by inversion Hrefs. }
  destruct (lookup_lt_is_Some_2 _ _ Hlt) as [j Hj].
  split_and!.
  - split.
    + by rewrite EQ, EH, length_alter.
    + by rewrite EQ.
    + intros b j' Hb. rewrite ET, statusHistory_app. rewrite EH in Hb.
      destruct (decide (b = job)) as [-> | Hne].
      * rewrite list_lookup_alter_eq, Hj in Hb. injection Hb as <-. by apply Hjob.
      * rewrite list_lookup_alter_ne in Hb by done.
        rewrite (Hothers b Hne), app_nil_r. by apply Hjobs.
    + intros b Hb. rewrite EH, length_alter in Hb.
      rewrite ET, statusHistory_app, (Hfresh b Hb), Hothers; [done | lia].
    + rewrite ET. by apply Forall_app.
    + rewrite EV. apply Forall_app. split; [done |].
      eapply Forall_impl; [exact Hvs |]. intros v [r ->].
      unfold snapshot. simpl. rewrite Hq. apply processingCount_front.
      apply (allQueued_alter s (setHeap (alter (patchJob r) job (heap s)) s)
               job (patchJob r) rest eq_refl Hnot Hrest).
  - by apply (allQueued_alter s s' job (patchJob q) rest EH Hnot Hrest).
  - exists j. split; [done |]. by rewrite EH, list_lookup_alter_eq, Hj.
Qed.

(** The status of a queued job has seen no assignment yet. *)
Lemma queued_history s job j :
  sound s → heap s !! job = Some j → status j = "queued"%string →
  statusHistory job (trace s) = ["queued"%string].
Proof.
  intros Hs Hj Hst. destruct (snd_jobs s Hs job j Hj) as [Hl _].
  rewrite Hst in Hl.
  destruct Hl as [[_ ?] | [[? _] | [[? _] | [? _]]]]; done.
Qed.

Lemma processing_history s job j :
  sound s → heap s !! job = Some j → status j = "processing"%string →
  statusHistory job (trace s) = ["queued"; "processing"]%string.
Proof.
  intros Hs Hj Hst. destruct (snd_jobs s Hs job j Hj) as [Hl _].
  rewrite Hst in Hl.
  destruct Hl as [[? _] | [[_ ?] | [[? _] | [? _]]]]; done.
Qed.

(** The obligations on a concrete list of events. *)
Ltac events :=
  first
    [ by (repeat (apply List.Forall_cons;
                  [simpl; eauto 6 using decade_0, decade_next |]);
          apply List.Forall_nil)
    | by (intros ? ?; simpl; repeat case_decide; congruence) ].

Ltac history :=
  unfold statusHistory; simpl; repeat (rewrite decide_True by done); simpl.

Lemma statusAt_Some s job v :
  statusAt s job = Some v → ∃ j, heap s !! job = Some j ∧ status j = v.
Proof.
  unfold statusAt. destruct (heap s !! job) as [j|]; [| done].
  intros [= <-]. by exists j.
Qed.

(** A call of [processExportQueue] keeps the state consistent. *)
Lemma consistent_call s : consistent s → consistent (park (processExportQueue s)).
Proof.
  intros [Hs Hsh]. unfold processExportQueue.
  destruct (isProcessing s) eqn:Hf; simpl; [done |].
  destruct (exportQueue s) as [|job rest] eqn:Hq; simpl; [done |].
  destruct Hsh as [Hw _ Hall | job' p rest' _ Hf' | job' rest' _ Hf']; [| congruence ..].
  rewrite Hq in Hall. inversion Hall as [|? ? Hjob Hrest]; subst.
  destruct (statusAt_Some _ _ _ Hjob) as (j & Hj & Hst).
  pose proof (sound_setIsProcessing true s Hs) as Hsa.
  destruct (renderThrows (setIsProcessing true s)) eqn:Hr.
  - destruct (whileLoop_throws (setIsProcessing true s) job rest Hq Hr) as (s' & R & E).
    rewrite R. simpl.
    destruct (sound_evolves _ s' job rest _ _ Hsa Hq Hrest E)
      as (Hs' & Hall' & j' & Hj' & Hj''); [events | events | |].
    { intros j0 Hj0. simpl in Hj0. rewrite Hj in Hj0. injection Hj0 as <-.
      simpl trace. rewrite (queued_history s job j Hs Hj Hst). history.
      split; [| apply (snd_jobs s Hs job j Hj)].
      right; right; right. split; [done | by left]. }
    split; [done |].
    destruct E as [EH EQ EF EP EW ET EV]. simpl in *.
    apply (Stuck s' job rest); try congruence.
    unfold statusAt. by rewrite Hj''.
  - destruct (whileLoop_returns (setIsProcessing true s) job rest Hq Hr) as (s' & R & E).
    rewrite R. simpl.
    destruct (sound_evolves _ s' job rest _ _ Hsa Hq Hrest E)
      as (Hs' & Hall' & j' & Hj' & Hj''); [events | events | |].
    { intros j0 Hj0. simpl in Hj0. rewrite Hj in Hj0. injection Hj0 as <-.
      simpl trace. rewrite (queued_history s job j Hs Hj Hst). history.
      split; [right; left; by split | apply decade_0]. }
    destruct E as [EH EQ EF EP EW ET EV]. simpl in *.
    split; [by apply sound_setWaiting |].
    rewrite EW, Hw. simpl.
    apply (Busy _ job 0 rest); simpl; try congruence.
    + unfold statusAt. simpl. by rewrite Hj''.
    + unfold progressAt. simpl. by rewrite Hj''.
    + apply decade_0.
    + exact Hall'.
Qed.

Lemma statusAt_push (s s2 : system) (new : exportJob) (b : nat) :
  heap s2 = heap s ++ [new] → (b < length (heap s))%nat →
  statusAt s2 b = statusAt s b ∧ progressAt s2 b = progressAt s b.
Proof.
  intros Hh Hb. unfold statusAt, progressAt. by rewrite Hh, lookup_app_l.
Qed.

Lemma allQueued_push (s s2 : system) (new : exportJob) (l : list nat) :
  heap s2 = heap s ++ [new] → Forall (λ b, (b < length (heap s))%nat) l →
  allQueued s l → allQueued s2 l.
Proof.
  intros Hh Hl Hall. unfold allQueued in *.
  induction Hall as [|b l Hb _ IH]; constructor.
  - inversion Hl; subst. by rewrite (proj1 (statusAt_push s s2 new b Hh ltac:(done))).
  - inversion Hl; subst. by apply IH.
Qed.

(** A freshly created job joining the queue, and the render that
    follows. *)
Lemma consistent_pushed (s s2 : system) (new : exportJob) :
  consistent s →
  status new = "queued"%string → progress new = 0 →
  heap s2 = heap s ++ [new] →
  exportQueue s2 = exportQueue s ++ [length (heap s)] →
  isProcessing s2 = isProcessing s → waiting s2 = waiting s →
  trace s2 = trace s ++ [Created (length (heap s)) "queued" 0; Render] →
  views s2 = views s ++ [snapshot s2] →
  consistent s2.
Proof.
  intros [[Hrefs Hnodup Hjobs Hfresh Hev Hviews] Hsh] Hst Hpr Hh Hq Hf Hw Ht Hv.
  assert (Hnew : heap s2 !! length (heap s) = Some new).
  { rewrite Hh, lookup_app_r, Nat.sub_diag by done. done. }
  assert (Hnewq : statusAt s2 (length (heap s)) = Some "queued"%string).
  { unfold statusAt. by rewrite Hnew, <- Hst. }
  assert (Hshape : shape s2).
  { destruct Hsh as [Hw0 Hf0 Hall | job p rest Hw0 Hf0 Hq0 Hs0 Hp0 Hd Hall
                    | job rest Hw0 Hf0 Hq0 Hs0 Hall].
    - apply Idle; [congruence | congruence |]. rewrite Hq.
      apply Forall_app. split; [by eapply allQueued_push | by repeat constructor].
    - rewrite Hq0 in Hrefs. inversion Hrefs as [|? ? Hjob Hrest]; subst.
      destruct (statusAt_push s s2 new job Hh Hjob) as [Hs2 Hp2].
      apply (Busy s2 job p (rest ++ [length (heap s)])); try congruence.
      + by rewrite Hq, Hq0.
      + apply Forall_app. split; [by eapply allQueued_push | by repeat constructor].
    - rewrite Hq0 in Hrefs. inversion Hrefs as [|? ? Hjob Hrest]; subst.
      destruct (statusAt_push s s2 new job Hh Hjob) as [Hs2 Hp2].
      apply (Stuck s2 job (rest ++ [length (heap s)])); try congruence.
      + by rewrite Hq, Hq0.
      + apply Forall_app. split; [by eapply allQueued_push | by repeat constructor]. }
  split; [| exact Hshape]. split.
  - rewrite Hq, Hh, length_app. simpl. apply Forall_app. split.
    + eapply Forall_impl; [exact Hrefs |]. simpl. lia.
    + repeat constructor. lia.
  - rewrite Hq. apply NoDup_app. split_and!; [done | | apply NoDup_singleton].
    intros b Hb Hin. apply list_elem_of_singleton in Hin. subst b.
    rewrite Forall_forall in Hrefs. specialize (Hrefs _ Hb). lia.
  - intros b j Hb. rewrite Ht, statusHistory_app. rewrite Hh in Hb.
    destruct (decide (b = length (heap s))) as [-> | Hne].
    + rewrite lookup_app_r, Nat.sub_diag in Hb by done. injection Hb as <-.
      rewrite (Hfresh _ (le_n _)). history. rewrite Hst, Hpr.
      split; [left; by split | apply decade_0].
    + assert (Hlt : (b < length (heap s))%nat).
      { apply lookup_lt_Some in Hb. rewrite length_app in Hb. simpl in Hb. lia. }
      rewrite lookup_app_l in Hb by done.
      replace (statusHistory b [Created (length (heap s)) "queued" 0; Render]) with (@nil string).
      * rewrite app_nil_r. by apply Hjobs.
      * simpl. by rewrite decide_False by done.
  - intros b Hb. rewrite Hh, length_app in Hb. simpl in Hb.
    rewrite Ht, statusHistory_app, Hfresh by lia.
    simpl. rewrite decide_False by lia. done.
  - rewrite Ht. apply Forall_app. split; [done |]. by repeat constructor.
  - rewrite Hv. apply Forall_app. split; [done |].
    constructor; [by apply shape_snapshot | constructor].
Qed.

(** [handleExport] keeps the state consistent. *)
Lemma consistent_submit s now data_type fmt :
  consistent s → consistent (handleExport now data_type fmt s).
Proof.
  intros Hs. unfold handleExport, addToExportQueue.
  rewrite renderExportQueue_eq.
  match goal with
  | |- context [addView ?v ?s0] =>
      assert (Hpushed : consistent (addView v s0))
  end.
  { eapply (consistent_pushed s); try done; try reflexivity.
    simpl. by rewrite <- app_assoc. }
  match goal with |- context [if ?b then Threw else _] => destruct b end.
  - exact Hpushed.
  - by apply consistent_call.
Qed.

(** A delay that elapses keeps the state consistent. *)
Lemma consistent_timer s k : consistent s → consistent (step s (TimerFires k)).
Proof.
  intros [Hs Hsh]. unfold step.
  destruct Hsh as [Hw Hf Hall | job p rest Hw Hf Hq Hst Hpr Hd Hall
                  | job rest Hw Hf Hq Hst Hall].
  - rewrite Hw. simpl. split; [done | by apply Idle].
  - rewrite Hw. destruct k as [|k]; simpl;
      [| split; [done | by eapply Busy]].
    destruct (statusAt_Some _ _ _ Hst) as (j & Hj & Hstj).
    assert (Hprj : progress j = p).
    { unfold progressAt in Hpr. rewrite Hj in Hpr. by injection Hpr. }
    pose proof (sound_setWaiting [] s Hs) as Hsa.
    pose proof (processing_history s job j Hs Hj Hstj) as Hhist.
    destruct (renderThrows (setWaiting [] s)) eqn:Hr.
    + destruct (resume_queue_throws job p (setWaiting [] s) Hr)
        as (s' & q & evs & R & E & Hcase).
      rewrite R. simpl.
      assert (Hok : sound s' ∧ allQueued s' rest ∧
                ∃ j0, heap s !! job = Some j0 ∧
                      heap s' !! job = Some (patchJob (Some "failed"%string, q) j0)).
      { destruct Hcase as [(Hp & -> & ->) | (Hp & -> & ->)].
        - apply (sound_evolves _ s' job rest _ _ Hsa Hq Hall E).
          + events.
          + events.
          + intros j0 Hj0. simpl in Hj0. rewrite Hj in Hj0. injection Hj0 as <-.
            simpl trace. rewrite Hhist. history.
            split; [| by apply decade_next].
            right; right; right. split; [done | by left].
        - apply (sound_evolves _ s' job rest _ _ Hsa Hq Hall E).
          + events.
          + events.
          + intros j0 Hj0. simpl in Hj0. rewrite Hj in Hj0. injection Hj0 as <-.
            simpl trace. rewrite Hhist. history.
            split; [| apply (snd_jobs s Hs job j Hj)].
            right; right; right. split; [done | by right]. }
      destruct Hok as (Hs' & Hall' & j0 & Hj0 & Hj0').
      destruct E as [EH EQ EF EP EW ET EV]. simpl in *.
      split; [done |].
      apply (Stuck s' job rest); try congruence.
      unfold statusAt. by rewrite Hj0'.
    + destruct (Z_le_gt_dec (p + 10) 100) as [Hp | Hp].
      * destruct (resume_queue_next_round job p (setWaiting [] s) Hr Hp)
          as (s' & R & E).
        rewrite R. simpl.
        destruct (sound_evolves _ s' job rest _ _ Hsa Hq Hall E)
          as (Hs' & Hall' & j0 & Hj0 & Hj0').
        { events. }
        { events. }
        { intros j0 Hj0. simpl in Hj0. rewrite Hj in Hj0. injection Hj0 as <-.
          simpl trace. rewrite Hhist. history. rewrite Hstj.
          split; [right; left; by split | by apply decade_next]. }
        destruct E as [EH EQ EF EP EW ET EV]. simpl in *.
        split; [by apply sound_setWaiting |].
        rewrite EW. simpl.
        apply (Busy _ job (p + 10) rest); simpl; try congruence.
        -- unfold statusAt. simpl. rewrite Hj0'. simpl.
           rewrite Hj in Hj0. injection Hj0 as <-. by rewrite Hstj.
        -- unfold progressAt. simpl. by rewrite Hj0'.
        -- by apply decade_next.
        -- exact Hall'.
      * destruct (resume_queue_finishes job p (setWaiting [] s) Hr)
          as (s1 & R & E); [lia |].
        rewrite R.
        destruct (sound_evolves _ s1 job rest _ _ Hsa Hq Hall E)
          as (Hs1 & Hall1 & j0 & Hj0 & Hj0').
        { events. }
        { events. }
        { intros j0 Hj0. simpl in Hj0. rewrite Hj in Hj0. injection Hj0 as <-.
          simpl trace. rewrite Hhist. history.
          split; [| apply (snd_jobs s Hs job j Hj)].
          right; right; left. by split. }
        pose proof (renderThrows_evolves _ _ _ _ _ E) as Hr1. rewrite Hr in Hr1.
        destruct E as [EH EQ EF EP EW ET EV]. simpl in EQ, EF, EW.
        pose proof (sound_shift s1 Hs1) as Hsb.
        assert (Hqb : exportQueue (shift s1) = rest).
        { simpl. by rewrite EQ, Hq. }
        destruct rest as [|b rest'].
        -- rewrite whileLoop_empty by done. simpl.
           split; [by apply sound_setIsProcessing |].
           apply Idle; simpl; [done | done |]. rewrite EQ, Hq. constructor.
        -- inversion Hall1 as [|? ? Hb Hrest']; subst.
           destruct (statusAt_Some _ _ _ Hb) as (jb & Hjb & Hstb).
           destruct (whileLoop_returns (shift s1) b rest' Hqb) as (s2 & R2 & E2).
           { by apply renderThrows_shift. }
           rewrite R2. simpl.
           destruct (sound_evolves _ s2 b rest' _ _ Hsb Hqb Hrest' E2)
             as (Hs2 & Hall2 & jb0 & Hjb0 & Hjb0').
           { events. }
           { events. }
           { intros jb1 Hjb1. simpl in Hjb1. rewrite Hjb in Hjb1. injection Hjb1 as <-.
             simpl trace. rewrite (queued_history s1 b jb Hs1 Hjb Hstb). history.
             split; [right; left; by split | apply decade_0]. }
           destruct E2 as [EH2 EQ2 EF2 EP2 EW2 ET2 EV2]. simpl in *.
           split; [by apply sound_setWaiting |].
           rewrite EW2, EW. simpl.
           apply (Busy _ b 0 rest'); simpl; try congruence.
           ++ unfold statusAt. simpl. by rewrite Hjb0'.
           ++ unfold progressAt. simpl. by rewrite Hjb0'.
           ++ apply decade_0.
           ++ exact Hall2.
  - rewrite Hw. simpl. split; [done | by eapply Stuck].
Qed.

Lemma consistent_init container : consistent (init container).
Proof.
  split; [| apply Idle; [done | done | constructor]].
  split; simpl; try done; by constructor.
Qed.

Lemma consistent_step s t : consistent s → consistent (step s t).
Proof.
  intros Hs. destruct t as [now data_type fmt | k | present |].
  - by apply consistent_submit.
  - by apply consistent_timer.
  - destruct Hs as [Hs Hsh]. split; [by apply sound_setQueueContainer |].
    destruct Hsh; [by apply Idle | by eapply Busy | by eapply Stuck].
  - by apply consistent_call.
Qed.

Lemma consistent_run s tasks : consistent s → consistent (run s tasks).
Proof.
  revert s. induction tasks as [|t tasks IH]; intros s Hs; [done |].
  rewrite run_cons. by apply IH, consistent_step.
Qed.

Lemma shape_waiting s :
  shape s → (length (waiting s) ≤ 1)%nat ∧ (waiting s ≠ [] → isProcessing s = true).
Proof.
  intros [Hw Hf _ | job p rest Hw Hf _ _ _ _ _ | job rest Hw Hf _ _ _];
    rewrite Hw; simpl; split; try done; lia.
Qed.

(** C1. A call of [processExportQueue] made while [isProcessing] is true
    or the queue is empty returns at once and leaves everything as it
    was. In every state reached from the constructor by form submissions,
    elapsing delays, changes of the page and calls of
    [processExportQueue], at most one call is suspended, the flag is set
    whenever one is, and at most one queued job has status processing;
    the same holds of the queue at each call of [renderExportQueue]. *)
Theorem one_job_at_a_time :
  (∀ s, isProcessing s = true ∨ exportQueue s = [] →
        processExportQueue s = (s, Ended (Returned tt))) ∧
  (∀ container tasks,
     let s := run (init container) tasks in
     (length (waiting s) ≤ 1)%nat ∧
     (waiting s ≠ [] → isProcessing s = true) ∧
     (processingCount (snapshot s) ≤ 1)%nat ∧
     Forall (λ v, (processingCount v ≤ 1)%nat) (views s)).
Proof.
  split.
  - intros s [Hf | Hq]; unfold processExportQueue.
    + by rewrite Hf.
    + rewrite Hq. simpl. by rewrite orb_true_r.
  - intros container tasks s.
    destruct (consistent_run (init container) tasks (consistent_init container))
      as [Hs Hsh].
    destruct (shape_waiting _ Hsh) as [Hlen Hflag].
    split_and!; [done | done | by apply shape_snapshot | apply (snd_views _ Hs)].
Qed.

Lemma one_job_at_a_time_witness :
  let s := run (init true) [goodSubmit 1; goodSubmit 2; TimerFires 0] in
  processExportQueue s = (s, Ended (Returned tt)) ∧
  (processingCount (snapshot s) ≤ 1)%nat.
Proof.
  intros s. split.
  - apply (proj1 one_job_at_a_time s). left. reflexivity.
  - apply (proj2 one_job_at_a_time true [goodSubmit 1; goodSubmit 2; TimerFires 0]).
Defined.

(** The status histories C10 allows: a start of queued, processing,
    completed or of queued, processing, failed. *)
Definition claimedHistory (h : list string) : Prop :=
  h `prefix_of` ["queued"; "processing"; "completed"]%string ∨
  h `prefix_of` ["queued"; "processing"; "failed"]%string.

(** One export is submitted with a format and runs up to progress 100; a
    second one is submitted without a format; the render after the first
    one has been marked completed throws. *)
Definition completedThenFailed : list task :=
  [goodSubmit 1] ++ repeat (TimerFires 0) 10 ++ [badSubmit 2; TimerFires 0].

(** A job that has been marked completed can still be marked failed. *)
Lemma completed_job_marked_failed :
  ¬ (∀ container tasks job,
       claimedHistory (statusHistory job (trace (run (init container) tasks)))).
Proof.
  intros H. specialize (H true completedThenFailed 0%nat).
  assert (E : statusHistory 0 (trace (run (init true) completedThenFailed))
              = ["queued"; "processing"; "completed"; "failed"]%string)
    by (vm_compute; reflexivity).
  rewrite E in H. destruct H as [[k Hk] | [k Hk]]; discriminate Hk.
Qed.

(** C10, as the code has it. In every state reached from the constructor
    by form submissions, elapsing delays, changes of the page and calls of
    [processExportQueue]: every job was created with status queued and
    progress 0; its status is one of queued, processing, completed and
    failed; its progress is a multiple of 10 between 0 and 100, as is
    every value ever assigned to a progress; and its status history is
    queued, processing, completed, or queued, processing, failed, or a
    start of one of these, or queued, processing, completed, failed. *)
Theorem job_lifecycle (container : bool) (tasks : list task) :
  let s := run (init container) tasks in
  (∀ job j, heap s !! job = Some j →
     lifecycle (statusHistory job (trace s)) (status j) ∧
     (status j = "queued" ∨ status j = "processing" ∨
      status j = "completed" ∨ status j = "failed")%string ∧
     (claimedHistory (statusHistory job (trace s)) ∨
      statusHistory job (trace s)
      = ["queued"; "processing"; "completed"; "failed"]%string) ∧
     0 ≤ progress j ≤ 100 ∧ (10 | progress j)) ∧
  Forall (λ e, match e with
               | Created _ v p => v = "queued"%string ∧ p = 0
               | SetStatus _ v =>
                   (v = "processing" ∨ v = "completed" ∨ v = "failed")%string
               | SetProgress _ p => 0 ≤ p ≤ 100 ∧ (10 | p)
               | _ => True
               end) (trace s).
Proof.
  intros s. subst s.
  destruct (consistent_run (init container) tasks (consistent_init container))
    as [Hs _].
  split.
  - intros job j Hj. destruct (snd_jobs _ Hs job j Hj) as [Hl Hd].
    apply decade_spec in Hd. split_and!; try tauto.
    + destruct Hl as [[-> _] | [[-> _] | [[-> _] | [-> _]]]]; tauto.
    + destruct Hl as [[_ ->] | [[_ ->] | [[_ ->] | [_ [-> | ->]]]]].
      * left. left. by eexists.
      * left. left. by eexists.
      * left. left. by exists [].
      * left. right. by exists [].
      * by right.
  - eapply Forall_impl; [apply (snd_events _ Hs) |].
    intros [job v p | job v | job p | | | |]; simpl; try done.
    apply decade_spec.
Qed.

Lemma job_lifecycle_witness :
  let j := {| id := "export-1"; type := Str (lit "clients");
              format := Str (lit "csv"); status := "failed"; progress := 100 |} in
  heap (run (init true) completedThenFailed) !! 0%nat = Some j ∧
  lifecycle (statusHistory 0 (trace (run (init true) completedThenFailed))) "failed" ∧
  0 ≤ 100 ≤ 100.
Proof.
  intros j.
  assert (Hj : heap (run (init true) completedThenFailed) !! 0%nat = Some j)
    by (vm_compute; reflexivity).
  destruct (proj1 (job_lifecycle true completedThenFailed) 0%nat j Hj)
    as (Hl & _ & _ & Hp & _).
  split; [exact Hj | split; [exact Hl | exact Hp]].
Defined.

End ExportQueue.

(** ** More on the table helpers *)

Module TablesMore.
Import Js Dom Tables.

(** The table with other rows in its body. *)
Definition withRows (t : table) (rs : list row) : table :=
  {| thsBefore := thsBefore t; header := header t; thsAfter := thsAfter t;
     columnIndex := columnIndex t; rows := rs |}.

(** What [filterTable] does to one row, given the lowercased term. *)
Definition shownOrHidden (toLowerCase : jsstring → jsstring) (term : jsstring)
    (r : row) : row :=
  {| cells := cells r; textContent := textContent r;
     display := if includes (toLowerCase (textContent r)) (toLowerCase term)
                then "" else "none" |}.

Section WithEngine.
Variable toLowerCase : jsstring → jsstring.
Variable localeCompare : jsstring → jsstring → Z.

Lemma filterTable_map term rs :
  filterTable toLowerCase {| value := term; closestTable := Some rs |}
  = Returned (map (shownOrHidden toLowerCase term) rs).
Proof using Type. reflexivity. Qed.

(** Each filtering starts from the text of the rows: what an earlier
    search hid or showed plays no part. *)
Theorem filterTable_starts_afresh (rs : list row) (term1 term2 : jsstring) :
  ∃ rs1,
    filterTable toLowerCase {| value := term1; closestTable := Some rs |} = Returned rs1 ∧
    filterTable toLowerCase {| value := term2; closestTable := Some rs1 |}
    = filterTable toLowerCase {| value := term2; closestTable := Some rs |}.
Proof using Type.
  eexists. split; [apply filterTable_map |].
  rewrite !filterTable_map. f_equal. rewrite map_map. by apply map_ext.
Qed.

(** The comparator reads the cells only. *)
Lemma rowCompare_shownOrHidden isAsc col term a b :
  rowCompare localeCompare isAsc col (shownOrHidden toLowerCase term a)
    (shownOrHidden toLowerCase term b)
  = rowCompare localeCompare isAsc col a b.
Proof using Type. reflexivity. Qed.

Lemma insert_map {A} (cmp : A → A → Z) (f : A → A) x l :
  (∀ a b, cmp (f a) (f b) = cmp a b) →
  insert cmp (f x) (map f l) = map f (insert cmp x l).
Proof using Type.
  intros Hf. induction l as [|y l IH]; simpl; [done |].
  rewrite Hf. destruct (cmp x y <=? 0); simpl; [done |]. by rewrite IH.
Qed.

Lemma sort_map {A} (cmp : A → A → Z) (f : A → A) l :
  (∀ a b, cmp (f a) (f b) = cmp a b) →
  sort cmp (map f l) = map f (sort cmp l).
Proof using Type.
  intros Hf. induction l as [|x l IH]; simpl; [done |].
  by rewrite IH, insert_map.
Qed.

Lemma sortRows_filtered isAsc col term rs :
  sortRows localeCompare isAsc col (map (shownOrHidden toLowerCase term) rs)
  = match sortRows localeCompare isAsc col rs with
    | Returned sorted => Returned (map (shownOrHidden toLowerCase term) sorted)
    | Threw => Threw
    end.
Proof using Type.
  unfold sortRows. rewrite length_map.
  replace (forallb (hasCell col) (map (shownOrHidden toLowerCase term) rs))
    with (forallb (hasCell col) rs).
  - destruct (_ || _); [| done]. f_equal. by apply sort_map.
  - induction rs as [|r rs IH]; simpl; [done |]. by rewrite IH.
Qed.

(** Sorting and filtering commute: filtering the sorted table gives the
    rows that sorting the filtered table gives, and the sort throws in one
    order exactly when it throws in the other. *)
Theorem sort_filter_commute (t : table) (term : jsstring) :
  ∃ filtered,
    filterTable toLowerCase {| value := term; closestTable := Some (rows t) |}
    = Returned filtered ∧
    (sortTable localeCompare (withRows t filtered)).2 = (sortTable localeCompare t).2 ∧
    header (sortTable localeCompare (withRows t filtered)).1
    = header (sortTable localeCompare t).1 ∧
    filterTable toLowerCase
      {| value := term; closestTable := Some (rows (sortTable localeCompare t).1) |}
    = Returned (rows (sortTable localeCompare (withRows t filtered)).1).
Proof using Type.
  eexists. split; [apply filterTable_map |].
  rewrite filterTable_map. unfold sortTable. simpl.
  rewrite sortRows_filtered.
  by destruct (sortRows localeCompare _ _ (rows t)).
Qed.



Lemma forallb_false_elem {A} (p : A → bool) (l : list A) :
  forallb p l = false → ∃ a, a ∈ l ∧ p a = false.
Proof using Type.
  induction l as [|x l IH]; simpl; [done |].
  destruct (p x) eqn:Hx; simpl.
  - intros (a & Ha & Hpa)%IH. exists a. split; [by right | done].
  - intros _. exists x. split; [by left | done].
Qed.

(** When the sort throws and when it does not: it throws exactly when
    there are at least two rows and one of them lacks the clicked column.
    It then leaves the rows as they were, but every header has already
    lost its sort class. *)
Theorem sortTable_throws_iff (t : table) :
  ((sortTable localeCompare t).2 = Threw ↔
   (2 ≤ length (rows t))%nat ∧ ∃ r, r ∈ rows t ∧ cells r !! columnIndex t = None) ∧
  ((sortTable localeCompare t).2 = Threw →
   rows (sortTable localeCompare t).1 = rows t ∧
   header (sortTable localeCompare t).1 = clearSort (header t) ∧
   thsBefore (sortTable localeCompare t).1 = map clearSort (thsBefore t) ∧
   thsAfter (sortTable localeCompare t).1 = map clearSort (thsAfter t)).
Proof using Type.
  unfold sortTable, sortRows.
  destruct (length (rows t) <? 2)%nat eqn:Hlen; simpl.
  - apply Nat.ltb_lt in Hlen. split; [| done]. split; [done | lia].
  - apply Nat.ltb_ge in Hlen.
    destruct (forallb (hasCell (columnIndex t)) (rows t)) eqn:Hall; simpl.
    + split; [| done]. split; [done |]. intros [_ (r & Hr & Hnone)].
      rewrite forallb_forall in Hall. apply list_elem_of_In in Hr.
      specialize (Hall r Hr). unfold hasCell in Hall.
      apply bool_decide_eq_true in Hall. rewrite Hnone in Hall. by destruct Hall.
    + split; [| done]. split; [| done]. intros _. split; [done |].
      apply forallb_false_elem in Hall as (r & Hin & Hcell). exists r.
      split; [done |].
      unfold hasCell in Hcell. apply bool_decide_eq_false in Hcell.
      destruct (cells r !! columnIndex t); [| done]. exfalso. apply Hcell. by eexists.
Qed.

Lemma clearSort_other c cl :
  c ≠ "sort-asc"%string → c ≠ "sort-desc"%string → c ∈ clearSort cl ↔ c ∈ cl.
Proof using Type. intros Ha Hd. unfold clearSort. rewrite !elem_of_remove. tauto. Qed.

Lemma clearSort_clears cl :
  ("sort-asc"%string ∉ clearSort cl) ∧ ("sort-desc"%string ∉ clearSort cl).
Proof using Type. unfold clearSort. rewrite !elem_of_remove. tauto. Qed.

(** After a call that returns, the clicked header carries exactly one of
    sort-asc and sort-desc and no other header of the table carries
    either; all other classes of all headers are as before. *)
Theorem sortTable_marks_one_header (t : table) :
  let t' := (sortTable localeCompare t).1 in
  Forall (λ cl, ("sort-asc"%string ∉ cl) ∧ ("sort-desc"%string ∉ cl))
    (thsBefore t' ++ thsAfter t') ∧
  ((sortTable localeCompare t).2 = Returned tt →
   contains "sort-asc" (header t') = negb (contains "sort-desc" (header t'))) ∧
  (∀ c, c ≠ "sort-asc"%string → c ≠ "sort-desc"%string →
        (c ∈ header t' ↔ c ∈ header t)).
Proof using Type.
  unfold sortTable.
  destruct (sortRows localeCompare _ _ (rows t)) as [sorted|] eqn:Hsort; simpl.
  - split_and!.
    + apply Forall_app. split; apply Forall_fmap, Forall_true; intros cl;
        apply clearSort_clears.
    + intros _. destruct (header_after_toggle (contains "sort-asc" (header t)) (header t))
        as [-> ->]. by destruct (contains _ _).
    + intros c Ha Hd. unfold toggle.
      destruct (contains "sort-asc" (header t)); simpl;
        rewrite ?elem_of_add, ?elem_of_remove, ?elem_of_add, clearSort_other by done;
        tauto.
  - split_and!.
    + apply Forall_app. split; apply Forall_fmap, Forall_true; intros cl;
        apply clearSort_clears.
    + done.
    + intros c Ha Hd. by apply clearSort_other.
Qed.

End WithEngine.


Lemma sortTable_throws_iff_witness :
  (sortTable compareFirstUnit
     (withRows sampleTable
        [sampleRow "Petrov" "1";
         {| cells := [lit "Sidorov"]; textContent := lit "Sidorov"; display := "" |}])).2
  = Threw.
Proof.
  apply (proj1 (sortTable_throws_iff compareFirstUnit _)).
  split; [simpl; lia |].
  exists {| cells := [lit "Sidorov"]; textContent := lit "Sidorov"; display := "" |}.
  split; [| reflexivity]. apply list_elem_of_In. simpl. tauto.
Defined.

End TablesMore.

(** ** More on form validation *)

Module FormsMore.
Import Js Dom RegExp Forms.

Lemma remove_remove c (l : list string) : remove c (remove c l) = remove c l.
Proof.
  unfold remove, classList. induction l as [|x l IH]; [done |].
  rewrite (filter_cons _ x l). destruct (decide (x ≠ c)) as [Hx | Hx]; [| done].
  rewrite filter_cons_True by done. by rewrite IH.
Qed.

Lemma remove_add c (l : list string) : remove c (add c l) = remove c l.
Proof.
  unfold add. destruct (contains c l); [done |].
  unfold remove, classList. rewrite filter_app, (filter_cons _ c []).
  destruct (decide (c ≠ c)); [done |]. by rewrite filter_nil, app_nil_r.
Qed.

Lemma add_add c (l : list string) : add c (add c l) = add c l.
Proof.
  unfold add at 1. replace (contains c (add c l)) with true; [done |].
  symmetry. apply contains_true, add_in.
Qed.

(** One field under the three passes. *)
Definition validated (f : field) : field :=
  (step matchesPassword checkPassword
     (step matchesEmail checkEmail
        (step matchesRequired checkRequired f).1.1).1.1).1.1.

Lemma validateForm_fields form :
  (validateForm form).1.2 = map validated form.
Proof. rewrite validateForm_unfold. simpl. by rewrite !map_map. Qed.

Lemma validated_same f : sameControl f (validated f).
Proof.
  unfold validated.
  eapply sameControl_trans; [| apply step_password_same].
  eapply sameControl_trans; [apply step_required_same | apply step_email_same].
Qed.

(** The class list one validation leaves, from the six tests of
    [validateForm] on a field. *)
Definition marks (r n e be w bw : bool) (cl : classList) : classList :=
  let c1 := if r then
              if n then add "is-invalid" (remove "is-invalid" cl)
              else remove "is-invalid" cl
            else cl in
  let c2 := if e && be then add "is-invalid" c1 else c1 in
  if w && bw then add "is-invalid" c2 else c2.

Lemma marks_idempotent r n e be w bw (cl : classList) :
  marks r n e be w bw (marks r n e be w bw cl) = marks r n e be w bw cl.
Proof.
  unfold marks.
  destruct r, n, e, be, w, bw; simpl;
    rewrite ?remove_add, ?remove_remove, ?add_add; try done;
    rewrite ?remove_add, ?remove_remove, ?add_add; done.
Qed.

Lemma validated_marks tg ty req v cl par :
  validated {| tag := tg; type := ty; required := req; value := v;
               classes := cl; parentElement := par |}
  = {| tag := tg; type := ty; required := req; value := v;
       classes :=
         marks (match tg with INPUT | SELECT | TEXTAREA => req | OTHER => false end)
               (negb (truthy (trim v)))
               (match tg with INPUT => bool_decide (asciiLower ty = "email"%string) | _ => false end)
               (truthy v && negb (isValidEmail v))
               (match tg with INPUT => bool_decide (asciiLower ty = "password"%string) | _ => false end)
               (truthy v && (length v <? 6)%nat) cl;
       parentElement := par |}.
Proof.
  set (r := match tg with INPUT | SELECT | TEXTAREA => req | OTHER => false end).
  set (e := match tg with INPUT => bool_decide (asciiLower ty = "email"%string) | _ => false end).
  set (w := match tg with INPUT => bool_decide (asciiLower ty = "password"%string) | _ => false end).
  unfold validated, marks.
  unfold step at 3. unfold matchesRequired at 1, checkRequired. simpl. fold r.
  destruct r, (negb (truthy (trim v))); simpl;
    (unfold step at 2; unfold matchesEmail at 1, checkEmail; simpl; fold e;
     destruct e, (truthy v && negb (isValidEmail v)); simpl;
     (unfold step, matchesPassword, checkPassword; simpl; fold w;
      destruct w, (truthy v && (length v <? 6)%nat); reflexivity)).
Qed.

(** Validating an already validated field changes nothing. *)
Lemma validated_idempotent f : validated (validated f) = validated f.
Proof.
  destruct f as [tg ty req v cl par].
  by rewrite !validated_marks, marks_idempotent.
Qed.

(** Validating again without touching the values gives the same verdict
    and leaves every field as the first validation left it. *)
Theorem validateForm_idempotent (form form' : list field) (ok : bool) (ops : list domOp) :
  validateForm form = (ok, form', ops) →
  ∃ ops', validateForm form' = (ok, form', ops').
Proof.
  intros E.
  assert (Hform' : form' = map validated form).
  { by rewrite <- validateForm_fields, E. }
  destruct (validateForm form') as [[ok2 form2] ops2] eqn:E2.
  assert (Hform2 : form2 = form').
  { pose proof (validateForm_fields form') as H. rewrite E2 in H. simpl in H.
    rewrite H, Hform', map_map. apply map_ext. intros f. apply validated_idempotent. }
  exists ops2. rewrite Hform2. cut (ok2 = ok); [by intros -> |].
  apply eq_true_iff_eq.
  rewrite (validateForm_result _ _ _ _ E2), (validateForm_result _ _ _ _ E).
  subst form'.
  assert (Hin : ∀ P : field → Prop,
            (∀ f, sameControl f (validated f) → P f → P (validated f)) →
            (∀ f, f ∈ form → P f) → ∀ g, g ∈ map validated form → P g).
  { intros P HP Hall g (f & -> & Hf)%list_elem_of_fmap. apply HP; [apply validated_same | by apply Hall]. }
  split.
  - intros (H1 & H2 & H3). split_and!; intros f Hf.
    + pose proof (validated_same f) as Hs.
      destruct (sameControl_selectors _ _ Hs) as (Hr & _ & _).
      destruct Hs as (_ & _ & _ & Hv & _).
      specialize (H1 _ (list_elem_of_fmap_2 validated _ _ Hf)).
      by rewrite Hr, Hv in H1.
    + pose proof (validated_same f) as Hs.
      destruct (sameControl_selectors _ _ Hs) as (_ & Hr & _).
      destruct Hs as (_ & _ & _ & Hv & _).
      specialize (H2 _ (list_elem_of_fmap_2 validated _ _ Hf)).
      by rewrite Hr, Hv in H2.
    + pose proof (validated_same f) as Hs.
      destruct (sameControl_selectors _ _ Hs) as (_ & _ & Hr).
      destruct Hs as (_ & _ & _ & Hv & _).
      specialize (H3 _ (list_elem_of_fmap_2 validated _ _ Hf)).
      by rewrite Hr, Hv in H3.
  - intros (H1 & H2 & H3). split_and!.
    + apply (Hin (λ f, matchesRequired f = true → trim (value f) ≠ [])); [| exact H1].
      intros f Hs.
      destruct (sameControl_selectors _ _ Hs) as (Hr & _ & _).
      destruct Hs as (_ & _ & _ & Hv & _). by rewrite Hr, Hv.
    + apply (Hin (λ f, matchesEmail f = true → value f ≠ [] →
                       isValidEmail (value f) = true)); [| exact H2].
      intros f Hs.
      destruct (sameControl_selectors _ _ Hs) as (_ & Hr & _).
      destruct Hs as (_ & _ & _ & Hv & _). by rewrite Hr, Hv.
    + apply (Hin (λ f, matchesPassword f = true → value f ≠ [] →
                       (6 ≤ length (value f))%nat)); [| exact H3].
      intros f Hs.
      destruct (sameControl_selectors _ _ Hs) as (_ & _ & Hr).
      destruct Hs as (_ & _ & _ & Hv & _). by rewrite Hr, Hv.
Qed.

Lemma validateForm_idempotent_witness :
  ∃ ops',
    validateForm [ withClasses (textInput "email" false "ivan@bank" 1)
                     ["form-control"; "is-invalid"]%string ]
    = (false, [ withClasses (textInput "email" false "ivan@bank" 1)
                  ["form-control"; "is-invalid"]%string ], ops').
Proof.
  apply (validateForm_idempotent [textInput "email" false "ivan@bank" 1] _ false
           [AppendFeedback 1 msgEmail]).
  reflexivity.
Defined.

Lemma sameControl_violations f f' :
  sameControl f f' →
  (missingRequired f' ↔ missingRequired f) ∧ (badEmail f' ↔ badEmail f) ∧
  (shortPassword f' ↔ shortPassword f).
Proof.
  intros Hs. destruct (sameControl_selectors _ _ Hs) as (Hr & He & Hp).
  destruct Hs as (_ & _ & _ & Hv & _).
  unfold missingRequired, badEmail, shortPassword. by rewrite Hr, He, Hp, Hv.
Qed.

Lemma step_required_mark_iff f :
  "is-invalid"%string ∈ classes (step matchesRequired checkRequired f).1.1 ↔
  (matchesRequired f = false ∧ "is-invalid"%string ∈ classes f) ∨ missingRequired f.
Proof.
  unfold step, checkRequired, missingRequired.
  destruct (matchesRequired f); [| simpl; intuition congruence].
  destruct (truthy (trim (value f))) eqn:E; simpl.
  - apply truthy_true in E. rewrite elem_of_remove. intuition congruence.
  - apply truthy_false in E. rewrite elem_of_add. intuition congruence.
Qed.

Lemma step_email_mark_iff f :
  "is-invalid"%string ∈ classes (step matchesEmail checkEmail f).1.1 ↔
  "is-invalid"%string ∈ classes f ∨ badEmail f.
Proof.
  unfold step, checkEmail, badEmail. rewrite <- isValidEmail_Matches.
  destruct (matchesEmail f); [| simpl; intuition congruence].
  destruct (truthy (value f)) eqn:E; simpl.
  - apply truthy_true in E. destruct (isValidEmail (value f)); simpl.
    + intuition congruence.
    + rewrite elem_of_add. intuition congruence.
  - apply truthy_false in E. intuition congruence.
Qed.

Lemma step_password_mark_iff f :
  "is-invalid"%string ∈ classes (step matchesPassword checkPassword f).1.1 ↔
  "is-invalid"%string ∈ classes f ∨ shortPassword f.
Proof.
  unfold step, checkPassword, shortPassword.
  destruct (matchesPassword f); [| simpl; intuition congruence].
  destruct (truthy (value f)) eqn:E; simpl.
  - apply truthy_true in E. destruct (length (value f) <? 6)%nat eqn:L; simpl.
    + apply Nat.ltb_lt in L. rewrite elem_of_add. intuition congruence.
    + apply Nat.ltb_ge in L. intuition lia.
  - apply truthy_false in E. intuition congruence.
Qed.

(** Which fields carry is-invalid after a validation: a required control
    carries it exactly when it fails one of the checks; any other control
    carries it when it fails a check or carried it before, so a mark on a
    control that is not required is never taken away, whatever its value
    has become. *)
Theorem validateForm_marks_exactly (form : list field) (i : nat) (f : field) :
  form !! i = Some f →
  ∃ f', (validateForm form).1.2 !! i = Some f' ∧
    ("is-invalid"%string ∈ classes f' ↔
     (matchesRequired f = false ∧ "is-invalid"%string ∈ classes f) ∨ violates f).
Proof.
  intros Hi. exists (validated f). split.
  - by rewrite validateForm_fields, list_lookup_fmap, Hi.
  - unfold validated, violates.
    rewrite step_password_mark_iff, step_email_mark_iff, step_required_mark_iff.
    pose proof (step_required_same f) as Hs1.
    pose proof (sameControl_trans _ _ _ Hs1
                  (step_email_same (step matchesRequired checkRequired f).1.1)) as Hs2.
    destruct (sameControl_violations _ _ Hs1) as (_ & He & _).
    destruct (sameControl_violations _ _ Hs2) as (_ & _ & Hp).
    rewrite He, Hp. tauto.
Qed.

Lemma validateForm_marks_exactly_witness :
  ∃ f', (validateForm
           [ withClasses (textInput "email" false "ivan@bank.ru" 1)
               ["form-control"; "is-invalid"]%string ]).1.2 !! 0%nat = Some f' ∧
        "is-invalid"%string ∈ classes f'.
Proof.
  destruct (validateForm_marks_exactly
              [ withClasses (textInput "email" false "ivan@bank.ru" 1)
                  ["form-control"; "is-invalid"]%string ] 0%nat _ eq_refl)
    as (f' & Hf' & Hiff).
  exists f'. split; [exact Hf' |]. apply Hiff. left. split; [reflexivity |].
  apply list_elem_of_In. simpl. tauto.
Defined.

End FormsMore.

(** ** More on the notification badge *)

Module BadgeMore.
Import Js Dom Badge FormsMore.

(** [updateNotificationCount] only ever adds or removes d-none, and
    calling it again with the same count changes nothing. *)
Theorem updateNotificationCount_settles (count : Z) (found : option badge) :
  updateNotificationCount count (updateNotificationCount count found)
  = updateNotificationCount count found ∧
  ∀ b b' c, found = Some b → updateNotificationCount count found = Some b' →
            c ≠ "d-none"%string → (c ∈ classes b' ↔ c ∈ classes b).
Proof.
  unfold updateNotificationCount. split.
  - destruct found as [b|]; [| done].
    destruct (0 <? count); simpl; f_equal; f_equal.
    + by rewrite remove_remove.
    + by rewrite add_add.
  - intros b b' c -> H Hc.
    destruct (0 <? count); injection H as <-; simpl.
    + rewrite elem_of_remove. tauto.
    + rewrite elem_of_add. tauto.
Qed.

Lemma updateNotificationCount_settles_witness :
  "badge"%string ∈ ["badge"%string] ↔ "badge"%string ∈ ["badge"; "d-none"]%string.
Proof.
  apply (proj2 (updateNotificationCount_settles 7
                  (Some {| textContent := ""; classes := ["badge"; "d-none"]%string |}))
           {| textContent := ""; classes := ["badge"; "d-none"]%string |}
           {| textContent := "7"; classes := ["badge"%string] |} "badge"%string
           eq_refl eq_refl).
  discriminate.
Defined.

End BadgeMore.

(** ** Page handlers: password toggle, copy button, toasts *)

Module PageHandlers.
Import Js Dom.

(** [classList.toggle(c)] with one argument. *)
Definition flip (c : string) (l : classList) : classList :=
  if contains c l then remove c l else add c l.

(** A [.toggle-password] button: the [type] attribute of the element
    before it (if there is such an element; the attribute may be absent),
    and the class list of the first [i] inside the button (if any). *)
Record toggleButton := {
  previousElementSibling : option (option string);
  icon : option classList
}.

(** The click handler of a [.toggle-password] button. Without a previous
    sibling it throws at once; without an icon it throws after the type
    has been changed. *)
Definition togglePassword (b : toggleButton) : toggleButton * completion unit :=
  match previousElementSibling b with
  | None => (b, Threw)
  | Some typeAttr =>
      let type :=
        if bool_decide (typeAttr = Some "password"%string)
        then "text"%string else "password"%string in
      let b := {| previousElementSibling := Some (Some type); icon := icon b |} in
      match icon b with
      | None => (b, Threw)
      | Some cl =>
          ({| previousElementSibling := Some (Some type);
              icon := Some (flip "fa-eye-slash" (flip "fa-eye" cl)) |},
           Returned tt)
      end
  end.

Lemma elem_of_flip_spec c d l :
  d ∈ flip c l ↔ (d = c ∧ c ∉ l) ∨ (d ≠ c ∧ d ∈ l).
Proof.
  unfold flip. destruct (contains c l) eqn:E.
  - apply contains_true in E. rewrite elem_of_remove.
    destruct (decide (d = c)); intuition congruence.
  - apply contains_false in E. rewrite elem_of_add.
    destruct (decide (d = c)); intuition congruence.
Qed.

Lemma flip_congr c l l' :
  (∀ d, d ∈ l ↔ d ∈ l') → ∀ d, d ∈ flip c l ↔ d ∈ flip c l'.
Proof. intros H d. rewrite !elem_of_flip_spec. by rewrite !H. Qed.

Lemma flip_flip_elem c d l : d ∈ flip c (flip c l) ↔ d ∈ l.
Proof.
  rewrite !elem_of_flip_spec.
  destruct (decide (d = c)) as [-> | Hne], (decide (c ∈ l)); firstorder congruence.
Qed.

Lemma flip_comm_elem c1 c2 d l : d ∈ flip c1 (flip c2 l) ↔ d ∈ flip c2 (flip c1 l).
Proof.
  rewrite !elem_of_flip_spec.
  destruct (decide (d = c1)), (decide (d = c2)), (decide (c1 = c2)),
    (decide (c1 ∈ l)), (decide (c2 ∈ l)); subst; try tauto; try (intuition congruence).
Qed.


(** Two clicks, with the input and the icon in place: both return; the
    input ends as a password input if it was one and as a text input
    otherwise, so only a password or text input gets its type back; the
    icon has the classes it started with. *)
Theorem togglePassword_twice (typeAttr : option string) (cl : classList) :
  let b := {| previousElementSibling := Some typeAttr; icon := Some cl |} in
  ∃ b1 b2 cl2,
    togglePassword b = (b1, Returned tt) ∧
    togglePassword b1 = (b2, Returned tt) ∧
    previousElementSibling b2
    = Some (Some (if bool_decide (typeAttr = Some "password"%string)
                  then "password"%string else "text"%string)) ∧
    icon b2 = Some cl2 ∧ ∀ c, c ∈ cl2 ↔ c ∈ cl.
Proof.
  intros b. unfold togglePassword. simpl.
  eexists _, _, _. split; [reflexivity |]. simpl. split; [reflexivity |].
  split_and!.
  - by destruct (bool_decide (typeAttr = Some "password"%string)).
  - reflexivity.
  - intros c.
    rewrite (flip_congr "fa-eye-slash" _
               (flip "fa-eye-slash" (flip "fa-eye" (flip "fa-eye" cl))))
      by (intros d; apply flip_comm_elem).
    by rewrite !flip_flip_elem.
Qed.

(** A toast: its message and the type that goes into its class. *)
Definition toast : Type := string * string.

(** The page as [showToast] and the copy button see it: the children of
    each element with id toast-container, in document order, and the
    console. *)
Record document := {
  toastContainers : list (list toast);
  console : list string
}.

(** Whether the browser offers [navigator.clipboard], and if so how
    [writeText] ends. *)
Inductive clipboard := NoClipboard | WriteResolves | WriteRejects.

(** [showToast(message, type)]: the toast goes into the element
    [getElementById('toast-container')] finds, the first one, or into a
    container created for it and appended to the body. Bootstrap is taken
    to be loaded, so that [new bootstrap.Toast] and [show] return; the
    toast removes itself in a later task, when it has been hidden. *)
Definition showToast (message type : string) (d : document) : document :=
  match toastContainers d with
  | container :: others =>
      {| toastContainers := (container ++ [(message, type)]) :: others;
         console := console d |}
  | [] =>
      {| toastContainers := [[(message, type)]]; console := console d |}
  end.

(** The click handler of a [data-copy] button, together with the
    [catch] callback of [copyToClipboard] once the write has settled. *)
Definition copyClick (env : clipboard) (d : document) : document * completion unit :=
  match env with
  | NoClipboard => (d, Threw)
  | WriteResolves =>
      (showToast "Скопировано в буфер обмена" "success" d, Returned tt)
  | WriteRejects =>
      let d := showToast "Скопировано в буфер обмена" "success" d in
      ({| toastContainers := toastContainers d;
          console := console d ++ ["Ошибка копирования: "%string] |}, Returned tt)
  end.

Definition toastCount (d : document) : nat :=
  length (concat (toastContainers d)).

(** [showToast] adds exactly one toast, at the end of the first container,
    and creates a container only on a page that has none. *)
Theorem showToast_one_container (message type : string) (d : document) :
  let d' := showToast message type d in
  toastCount d' = S (toastCount d) ∧
  length (toastContainers d') = Nat.max 1 (length (toastContainers d)) ∧
  ∃ first, head (toastContainers d') = Some first ∧
           last first = Some (message, type) ∧
           tail (toastContainers d') = tail (toastContainers d).
Proof.
  unfold showToast, toastCount.
  destruct (toastContainers d) as [|container others]; simpl.
  - split_and!; [done | done |]. by eexists.
  - split_and!.
    + rewrite !length_app. simpl. lia.
    + done.
    + eexists. split_and!; [done | | done]. by rewrite last_snoc.
Qed.

(** The copy button reports success whenever the browser has a clipboard:
    the toast is there whether the write succeeded or not, and a failed
    write only adds a console line. Without a clipboard the handler throws
    and shows nothing. *)
Theorem copyClick_always_reports_success (env : clipboard) (d : document) :
  match env with
  | NoClipboard => copyClick env d = (d, Threw)
  | _ =>
      ∃ d', copyClick env d = (d', Returned tt) ∧
        toastContainers d'
        = toastContainers (showToast "Скопировано в буфер обмена" "success" d) ∧
        toastCount d' = S (toastCount d) ∧
        (console d' = console d ↔ env = WriteResolves)
  end.
Proof.
  destruct env; simpl; [done | |].
  - eexists. split; [reflexivity |]. split_and!; [done | apply showToast_one_container |].
    split; [done |]. intros _. unfold showToast. by destruct (toastContainers d).
  - eexists. split; [reflexivity |]. simpl. split_and!; [done | apply showToast_one_container |].
    split; [| done]. intros H. exfalso.
    assert (Hc : console (showToast "Скопировано в буфер обмена" "success" d) = console d).
    { unfold showToast. by destruct (toastContainers d). }
    rewrite Hc in H. apply (f_equal length) in H. rewrite length_app in H. simpl in H. lia.
Qed.

End PageHandlers.

(** ** More on the export queue *)

Module ExportQueueMore.
Import Js ExportQueue.

(** The object literal of [handleExport]. *)
Definition newJob (now : Z) (data_type fmt : jsValue) : exportJob :=
  {| id := "export-" ++ ToString now; type := data_type; format := fmt;
     status := "queued"; progress := 0 |}.

(** A submission, as the triple [handleExport] reads. *)
Definition submission : Type := Z * jsValue * jsValue.

Definition submit (x : submission) : task := Submit x.1.1 x.1.2 x.2.

Definition newJobOf (x : submission) : exportJob := newJob x.1.1 x.1.2 x.2.

(** Some queued job has a format that is not a string. *)
Definition unrenderable (s : system) : Prop :=
  ∃ b j, b ∈ exportQueue s ∧ heap s !! b = Some j ∧ isString (format j) = false.

(** The milliseconds of all delays awaited in a trace. *)
Definition totalDelay (tr : list event) : Z :=
  fold_right (λ e acc, match e with Delay ms => ms + acc | _ => acc end) 0 tr.

Lemma processExportQueue_frame (s : system) :
  ∃ job q,
    heap (park (processExportQueue s)) = alter (patchJob q) job (heap s) ∧
    exportQueue (park (processExportQueue s)) = exportQueue s.
Proof.
  unfold processExportQueue.
  destruct (isProcessing s || (length (exportQueue s) =? 0)%nat) eqn:E.
  - exists 0%nat, (None, None). simpl. by rewrite alter_patch_none.
  - apply orb_false_elim in E as [Hf Hq].
    destruct (exportQueue s) as [|job rest] eqn:Q; [done |].
    destruct (renderThrows (setIsProcessing true s)) eqn:R.
    + destruct (whileLoop_throws (setIsProcessing true s) job rest Q R)
        as (s' & -> & Ev).
      simpl. exists job, (Some "failed"%string, None).
      split; [apply (ev_heap _ _ _ _ _ Ev) |].
      rewrite (ev_queue _ _ _ _ _ Ev). done.
    + destruct (whileLoop_returns (setIsProcessing true s) job rest Q R)
        as (s' & -> & Ev).
      simpl. exists job, (Some "processing"%string, Some 0).
      split; [apply (ev_heap _ _ _ _ _ Ev) |].
      rewrite (ev_queue _ _ _ _ _ Ev). done.
Qed.

Lemma lookup_alter_patch (h : list exportJob) (job b : nat) (q : patch) (j : exportJob) :
  h !! b = Some j →
  ∃ j', alter (patchJob q) job h !! b = Some j' ∧
        id j' = id j ∧ type j' = type j ∧ format j' = format j.
Proof.
  intros Hj. destruct (decide (job = b)) as [-> | Hne].
  - rewrite list_lookup_alter_eq, Hj. simpl. by eexists.
  - rewrite list_lookup_alter_ne by done. by eexists.
Qed.

(** [handleExport] always creates one job object and puts it at the end of
    the queue, whatever state the queue is in and whether or not rendering
    throws; the job keeps the id, type and format it was created with.
    While a run is in progress it does nothing else. *)
Theorem handleExport_enqueues (now : Z) (data_type fmt : jsValue) (s : system) :
  let s' := handleExport now data_type fmt s in
  exportQueue s' = exportQueue s ++ [length (heap s)] ∧
  length (heap s') = S (length (heap s)) ∧
  (∃ j, heap s' !! length (heap s) = Some j ∧
        id j = id (newJob now data_type fmt) ∧
        type j = data_type ∧ format j = fmt) ∧
  (isProcessing s = true →
   heap s' = heap s ++ [newJob now data_type fmt] ∧
   waiting s' = waiting s ∧ isProcessing s' = true).
Proof.
  unfold handleExport, addToExportQueue. rewrite renderExportQueue_eq.
  fold (newJob now data_type fmt).
  match goal with |- context [if ?b then Threw else _] => destruct b end; simpl.
  - split_and!; try done.
    + rewrite length_app. simpl. lia.
    + exists (newJob now data_type fmt). split; [| done].
      by rewrite lookup_app_r, Nat.sub_diag.
  - match goal with |- context [park (processExportQueue ?s2)] =>
      destruct (processExportQueue_frame s2) as (job & q & Hh & Hq);
      set (s' := park (processExportQueue s2)) in *
    end.
    simpl in Hh, Hq. split_and!.
    + done.
    + rewrite Hh, length_alter, length_app. simpl. lia.
    + destruct (lookup_alter_patch (heap s ++ [newJob now data_type fmt]) job
                  (length (heap s)) q (newJob now data_type fmt)) as (j' & Hj' & ? & ? & ?).
      { by rewrite lookup_app_r, Nat.sub_diag. }
      exists j'. rewrite Hh. done.
    + intros Hf. subst s'. unfold processExportQueue. simpl. rewrite Hf. done.
Qed.

(** To a stuck state (the flag set, no run suspended) a task can only add
    queued jobs. *)
Lemma stuck_step (s : system) (t : task) :
  isProcessing s = true → waiting s = [] →
  isProcessing (step s t) = true ∧ waiting (step s t) = [] ∧
  ∃ news, heap (step s t) = heap s ++ news ∧
          exportQueue (step s t) = exportQueue s ++ seq (length (heap s)) (length news) ∧
          Forall (λ j, status j = "queued"%string ∧ progress j = 0) news.
Proof.
  intros Hf Hw. destruct t as [now ty fmt|k|present|]; simpl.
  - unfold handleExport, addToExportQueue. rewrite renderExportQueue_eq.
    match goal with |- context [if ?b then Threw else _] => destruct b end; simpl.
    + split_and!; try done. eexists [_]. split_and!; try done. by constructor.
    + unfold processExportQueue. simpl. rewrite Hf. simpl. split_and!; try done.
      eexists [_]. split_and!; try done. by constructor.
  - rewrite Hw. simpl. split_and!; try done. exists []. simpl.
    by rewrite !app_nil_r.
  - split_and!; try done. exists []. simpl. by rewrite !app_nil_r.
  - unfold processExportQueue. rewrite Hf. simpl.
    split_and!; try done. exists []. simpl. by rewrite !app_nil_r.
Qed.

(** Once the flag is set with no run suspended, as after a failed job, it
    stays so whatever happens next: submissions, timers, changes of the
    page and direct calls of [processExportQueue] leave every existing job
    as it is and can only add jobs, which stay queued. *)
Theorem stuck_is_permanent (s : system) (tasks : list task) :
  isProcessing s = true → waiting s = [] →
  let s' := run s tasks in
  isProcessing s' = true ∧ waiting s' = [] ∧
  ∃ news, heap s' = heap s ++ news ∧
          exportQueue s' = exportQueue s ++ seq (length (heap s)) (length news) ∧
          Forall (λ j, status j = "queued"%string ∧ progress j = 0) news.
Proof.
  revert s. induction tasks as [|t tasks IH]; intros s Hf Hw; cbv zeta.
  - unfold run. simpl. split_and!; try done. exists []. simpl. by rewrite !app_nil_r.
  - rewrite run_cons.
    destruct (stuck_step s t Hf Hw) as (Hf1 & Hw1 & news1 & Hh1 & Hq1 & Hn1).
    destruct (IH (step s t) Hf1 Hw1) as (Hf2 & Hw2 & news2 & Hh2 & Hq2 & Hn2).
    split_and!; try done. exists (news1 ++ news2). split_and!.
    + rewrite Hh2, Hh1. by rewrite app_assoc.
    + rewrite Hq2, Hq1, Hh1, !length_app, seq_app.
      by rewrite app_assoc.
    + by apply Forall_app.
Qed.

Lemma stuck_is_permanent_witness :
  isProcessing (run (run (init true) [goodSubmit 1; badSubmit 2; TimerFires 0])
                  [goodSubmit 3; CallProcessExportQueue; TimerFires 0]) = true.
Proof.
  apply (stuck_is_permanent
           (run (init true) [goodSubmit 1; badSubmit 2; TimerFires 0])
           [goodSubmit 3; CallProcessExportQueue; TimerFires 0]).
  - vm_compute. reflexivity.
  - vm_compute. reflexivity.
Defined.

(** On a page with the container, a queue that holds an unrenderable job
    makes [addToExportQueue] throw, so [handleExport] only queues. *)
Lemma unrenderable_submit (s : system) (now : Z) (data_type fmt : jsValue) :
  queueContainer s = true →
  unrenderable s ∨ isString fmt = false →
  let s' := handleExport now data_type fmt s in
  isProcessing s' = isProcessing s ∧ waiting s' = waiting s ∧
  heap s' = heap s ++ [newJob now data_type fmt] ∧
  exportQueue s' = exportQueue s ++ [length (heap s)] ∧
  queueContainer s' = true ∧ unrenderable s'.
Proof.
  intros Hc Hbad. unfold handleExport, addToExportQueue.
  fold (newJob now data_type fmt).
  rewrite renderExportQueue_eq.
  match goal with |- context [renderThrows ?s2] =>
    assert (Hu : unrenderable s2 ∧ renderThrows s2 = true)
  end.
  { assert (Hu : ∃ b j, b ∈ exportQueue s ++ [length (heap s)] ∧
                        (heap s ++ [newJob now data_type fmt]) !! b = Some j ∧
                        isString (format j) = false).
    { destruct Hbad as [(b & j & Hb & Hj & Hs) | Hs].
      - exists b, j. split_and!; [| by apply lookup_app_l_Some | done].
        apply elem_of_app. by left.
      - exists (length (heap s)), (newJob now data_type fmt). split_and!.
        + apply elem_of_app. right. by apply list_elem_of_singleton.
        + by rewrite lookup_app_r, Nat.sub_diag.
        + done. }
    split; [exact Hu |].
    destruct Hu as (b & j & Hb & Hj & Hs).
    unfold renderThrows. simpl. rewrite Hc. simpl.
    apply negb_true_iff. apply not_true_is_false. intros Hall.
    rewrite forallb_forall in Hall.
    specialize (Hall b (proj1 (list_elem_of_In _ _) Hb)).
    unfold renders in Hall. simpl in Hall. rewrite Hj in Hall. congruence. }
  destruct Hu as [Hu ->]. simpl. split_and!; try done.
Qed.

(** On a page with the export container, a submission whose format is not
    a string (a form without a format field, or a file input) blocks the
    queue for every later submission: each is only put in the queue, none
    is started, and no job changes. *)
Theorem missing_format_blocks_queue (s : system) (now : Z) (data_type fmt : jsValue)
    (later : list submission) :
  queueContainer s = true → isString fmt = false →
  let s' := run s (Submit now data_type fmt :: map submit later) in
  isProcessing s' = isProcessing s ∧ waiting s' = waiting s ∧
  heap s' = heap s ++ newJob now data_type fmt :: map newJobOf later ∧
  exportQueue s' = exportQueue s ++ seq (length (heap s)) (S (length later)).
Proof.
  intros Hc Hs. cbv zeta. rewrite run_cons.
  destruct (unrenderable_submit s now data_type fmt Hc (or_intror Hs))
    as (Hf1 & Hw1 & Hh1 & Hq1 & Hc1 & Hu1).
  simpl step. set (s1 := handleExport now data_type fmt s) in *.
  assert (G : ∀ later s1, queueContainer s1 = true → unrenderable s1 →
            let s' := run s1 (map submit later) in
            isProcessing s' = isProcessing s1 ∧ waiting s' = waiting s1 ∧
            heap s' = heap s1 ++ map newJobOf later ∧
            exportQueue s' = exportQueue s1 ++ seq (length (heap s1)) (length later)).
  { clear. induction later as [|x later IH]; intros s1 Hc1 Hu1; cbv zeta.
    - unfold run. simpl. by rewrite !app_nil_r.
    - simpl map. rewrite run_cons. destruct x as [[now dt] fmt]. unfold submit at 1.
      simpl step.
      destruct (unrenderable_submit s1 now dt fmt Hc1 (or_introl Hu1))
        as (Hf2 & Hw2 & Hh2 & Hq2 & Hc2 & Hu2).
      destruct (IH _ Hc2 Hu2) as (Hf3 & Hw3 & Hh3 & Hq3).
      split_and!.
      + congruence.
      + congruence.
      + rewrite Hh3, Hh2. by rewrite <- app_assoc.
      + rewrite Hq3, Hq2, Hh2, length_app. simpl length.
        rewrite <- app_assoc. f_equal. simpl. do 2 f_equal. lia. }
  destruct (G later s1 Hc1 Hu1) as (Hf2 & Hw2 & Hh2 & Hq2).
  split_and!.
  - congruence.
  - congruence.
  - rewrite Hh2, Hh1. by rewrite <- app_assoc.
  - rewrite Hq2, Hq1, Hh1, length_app. simpl length.
    rewrite <- app_assoc. f_equal. simpl. do 2 f_equal. lia.
Qed.

Lemma missing_format_blocks_queue_witness :
  map status (heap (run (init true)
                      [badSubmit 1; goodSubmit 2; goodSubmit 3]))
  = ["queued"; "queued"; "queued"]%string.
Proof.
  pose proof (missing_format_blocks_queue (init true) 1 (Str (lit "clients")) Undefined
                [(2, Str (lit "clients"), Str (lit "csv"));
                 (3, Str (lit "clients"), Str (lit "csv"))] eq_refl eq_refl) as H.
  destruct H as (_ & _ & H & _).
  change (run (init true) [badSubmit 1; goodSubmit 2; goodSubmit 3])
    with (run (init true)
            (Submit 1 (Str (lit "clients")) Undefined
               :: map submit [(2, Str (lit "clients"), Str (lit "csv"));
                              (3, Str (lit "clients"), Str (lit "csv"))])).
  rewrite H. reflexivity.
Defined.

Lemma totalDelay_app tr1 tr2 :
  totalDelay (tr1 ++ tr2) = totalDelay tr1 + totalDelay tr2.
Proof.
  induction tr1 as [|e tr1 IH]; simpl; [done |].
  fold (totalDelay (tr1 ++ tr2)). fold (totalDelay tr1). destruct e; lia.
Qed.

Lemma totalDelay_jobEvents job : totalDelay (jobEvents job) = 5500.
Proof. reflexivity. Qed.

Lemma totalDelay_jobs (q : list nat) :
  totalDelay (flat_map jobEvents q) = 5500 * Z.of_nat (length q).
Proof.
  induction q as [|job q IH]; [done |].
  change (flat_map jobEvents (job :: q)) with (jobEvents job ++ flat_map jobEvents q).
  rewrite totalDelay_app, totalDelay_jobEvents, IH. simpl length. lia.
Qed.

(** Draining a queue of renderable jobs awaits eleven delays of 500 ms for
    each job, one after the other: 5.5 s of waiting per job, whatever the
    job is. *)
Theorem export_takes_5500ms_per_job (s : system) :
  isProcessing s = false → waiting s = [] → renderThrows s = false →
  let s' := run s (CallProcessExportQueue
                     :: repeat (TimerFires 0) (11 * length (exportQueue s))) in
  exportQueue s' = [] ∧
  totalDelay (trace s')
  = totalDelay (trace s) + 5500 * Z.of_nat (length (exportQueue s)).
Proof.
  intros Hf Hw Hr.
  destruct (drain_prefix (length (exportQueue s)) s Hf Hw Hr (le_n _)) as [Ha Ht].
  cbv zeta in *. rewrite Ht, totalDelay_app.
  unfold drainedEvents.
  rewrite firstn_all, drop_all, app_nil_r, totalDelay_jobs.
  split; [| done].
  destruct Ha as [Hq _]. by rewrite Hq, drop_all.
Qed.

Lemma export_takes_5500ms_per_job_witness :
  totalDelay (trace (run (setHeap [sampleJob (Str (lit "csv")); sampleJob File]
                            (setExportQueue [0; 1]%nat (init false)))
                       (CallProcessExportQueue :: repeat (TimerFires 0) 22)))
  = 11000.
Proof.
  exact (proj2 (export_takes_5500ms_per_job
                  (setHeap [sampleJob (Str (lit "csv")); sampleJob File]
                     (setExportQueue [0; 1]%nat (init false)))
                  eq_refl eq_refl eq_refl)).
Defined.

(** *** When nothing can fail *)

(** The events of the [catch] block. *)
Definition failureEvent (e : event) : bool :=
  match e with
  | ConsoleError => true
  | SetStatus _ v => String.eqb v "failed"
  | _ => false
  end.

Definition noFailure (tr : list event) : Prop :=
  Forall (λ e, failureEvent e = false) tr.

(** The flag is set only while a run is suspended in a delay. *)
Definition neverIdleLocked (s : system) : Prop :=
  isProcessing s = true → waiting s ≠ [].

(** Every queued job has a string for its format. *)
Definition allRender (s : system) : Prop :=
  forallb (renders s) (exportQueue s) = true.

(** The state in which [addToExportQueue] calls [renderExportQueue]. *)
Definition pushed (s : system) (now : Z) (data_type fmt : jsValue) : system :=
  setExportQueue (exportQueue s ++ [length (heap s)])
    (emit (Created (length (heap s)) "queued" 0)
       (setHeap (heap s ++ [newJob now data_type fmt]) s)).

Definition stringFormat (t : task) : bool :=
  match t with Submit _ _ fmt => isString fmt | _ => true end.

Definition keepsContainerAway (t : task) : bool :=
  match t with ContainerChange present => negb present | _ => true end.

(** [s'] comes from [s] by script that reported no failure, left the page
    alone and did not leave the flag set without a suspended run. *)
Definition calmly (s s' : system) : Prop :=
  (∃ evs, trace s' = trace s ++ evs ∧ noFailure evs) ∧
  queueContainer s' = queueContainer s ∧
  neverIdleLocked s' ∧
  (allRender s → allRender s').

Lemma calmly_refl s : neverIdleLocked s → calmly s s.
Proof.
  intros Hl. split_and!; try done.
  exists []. split; [by rewrite app_nil_r | constructor].
Qed.

Lemma forallb_renders_evolves s s' job p evs l :
  evolves s s' job p evs → forallb (renders s') l = forallb (renders s) l.
Proof.
  intros E. induction l as [|b l IH]; simpl; [done |].
  rewrite IH. f_equal. eapply renders_patch, ev_heap, E.
Qed.

Lemma allRender_evolves s s' job p evs :
  evolves s s' job p evs → allRender s → allRender s'.
Proof.
  intros E. unfold allRender.
  by rewrite (ev_queue _ _ _ _ _ E), (forallb_renders_evolves _ _ _ _ _ _ E).
Qed.

Lemma allRender_shift s : allRender s → allRender (shift s).
Proof.
  unfold allRender, shift. simpl.
  change (renders (setExportQueue (tail (exportQueue s)) s)) with (renders s).
  destruct (exportQueue s) as [|b l]; simpl; [done |].
  by intros [_ H]%andb_true_iff.
Qed.

Lemma renderThrows_false_iff s :
  renderThrows s = false ↔ queueContainer s = false ∨ allRender s.
Proof.
  unfold renderThrows, allRender.
  destruct (queueContainer s), (forallb (renders s) (exportQueue s)); simpl;
    intuition congruence.
Qed.

Lemma waiting_snoc_ne (w : list (nat * Z)) (x : nat * Z) : w ++ [x] ≠ [].
Proof. by destruct w. Qed.

Lemma call_calmly s :
  renderThrows s = false → neverIdleLocked s →
  calmly s (park (processExportQueue s)).
Proof.
  intros Hr Hl. unfold processExportQueue.
  destruct (isProcessing s || (length (exportQueue s) =? 0)%nat) eqn:E.
  - by apply calmly_refl.
  - apply orb_false_elim in E as [Hf Hq].
    destruct (exportQueue s) as [|job rest] eqn:Q; [done |].
    destruct (whileLoop_returns (setIsProcessing true s) job rest Q Hr)
      as (s' & -> & Ev).
    simpl park. split_and!.
    + eexists. split; [apply (ev_trace _ _ _ _ _ Ev) |]. by repeat constructor.
    + apply (ev_page _ _ _ _ _ Ev).
    + intros _. apply waiting_snoc_ne.
    + intros Ha. apply (allRender_evolves _ _ _ _ _ Ev Ha).
Qed.

Lemma timer_calmly s k :
  renderThrows s = false → neverIdleLocked s →
  calmly s (step s (TimerFires k)).
Proof.
  intros Hr Hl. simpl.
  destruct (waiting s !! k) as [[job p]|] eqn:W; [| by apply calmly_refl].
  set (s1 := setWaiting (delete k (waiting s)) s).
  assert (Hr1 : renderThrows s1 = false) by exact Hr.
  destruct (Z_le_gt_dec (p + 10) 100) as [Hp | Hp].
  - destruct (resume_queue_next_round job p s1 Hr1 Hp) as (s' & -> & Ev).
    simpl park. split_and!.
    + eexists. split; [apply (ev_trace _ _ _ _ _ Ev) |]. by repeat constructor.
    + apply (ev_page _ _ _ _ _ Ev).
    + intros _. apply waiting_snoc_ne.
    + intros Ha. apply (allRender_evolves _ _ _ _ _ Ev Ha).
  - destruct (resume_queue_finishes job p s1 Hr1) as (s2 & -> & Ev); [lia |].
    assert (Hr2 : renderThrows (shift s2) = false).
    { apply renderThrows_shift. by rewrite (renderThrows_evolves _ _ _ _ _ Ev). }
    destruct (exportQueue (shift s2)) as [|next rest] eqn:Q.
    + rewrite (whileLoop_empty _ Q). simpl park. split_and!.
      * eexists. split; [apply (ev_trace _ _ _ _ _ Ev) |]. by repeat constructor.
      * apply (ev_page _ _ _ _ _ Ev).
      * intros H. discriminate H.
      * intros Ha. apply (allRender_shift s2), (allRender_evolves _ _ _ _ _ Ev Ha).
    + destruct (whileLoop_returns (shift s2) next rest Q Hr2) as (s3 & -> & Ev3).
      simpl park. split_and!.
      * eexists. split.
        -- simpl. rewrite (ev_trace _ _ _ _ _ Ev3). simpl.
           rewrite (ev_trace _ _ _ _ _ Ev). simpl. by rewrite <- app_assoc.
        -- by repeat constructor.
      * simpl. rewrite (ev_page _ _ _ _ _ Ev3). apply (ev_page _ _ _ _ _ Ev).
      * intros _. apply waiting_snoc_ne.
      * intros Ha. apply (allRender_evolves _ _ _ _ _ Ev3).
        apply (allRender_shift s2), (allRender_evolves _ _ _ _ _ Ev Ha).
Qed.

Lemma submit_calmly s now data_type fmt :
  renderThrows (pushed s now data_type fmt) = false → neverIdleLocked s →
  let s' := handleExport now data_type fmt s in
  (∃ evs, trace s' = trace s ++ evs ∧ noFailure evs) ∧
  queueContainer s' = queueContainer s ∧
  neverIdleLocked s' ∧
  (allRender (pushed s now data_type fmt) → allRender s').
Proof.
  intros Hr Hl.
  change (handleExport now data_type fmt s)
    with (match renderExportQueue (pushed s now data_type fmt) with
          | (s, Threw) => s
          | (s, Returned _) => park (processExportQueue s)
          end).
  rewrite renderExportQueue_eq, Hr.
  set (s3 := addView _ _).
  destruct (call_calmly s3) as ((evs & Ht & Hn) & Hc & Hl' & Ha).
  { exact Hr. }
  { exact Hl. }
  split_and!.
  - eexists. split.
    + rewrite Ht. simpl. rewrite <- !app_assoc. reflexivity.
    + simpl. by repeat constructor.
  - by rewrite Hc.
  - exact Hl'.
  - exact Ha.
Qed.

Lemma pushed_allRender s now data_type fmt :
  allRender s → isString fmt = true → allRender (pushed s now data_type fmt).
Proof.
  unfold allRender, pushed. simpl. intros Ha Hs.
  rewrite forallb_app. apply andb_true_iff. split.
  - rewrite forallb_forall in Ha. rewrite forallb_forall. intros b Hb.
    specialize (Ha b Hb). unfold renders in *. simpl.
    destruct (heap s !! b) as [j|] eqn:Hj; [| done].
    by rewrite (lookup_app_l_Some _ _ _ _ Hj).
  - simpl. unfold renders. simpl.
    rewrite lookup_app_r, Nat.sub_diag by done. simpl. by rewrite Hs.
Qed.

(** The two ways in which rendering is kept from throwing: every format is
    a string, or the page has no container. *)
Definition holds (m : bool) (s : system) : Prop :=
  if m then allRender s else queueContainer s = false.

Definition allowed (m : bool) (t : task) : bool :=
  if m then stringFormat t else keepsContainerAway t.

Lemma step_calm m s t :
  holds m s → allowed m t = true → neverIdleLocked s →
  (∃ evs, trace (step s t) = trace s ++ evs ∧ noFailure evs) ∧
  neverIdleLocked (step s t) ∧ holds m (step s t).
Proof.
  intros Hm Ht Hl.
  assert (Hr : renderThrows s = false).
  { apply renderThrows_false_iff. destruct m; [by right | by left]. }
  destruct t as [now ty fmt|k|present|].
  - assert (Hp : renderThrows (pushed s now ty fmt) = false).
    { apply renderThrows_false_iff. destruct m; simpl in Hm, Ht.
      - right. by apply pushed_allRender.
      - left. exact Hm. }
    destruct (submit_calmly s now ty fmt Hp Hl) as (He & Hc & Hl' & Ha).
    change (step s (Submit now ty fmt)) with (handleExport now ty fmt s).
    split_and!; [done | done |].
    destruct m; unfold holds, allowed in *.
    + simpl in Ht. by apply Ha, pushed_allRender.
    + by rewrite Hc.
  - destruct (timer_calmly s k Hr Hl) as (He & Hc & Hl' & Ha).
    split_and!; [done | done |].
    destruct m; unfold holds in *; [by apply Ha | by rewrite Hc].
  - change (step s (ContainerChange present)) with (setQueueContainer present s).
    split_and!.
    + exists []. split; [by rewrite app_nil_r | constructor].
    + exact Hl.
    + destruct m; unfold holds, allowed in *; [exact Hm |].
      simpl in Ht. by apply negb_true_iff in Ht.
  - destruct (call_calmly s Hr Hl) as (He & Hc & Hl' & Ha).
    change (step s CallProcessExportQueue) with (park (processExportQueue s)).
    split_and!; [done | done |].
    destruct m; unfold holds in *; [by apply Ha | by rewrite Hc].
Qed.

Lemma run_calm m tasks s :
  holds m s → forallb (allowed m) tasks = true →
  neverIdleLocked s → noFailure (trace s) →
  noFailure (trace (run s tasks)) ∧ neverIdleLocked (run s tasks) ∧
  holds m (run s tasks).
Proof.
  revert s. induction tasks as [|t tasks IH]; intros s Hm Hts Hl Hn.
  - by unfold run.
  - simpl in Hts. apply andb_true_iff in Hts as [Ht Hts]. rewrite run_cons.
    destruct (step_calm m s t Hm Ht Hl) as ((evs & He & Hevs) & Hl1 & Hm1).
    apply IH; try done. rewrite He. by apply Forall_app.
Qed.

(** A job is marked failed only by the [catch] block. *)
Lemma failed_needs_event s job j :
  sound s → heap s !! job = Some j → status j = "failed"%string →
  ¬ noFailure (trace s).
Proof.
  intros Hs Hj Hf Hn.
  destruct (snd_jobs _ Hs job j Hj) as [Hlife _]. rewrite Hf in Hlife.
  assert (Hin : "failed"%string ∈ statusHistory job (trace s)).
  { destruct Hlife as [[? _] | [[? _] | [[? _] | [_ [-> | ->]]]]]; try done.
    - apply list_elem_of_In. simpl. tauto.
    - apply list_elem_of_In. simpl. tauto. }
  apply list_elem_of_omap in Hin as (e & He & Hst).
  pose proof (proj1 (Forall_forall _ _) (snd_events _ Hs) e He) as Hok.
  pose proof (proj1 (Forall_forall _ _) Hn e He) as Hno.
  destruct e as [b v p|b v|b v| | | |]; simpl in Hst, Hok, Hno; try done.
  - destruct (decide (b = job)); [| done]. destruct Hok as [-> _]. done.
  - destruct (decide (b = job)); [| done]. injection Hst as ->. done.
Qed.

(** The failure path is reached only through a format that is not a string
    on a page that has the container. If every submitted format is a
    string, or the page starts without the container and never gains it,
    then whatever the order of submissions, timers and calls: the [catch]
    block never runs, no job is ever marked failed, rendering would not
    throw, and the flag is never left set without a suspended run. *)
Theorem nothing_fails_without_bad_format (container : bool) (tasks : list task) :
  forallb stringFormat tasks = true ∨
  (container = false ∧ forallb keepsContainerAway tasks = true) →
  let s := run (init container) tasks in
  noFailure (trace s) ∧
  (∀ job j, heap s !! job = Some j → status j ≠ "failed"%string) ∧
  (isProcessing s = true → waiting s ≠ []) ∧
  renderThrows s = false.
Proof.
  intros Hmode. cbv zeta.
  assert (H : ∃ m, noFailure (trace (run (init container) tasks)) ∧
                   neverIdleLocked (run (init container) tasks) ∧
                   holds m (run (init container) tasks)).
  { destruct Hmode as [Hts | [-> Hts]].
    - exists true. apply run_calm; try done. constructor.
    - exists false. apply run_calm; try done. constructor. }
  destruct H as (m & Hn & Hl & Hm). split_and!.
  - exact Hn.
  - intros job j Hj Hf.
    destruct (consistent_run (init container) tasks (consistent_init container))
      as [Hs _].
    exact (failed_needs_event _ job j Hs Hj Hf Hn).
  - exact Hl.
  - apply renderThrows_false_iff. destruct m; [by right | by left].
Qed.

Lemma nothing_fails_without_bad_format_witness :
  noFailure (trace (run (init true)
                      [goodSubmit 1; goodSubmit 2; TimerFires 0;
                       ContainerChange false; CallProcessExportQueue])).
Proof.
  apply (nothing_fails_without_bad_format true
           [goodSubmit 1; goodSubmit 2; TimerFires 0;
            ContainerChange false; CallProcessExportQueue]).
  left. reflexivity.
Defined.

End ExportQueueMore.

(** ** More on the loaders *)

Module ReportsMore.
Import Js Dom Reports.

(** The operations whose request carries the CSRF token. *)
Definition needsToken (op : operation) : bool :=
  match op with
  | PreviewReport | LoadDashboardData => true
  | _ => false
  end.


(** The first argument of its [console.error]. *)
Definition consoleLine (op : operation) : string :=
  match op with
  | LoadReportParameters _ => "Ошибка загрузки параметров:"
  | PreviewReport => "Ошибка предпросмотра:"
  | LoadDashboardData => "Ошибка загрузки дашборда:"
  | LoadTemplate _ => "Ошибка загрузки шаблона:"
  end.

(** Whether the request is sent at all: the token is read while the
    arguments of [fetch] are evaluated. *)
Definition sendsRequest (op : operation) (p : page) : bool :=
  negb (needsToken op) || csrfField p.

(** Nothing in the [try] block throws before its last statement. *)
Definition succeeds (server : env) (op : operation) (p : page) : bool :=
  sendsRequest op p && fetchResolves server && jsonParses server
  && renderSucceeds server.


Definition successAlert (op : operation) : list (alertKind * string) :=
  match op with
  | LoadTemplate _ => [(Success, "Шаблон успешно загружен"%string)]
  | _ => []
  end.

Definition usesOverlay (op : operation) : bool :=
  match op with
  | LoadReportParameters _ | PreviewReport => true
  | _ => false
  end.



(** On a page without [main] the [catch] block itself throws at
    [showError]: a loader that fails there ends in a throw, with its
    overlay left on the page or the dashboard left in the loading state.
    [loadTemplate] ends so even when everything went through, since
    [showSuccess] needs [main] as well. *)
Theorem failure_without_main_throws (server : env) (op : operation) (p : page) :
  main p = None →
  (op = PreviewReport → reportForm p = true) →
  succeeds server op p = false ∨ successAlert op ≠ [] →
  ∃ p',
    run server op p = (p', Threw) ∧
    console p' = console p ++ [consoleLine op] ∧
    (usesOverlay op = true → overlays p' = S (overlays p)) ∧
    (op = LoadDashboardData → is_Some (dashboard p) → dashboardLoading p').
Proof.
  intros Hmain Hform Hfail.
  destruct p as [m o d csrf form rq rd co it]. simpl in Hmain. subst m.
  destruct server as [f j r part].
  destruct op as [reportType| | |templateId]; simpl in Hform, Hfail;
    try (rewrite Hform by done);
    unfold succeeds, sendsRequest in Hfail; simpl in Hfail;
    unfold run, loadReportParameters, previewReport, loadDashboardData, loadTemplate,
      tryCatch, block, fetch, json, render; simpl;
    destruct csrf, f, j, r, part; simpl in Hfail |- *;
    try (by destruct Hfail);
    (eexists; split; [reflexivity |]; simpl; split_and!; try done).
  all: intros _ [cl ->]; exists (add "loading" cl); split; [done | apply add_in].
Qed.

Lemma failure_without_main_throws_witness :
  ∃ p', run offline (LoadReportParameters "clients") (setMain samplePage None)
        = (p', Threw) ∧ overlays p' = 1%nat.
Proof.
  destruct (failure_without_main_throws offline (LoadReportParameters "clients")
              (setMain samplePage None))
    as (p' & E & _ & Ho & _).
  - reflexivity.
  - discriminate.
  - left. reflexivity.
  - exists p'. split; [exact E |]. by apply Ho.
Defined.


End ReportsMore.

(** ** The parameter groups of the report form *)

Module ParameterGroups.
Import Js Dom.

(** An element of the page, as [handleReportTypeChange] sees it: its id,
    whether it has the class parameter-group, its inline [display] and its
    class list. *)
Record element := {
  ident : string;
  isGroup : bool;
  display : string;
  classes : classList
}.

Definition withDisplay (v : string) (e : element) : element :=
  {| ident := ident e; isGroup := isGroup e; display := v; classes := classes e |}.

(** [animateElement(element, animation)], up to its timer: the class is
    added now and taken away 500 ms later. *)
Definition animateElement (animation : string) (e : element) : element :=
  {| ident := ident e; isGroup := isGroup e; display := display e;
     classes := add animation (classes e) |}.

(** [document.getElementById(id)]: the first element with the id, in
    document order. *)
Definition getElementById (i : string) (doc : list element) : option nat :=
  fst <$> list_find (λ e, ident e = i) doc.

(** [handleReportTypeChange(reportType)], without the loader it starts at
    the end: the new value of [currentReportType] and the page. *)
Definition handleReportTypeChange (reportType : string) (doc : list element)
  : option string * list element :=
  let doc := map (λ group, if isGroup group then withDisplay "none" group else group) doc in
  match getElementById (reportType ++ "-parameters") doc with
  | Some targetGroup =>
      (Some reportType,
       alter (λ e, animateElement "fadeIn" (withDisplay "block" e)) targetGroup doc)
  | None => (Some reportType, doc)
  end.

Lemma getElementById_hidden (i : string) (doc : list element) :
  getElementById i
    (map (λ group, if isGroup group then withDisplay "none" group else group) doc)
  = getElementById i doc.
Proof.
  unfold getElementById.
  change (map ?f doc) with (f <$> doc). rewrite list_find_fmap.
  rewrite <- option_fmap_compose.
  rewrite (list_find_ext _ (λ e, ident e = i)).
  - by destruct (list_find _ doc) as [[? ?]|].
  - intros e. simpl. by destruct (isGroup e).
Qed.

(** After a change of report type, the first element with the id of the
    chosen type is displayed as a block, every other parameter group is
    hidden, and nothing else has changed its display: at most one
    parameter group is visible, and none when the type has no group of its
    own. *)
Theorem handleReportTypeChange_shows_one_group (reportType : string)
    (doc : list element) :
  let result := handleReportTypeChange reportType doc in
  let target := getElementById (reportType ++ "-parameters") doc in
  result.1 = Some reportType ∧
  length result.2 = length doc ∧
  ∀ i e, doc !! i = Some e →
    ∃ e', result.2 !! i = Some e' ∧
      ident e' = ident e ∧ isGroup e' = isGroup e ∧
      display e' = if decide (target = Some i) then "block"%string
                   else if isGroup e then "none"%string else display e.
Proof.
  cbv zeta. unfold handleReportTypeChange. rewrite getElementById_hidden.
  destruct (getElementById (reportType ++ "-parameters") doc) as [t|]; simpl.
  - split; [done |]. split; [by rewrite length_alter, length_map |].
    intros i e He. destruct (decide (Some t = Some i)) as [[= ->] | Hne].
    + rewrite list_lookup_alter_eq, list_lookup_fmap, He. simpl.
      eexists. split; [done |]. destruct (isGroup e) eqn:G; simpl; by rewrite ?G.
    + rewrite list_lookup_alter_ne by congruence.
      rewrite list_lookup_fmap, He. simpl.
      eexists. split; [done |]. destruct (isGroup e) eqn:G; simpl; by rewrite ?G.
  - split; [done |]. split; [by rewrite length_map |].
    intros i e He. rewrite list_lookup_fmap, He. simpl.
    eexists. split; [done |]. destruct (isGroup e) eqn:G; simpl; by rewrite ?G.
Qed.

End ParameterGroups.
